(** * Singular value decomposition (svd.cpp): model and properties

    The C [double] is the IEEE 754 binary64 type, modelled by Rocq's primitive
    [float]: round to nearest even, every operation rounding to binary64,
    without extended precision or fused multiply-add.  C [int] indices are
    [Z].  Every access to an array is checked against its bounds, and an
    access outside them, which is undefined behaviour in C, is the error
    [OutOfBounds].  [quit], which prints a message and calls [exit(1)], is the
    error it reports.  Memory that [malloc] returns is modelled as zeroed; the
    functions write every entry of such a buffer before they read it.  The
    library functions [qsort] and [hypot] are parameters of the functions that
    call them. *)

From Stdlib Require Import ZArith Lia List Floats Permutation Bool.
From stdpp Require Import base list sorting.

Local Open Scope Z_scope.

(** ** Errors and the result monad *)

Inductive error : Set :=
| NonConvergence   (* quit("svd(): no convergence in %d iterations") *)
| InvalidSize      (* quit("alloc2d(): invalid size") *)
| AssertionFailed  (* assert(m > 0 && n > 0) *)
| OutOfBounds.     (* an access outside an array *)

Inductive res (T : Type) : Type :=
| Ok (x : T)
| Err (e : error).
Arguments Ok {T} x.
Arguments Err {T} e.

#[global] Instance res_ret : MRet res := λ T x, Ok x.
#[global] Instance res_bind : MBind res := λ T U f r,
  match r with Ok x => f x | Err e => Err e end.

(** ** Arrays *)

Abbreviation vec := (list float).
Abbreviation matrix := (list (list float)).

Definition rd {T} (a : list T) (i : Z) : res T :=
  if i <? 0 then Err OutOfBounds
  else match a !! Z.to_nat i with
       | Some x => Ok x
       | None => Err OutOfBounds
       end.

Definition wr {T} (a : list T) (i : Z) (x : T) : res (list T) :=
  if i <? 0 then Err OutOfBounds
  else if (Z.to_nat i <? length a)%nat then Ok (<[Z.to_nat i := x]> a)
       else Err OutOfBounds.

(** [M[r][c]] *)
Definition rd2 {T} (M : list (list T)) (r c : Z) : res T :=
  row ← rd M r; rd row c.

(** [M[r][c] = x] *)
Definition wr2 {T} (M : list (list T)) (r c : Z) (x : T) : res (list (list T)) :=
  row ← rd M r; row' ← wr row c x; wr M r row'.

(** ** Loops *)

(** [for (i = lo; i < hi; i++) body] *)
Fixpoint for_n {S} (cnt : nat) (i : Z) (body : Z → S → res S) (s : S) : res S :=
  match cnt with
  | O => Ok s
  | S cnt' => s' ← body i s; for_n cnt' (i + 1) body s'
  end.

Definition for_up {S} (lo hi : Z) (body : Z → S → res S) (s : S) : res S :=
  for_n (Z.to_nat (hi - lo)) lo body s.

(** [for (i = hi; i >= lo; i--) body] *)
Fixpoint ford_n {S} (cnt : nat) (i : Z) (body : Z → S → res S) (s : S) : res S :=
  match cnt with
  | O => Ok s
  | S cnt' => s' ← body i s; ford_n cnt' (i - 1) body s'
  end.

Definition for_down {S} (hi lo : Z) (body : Z → S → res S) (s : S) : res S :=
  ford_n (Z.to_nat (hi - lo + 1)) hi body s.

(** ** Allocation *)

(** [alloc2d(n1, n2, sizeof(double))]: [n2] rows of [n1] zeroed columns
    ([calloc]); quits on a non-positive size.  The memory is taken to be
    there: the two other exits of the source, [calloc] or [malloc] returning
    [NULL], are not part of this model, and the product [n1 * n2] is the
    mathematical one, where the source multiplies two [int]s.  What is proved
    of the callers is proved of their runs in which the allocations
    succeed. *)
Definition alloc2d (n1 n2 : Z) : res matrix :=
  if (n1 <=? 0) || (n2 <=? 0) then Err InvalidSize
  else Ok (replicate (Z.to_nat n2) (replicate (Z.to_nat n1) 0%float)).

(** [rows] rows of [cols] columns *)
Definition shapeb {T} (M : list (list T)) (rows cols : Z) : bool :=
  (length M =? Z.to_nat rows)%nat
  && forallb (λ row, (length row =? Z.to_nat cols)%nat) M.

(** [memcpy(&dst[0][0], &src[0][0], rows * cols * sizeof(double))] between two
    blocks laid out by [alloc2d] as [rows] rows of [cols] columns: all of
    [src] replaces all of [dst]. *)
Definition memcpy2d (dst src : matrix) (rows cols : Z) : res matrix :=
  if shapeb dst rows cols && shapeb src rows cols then Ok src
  else Err OutOfBounds.

(** [memcpy(dst, src, n * sizeof(double))]: the first [n] entries of [src]
    replace the first [n] entries of [dst]. *)
Definition memcpy1d {T} (dst src : list T) (n : Z) : res (list T) :=
  if (Z.to_nat n <=? length dst)%nat && (Z.to_nat n <=? length src)%nat
  then Ok (take (Z.to_nat n) src ++ drop (Z.to_nat n) dst)
  else Err OutOfBounds.

(** ** svd_invs *)

(** The buffers [svd_invs] works on: its four array arguments and its scratch
    copy [vtemp] of [V].  The caller passes four distinct buffers. *)
Record invs_state : Type := InvsState {
  i_AT : matrix;
  i_A : matrix;
  i_w : vec;
  i_V : matrix;
  i_vtemp : matrix
}.

Definition set_AT (st : invs_state) (x : matrix) : invs_state :=
  InvsState x (i_A st) (i_w st) (i_V st) (i_vtemp st).
Definition set_vtemp (st : invs_state) (x : matrix) : invs_state :=
  InvsState (i_AT st) (i_A st) (i_w st) (i_V st) x.

(** [vtemp[j][i] = V[j][i] / w[i]] *)
Definition invs_scale (i j : Z) (st : invs_state) : res invs_state :=
  v ← rd2 (i_V st) j i;
  wi ← rd (i_w st) i;
  vt ← wr2 (i_vtemp st) j i (v / wi)%float;
  Ok (set_vtemp st vt).

(** [AT[i][j] += vtemp[i][k] * A[j][k]] *)
Definition invs_acc (i j k : Z) (st : invs_state) : res invs_state :=
  a ← rd2 (i_AT st) i j;
  v ← rd2 (i_vtemp st) i k;
  u ← rd2 (i_A st) j k;
  at' ← wr2 (i_AT st) i j (a + v * u)%float;
  Ok (set_AT st at').

(** [AT[i][j] = 0.; for (k = 0; k < mnmin; ++k) AT[i][j] += ...] *)
Definition invs_entry (mnmin i j : Z) (st : invs_state) : res invs_state :=
  at' ← wr2 (i_AT st) i j 0%float;
  for_up 0 mnmin (invs_acc i j) (set_AT st at').

Definition svd_invs (AT A : matrix) (n m : Z) (w : vec) (V : matrix)
  : res invs_state :=
  vtemp ← alloc2d n n;
  vtemp ← memcpy2d vtemp V n n;
  let mnmin := if n <? m then n else m in
  let st := InvsState AT A w V vtemp in
  st ← for_up 0 mnmin (λ i, for_up 0 n (invs_scale i)) st;
  for_up 0 n (λ i, for_up 0 m (invs_entry mnmin i)) st.

(** ** sortvector and svd_sort *)

(** [#define SVD_NMAX 40], [#define SVD_EPS 4.0e-15] *)
Definition SVD_NMAX : Z := 40.
#[warnings="-inexact-float"] Definition SVD_EPS : float := 4.0e-15%float.

(** [typedef struct { double* v; int i; } indexedvalue;] The pointer [v] always
    points into the array being sorted; it is kept as the index of the entry
    it points to. *)
Record indexedvalue : Set := IV { iv_v : Z; iv_i : Z }.

(** [*p->v] for a pointer into [v] *)
Definition deref (v : vec) (p : Z) : float := default 0%float (v !! Z.to_nat p).

Definition cmp_iv (v : vec) (p1 p2 : indexedvalue) : Z :=
  let v1 := deref v (iv_v p1) in
  let v2 := deref v (iv_v p2) in
  if (v2 <? v1)%float then -1          (* v1 > v2 *)
  else if (v1 <? v2)%float then 1
  else 0.

(** The three buffers of a decomposition. *)
Record triad : Type := Triad { t_A : matrix; t_w : vec; t_V : matrix }.

Section Sorter.

(** The C library's [qsort(base, nmemb, size, compar)], as the function from
    the array before the call to the array after it. *)
Variable qsort :
  (indexedvalue → indexedvalue → Z) → list indexedvalue → list indexedvalue.

Definition sortvector (n : Z) (v : vec) (pos : list Z) : res (list Z) :=
  if n <=? 0 then Ok pos
  else
    iv ← for_up 0 n (λ i iv, wr iv i (IV i i)) (replicate (Z.to_nat n) (IV 0 0));
    let iv := qsort (cmp_iv v) iv in
    for_up 0 n (λ i pos, e ← rd iv i; wr pos i (iv_i e)) pos.

(** The body of the loop of [svd_sort] over the columns [i]. *)
Definition sort_column (n m : Z) (pos : list Z) (wold : vec)
    (aold vold : matrix) (wmax : float) (i : Z) (t : triad) : res triad :=
  p ← rd pos i;
  x ← rd wold p;
  w1 ← wr (t_w t) i x;
  wi ← rd w1 i;
  w2 ← (if (wi / wmax <? SVD_EPS)%float then wr w1 i 0%float else Ok w1);
  A' ← for_up 0 m (λ j A, a ← rd2 aold j p; wr2 A j i a) (t_A t);
  V' ← for_up 0 n (λ j V, v ← rd2 vold j p; wr2 V j i v) (t_V t);
  Ok (Triad A' w2 V').

Definition svd_sort (A : matrix) (n m : Z) (w : vec) (V : matrix) : res triad :=
  let pos := replicate (Z.to_nat n) 0 in
  let wold := replicate (Z.to_nat n) 0%float in
  aold ← alloc2d n m;
  vold ← alloc2d n n;
  wold ← memcpy1d wold w n;
  aold ← memcpy2d aold A m n;
  vold ← memcpy2d vold V n n;
  pos ← sortvector n w pos;
  p0 ← rd pos 0;
  wmax ← rd w p0;
  for_up 0 n (sort_column n m pos wold aold vold wmax) (Triad A w V).

End Sorter.

(** ** svd *)

(** [fabs] and [sqrt] are the IEEE operations.  [copysign(x, y)] has the
    magnitude of [x] and the sign bit of [y]; Rocq's floats have a single NaN,
    whose sign bit reads as clear. *)
Definition fabs (x : float) : float := abs x.

Definition copysign (x y : float) : float :=
  if get_sign y then (- abs x)%float else abs x.

(** The buffers of [svd]: its three array arguments and its scratch vector
    [rv1]. *)
Record svd_state : Type := SvdState {
  s_A : matrix;
  s_w : vec;
  s_V : matrix;
  s_rv1 : vec
}.

Definition A_rd (st : svd_state) (r c : Z) : res float := rd2 (s_A st) r c.
Definition A_wr (st : svd_state) (r c : Z) (x : float) : res svd_state :=
  M ← wr2 (s_A st) r c x; Ok (SvdState M (s_w st) (s_V st) (s_rv1 st)).
Definition V_rd (st : svd_state) (r c : Z) : res float := rd2 (s_V st) r c.
Definition V_wr (st : svd_state) (r c : Z) (x : float) : res svd_state :=
  M ← wr2 (s_V st) r c x; Ok (SvdState (s_A st) (s_w st) M (s_rv1 st)).
Definition w_rd (st : svd_state) (i : Z) : res float := rd (s_w st) i.
Definition w_wr (st : svd_state) (i : Z) (x : float) : res svd_state :=
  v ← wr (s_w st) i x; Ok (SvdState (s_A st) v (s_V st) (s_rv1 st)).
Definition rv1_rd (st : svd_state) (i : Z) : res float := rd (s_rv1 st) i.
Definition rv1_wr (st : svd_state) (i : Z) (x : float) : res svd_state :=
  v ← wr (s_rv1 st) i x; Ok (SvdState (s_A st) (s_w st) (s_V st) v).

(** What one pass of the [while (1)] loop of the diagonalization ends in. *)
Inductive pass : Type :=
| Continue (st : svd_state)   (* the loop goes round again *)
| Break (st : svd_state).     (* [break]: the value has converged *)

Section Svd.

(** [hypot] of the C mathematical library. *)
Variable hypot : float → float → float.

Local Open Scope float_scope.

(** *** Householder reduction to bidiagonal form *)

(** The column part of step [i]: yields the buffers, [g] and [scale]. *)
Definition householder_col (n m i : Z) (st : svd_state)
  : res (svd_state * float * float) :=
  let l := (i + 1)%Z in
  if (i <? m)%Z then
    scale ← for_up i m (λ k scale, a ← A_rd st k i; Ok (scale + fabs a)) 0;
    if negb (scale =? 0) then
      '(st, s) ← for_up i m (λ k '(st, s),
          a ← A_rd st k i;
          st ← A_wr st k i (a / scale);
          a ← A_rd st k i;
          Ok (st, s + a * a)) (st, 0);
      f ← A_rd st i i;
      let g := - copysign (sqrt s) f in
      let h := f * g - s in
      st ← A_wr st i i (f - g);
      st ← (if (i <? n - 1)%Z then
              for_up l n (λ j st,
                s ← for_up i m (λ k s,
                      a ← A_rd st k i; b ← A_rd st k j; Ok (s + a * b)) 0;
                let f := s / h in
                for_up i m (λ k st,
                  b ← A_rd st k j; a ← A_rd st k i; A_wr st k j (b + f * a)) st) st
            else Ok st);
      st ← for_up i m (λ k st, a ← A_rd st k i; A_wr st k i (a * scale)) st;
      Ok (st, g, scale)
    else Ok (st, 0, scale)
  else Ok (st, 0, 0).

(** The row part of step [i]: yields the buffers, [g] and [scale]. *)
Definition householder_row (n m i : Z) (st : svd_state)
  : res (svd_state * float * float) :=
  let l := (i + 1)%Z in
  if (i <? m)%Z && (i <? n - 1)%Z then
    scale ← for_up l n (λ k scale, a ← A_rd st i k; Ok (scale + fabs a)) 0;
    if negb (scale =? 0) then
      '(st, s) ← for_up l n (λ k '(st, s),
          a ← A_rd st i k;
          st ← A_wr st i k (a / scale);
          a ← A_rd st i k;
          Ok (st, s + a * a)) (st, 0);
      f ← A_rd st i l;
      let g := - copysign (sqrt s) f in
      let h := f * g - s in
      st ← A_wr st i l (f - g);
      st ← for_up l n (λ k st, a ← A_rd st i k; rv1_wr st k (a / h)) st;
      st ← for_up l m (λ j st,
              s ← for_up l n (λ k s,
                    a ← A_rd st j k; b ← A_rd st i k; Ok (s + a * b)) 0;
              for_up l n (λ k st,
                a ← A_rd st j k; r ← rv1_rd st k; A_wr st j k (a + s * r)) st) st;
      st ← for_up l n (λ k st, a ← A_rd st i k; A_wr st i k (a * scale)) st;
      Ok (st, g, scale)
    else Ok (st, 0, scale)
  else Ok (st, 0, 0).

(** Step [i] of the reduction; [g], [scale] and [tst1] are carried from one
    step to the next. *)
Definition householder_step (n m i : Z) (acc : svd_state * float * float * float)
  : res (svd_state * float * float * float) :=
  let '(st, g, scale, tst1) := acc in
  st ← rv1_wr st i (scale * g);
  '(st, g, scale) ← householder_col n m i st;
  st ← w_wr st i (scale * g);
  '(st, g, scale) ← householder_row n m i st;
  wi ← w_rd st i;
  ri ← rv1_rd st i;
  let tmp := fabs wi + fabs ri in
  let tst1 := if tmp <? tst1 then tst1 else tmp in
  Ok (st, g, scale, tst1).

(** The whole phase: yields the buffers, the last [g] and [tst1]. *)
Definition householder (n m : Z) (st : svd_state)
  : res (svd_state * float * float) :=
  '(st, g, _, tst1) ← for_up 0 n (householder_step n m) (st, 0, 0, 0);
  Ok (st, g, tst1).

(** *** Accumulation of right-hand transformations *)

(** Step [i]; [g] and [l] are carried from one step to the next. *)
Definition accumulate_right_step (n i : Z) (acc : svd_state * float * Z)
  : res (svd_state * float * Z) :=
  let '(st, g, l) := acc in
  st ← (if (i <? n - 1)%Z then
          st ← (if negb (g =? 0) then
                  st ← for_up l n (λ j st,
                         a ← A_rd st i j; b ← A_rd st i l;
                         V_wr st j i ((a / b) / g)) st;
                  for_up l n (λ j st,
                    s ← for_up l n (λ k s,
                          a ← A_rd st i k; v ← V_rd st k j; Ok (s + a * v)) 0;
                    for_up l n (λ k st,
                      v ← V_rd st k j; u ← V_rd st k i; V_wr st k j (v + s * u)) st) st
                else Ok st);
          for_up l n (λ j st, st ← V_wr st i j 0; V_wr st j i 0) st
        else Ok st);
  st ← V_wr st i i 1;
  g ← rv1_rd st i;
  Ok (st, g, i).

Definition accumulate_right (n : Z) (st : svd_state) (g : float) (l : Z)
  : res svd_state :=
  '(st, _, _) ← for_down (n - 1) 0 (accumulate_right_step n) (st, g, l);
  Ok st.

(** *** Accumulation of left-hand transformations *)

Definition accumulate_left_step (n m i : Z) (st : svd_state) : res svd_state :=
  let l := (i + 1)%Z in
  g ← w_rd st i;
  st ← (if negb (i =? n - 1)%Z then for_up l n (λ j st, A_wr st i j 0) st
        else Ok st);
  st ← (if negb (g =? 0) then
          st ← for_up l n (λ j st,
                 s ← for_up l m (λ k s,
                       a ← A_rd st k i; b ← A_rd st k j; Ok (s + a * b)) 0;
                 d ← A_rd st i i;
                 let f := (s / d) / g in
                 for_up i m (λ k st,
                   b ← A_rd st k j; a ← A_rd st k i; A_wr st k j (b + f * a)) st) st;
          for_up i m (λ j st, a ← A_rd st j i; A_wr st j i (a / g)) st
        else for_up i m (λ j st, A_wr st j i 0) st);
  a ← A_rd st i i;
  A_wr st i i (a + 1).

Definition accumulate_left (n m : Z) (st : svd_state) : res svd_state :=
  for_down (if (m <? n)%Z then m - 1 else n - 1)%Z 0 (accumulate_left_step n m) st.

(** *** Diagonalization of the bidiagonal form *)

(** The test for splitting, [for (l = k; l >= 0; l--)], with [cnt] rounds
    left: yields [l], [l1] and [docancellation].  Running out of rounds is the
    exit through the bottom of the loop. *)
Fixpoint split_search_n (cnt : nat) (l l1 : Z) (tst1 : float) (st : svd_state)
  : res (Z * Z * bool) :=
  match cnt with
  | O => Ok (l, l1, true)
  | S cnt' =>
      r ← rv1_rd st l;
      if fabs r + tst1 =? tst1 then Ok (l, l1, false)
      else
        let l1 := (l - 1)%Z in
        x ← w_rd st (l - 1);
        if fabs x + tst1 =? tst1 then Ok (l, l1, true)
        else split_search_n cnt' (l - 1) l1 tst1 st
  end.

Definition split_search (k : Z) (tst1 : float) (st : svd_state)
  : res (Z * Z * bool) :=
  split_search_n (Z.to_nat (k + 1)) k (-1) tst1 st.

(** The rotation of the columns [p] and [q] of [A] over its [m] rows. *)
Definition rotate_A (m p q : Z) (c s : float) (st : svd_state) : res svd_state :=
  for_up 0 m (λ j st,
    y ← A_rd st j p;
    z ← A_rd st j q;
    st ← A_wr st j p (y * c + z * s);
    A_wr st j q (z * c - y * s)) st.

(** The rotation of the columns [p] and [q] of [V] over its [n] rows. *)
Definition rotate_V (n p q : Z) (c s : float) (st : svd_state) : res svd_state :=
  for_up 0 n (λ j st,
    x ← V_rd st j p;
    z ← V_rd st j q;
    st ← V_wr st j p (x * c + z * s);
    V_wr st j q (z * c - x * s)) st.

(** The cancellation loop, [for (i = l; i <= k; i++)], with [cnt] rounds left;
    [c] and [s] are carried from one round to the next. *)
Fixpoint cancellation_n (cnt : nat) (m l1 i : Z) (tst1 c s : float)
    (st : svd_state) : res svd_state :=
  match cnt with
  | O => Ok st
  | S cnt' =>
      r ← rv1_rd st i;
      let f := s * r in
      st ← rv1_wr st i (c * r);
      if fabs f + tst1 =? tst1 then Ok st
      else
        g ← w_rd st i;
        let h := hypot f g in
        st ← w_wr st i h;
        let c := g / h in
        let s := - f / h in
        st ← rotate_A m l1 i c s st;
        cancellation_n cnt' m l1 (i + 1) tst1 c s st
  end.

Definition cancellation (m k l l1 : Z) (tst1 : float) (st : svd_state)
  : res svd_state :=
  cancellation_n (Z.to_nat (k - l + 1)) m l1 l tst1 0 1 st.

(** One round [i1] of the QR transformation; [c], [s], [f] and [x] are carried
    from one round to the next. *)
Definition qr_step (n m i1 : Z) (acc : svd_state * float * float * float * float)
  : res (svd_state * float * float * float * float) :=
  let '(st, c, s, f, x) := acc in
  let i := (i1 + 1)%Z in
  g ← rv1_rd st i;
  y ← w_rd st i;
  let h := s * g in
  let g := c * g in
  let z := hypot f h in
  st ← rv1_wr st i1 z;
  let c := f / z in
  let s := h / z in
  let f := x * c + g * s in
  let g := g * c - x * s in
  let h := y * s in
  let y := y * c in
  st ← rotate_V n i1 i c s st;
  let z := hypot f h in
  st ← w_wr st i1 z;
  let '(c, s) := if negb (z =? 0) then (f / z, h / z) else (c, s) in
  let f := c * g + s * y in
  let x := c * y - s * g in
  st ← rotate_A m i1 i c s st;
  Ok (st, c, s, f, x).

(** The branch [l != k]: the shift from the bottom 2 by 2 minor and the next QR
    transformation. *)
Definition qr_sweep (n m k l : Z) (z : float) (st : svd_state) : res svd_state :=
  let k1 := (k - 1)%Z in
  x ← w_rd st l;
  y ← w_rd st k1;
  g ← rv1_rd st k1;
  h ← rv1_rd st k;
  let f := 0.5 * (((g + z) / h) * ((g - z) / y) + y / h - h / y) in
  let g := hypot f 1 in
  let f := x - (z / x) * z + (h / x) * (y / (f + copysign g f) - h) in
  '(st, _, _, f, x) ← for_up l k (qr_step n m) (st, 1, 1, f, x);
  st ← rv1_wr st l 0;
  st ← rv1_wr st k f;
  w_wr st k x.

(** The branch [l == k]: [w[k]] is made non-negative. *)
Definition make_nonneg (n k : Z) (z : float) (st : svd_state) : res svd_state :=
  if z <? 0 then
    st ← w_wr st k (- z);
    for_up 0 n (λ j st, v ← V_rd st j k; V_wr st j k (- v)) st
  else Ok st.

(** One pass of the [while (1)] loop for the target index [k], after the test
    of the iteration count. *)
Definition sweep (n m k : Z) (tst1 : float) (st : svd_state) : res pass :=
  '(l, l1, docancellation) ← split_search k tst1 st;
  st ← (if docancellation : bool then cancellation m k l l1 tst1 st else Ok st);
  z ← w_rd st k;
  if negb (l =? k)%Z then
    st ← qr_sweep n m k l z st; Ok (Continue st)
  else
    st ← make_nonneg n k z st; Ok (Break st).

(** The [while (1)] loop for the target index [k], entered with the count
    [its] of the passes made so far. *)
Fixpoint sweeps (fuel : nat) (its : Z) (n m k : Z) (tst1 : float)
    (st : svd_state) : res svd_state :=
  match fuel with
  | O => Err NonConvergence
  | S fuel' =>
      let its := (its + 1)%Z in
      if (its >? SVD_NMAX)%Z then Err NonConvergence
      else
        p ← sweep n m k tst1 st;
        match p with
        | Break st => Ok st
        | Continue st => sweeps fuel' its n m k tst1 st
        end
  end.

(** The body of the loop over the target indices: [its] starts at 0, and the
    loop has quit or converged before [SVD_NMAX + 1] passes are over. *)
Definition diagonalize_k (n m : Z) (tst1 : float) (k : Z) (st : svd_state)
  : res svd_state :=
  sweeps (Z.to_nat (SVD_NMAX + 1)) 0 n m k tst1 st.

Definition diagonalize (n m : Z) (tst1 : float) (st : svd_state) : res svd_state :=
  for_down (n - 1) 0 (diagonalize_k n m tst1) st.

(** *** The decomposition *)

(** [svd(A, n, m, w, V)]; [assert(m > 0 && n > 0)] aborts on a size that is
    not positive, and [rv1] is a fresh array of [n] entries. *)
Definition svd (A : matrix) (n m : Z) (w : vec) (V : matrix) : res svd_state :=
  if negb ((0 <? m)%Z && (0 <? n)%Z) then Err AssertionFailed
  else
    let st := SvdState A w V (replicate (Z.to_nat n) 0) in
    '(st, g, tst1) ← householder n m st;
    st ← accumulate_right n st g n;
    st ← accumulate_left n m st;
    diagonalize n m tst1 st.

End Svd.

(** * Vocabulary of the properties *)

(** [v[i]] and [M[r][c]] as values, for statements about arrays whose shape is
    known. *)
Definition vget (v : vec) (i : Z) : float := default 0%float (v !! Z.to_nat i).
Definition mget (M : matrix) (r c : Z) : float :=
  vget (default [] (M !! Z.to_nat r)) c.

(** [M] has [rows] rows of [cols] columns. *)
Definition shape {T} (M : list (list T)) (rows cols : Z) : Prop :=
  length M = Z.to_nat rows ∧ Forall (λ row, length row = Z.to_nat cols) M.

(** [M] with [M[r][c]] replaced by [x]. *)
Definition mset (M : matrix) (r c : Z) (x : float) : matrix :=
  <[Z.to_nat r := <[Z.to_nat c := x]> (default [] (M !! Z.to_nat r))]> M.

(** The indices [lo], [lo + 1], ..., below [hi]. *)
Definition zrange (lo hi : Z) : list Z :=
  map (λ k, lo + Z.of_nat k) (seq 0 (Z.to_nat (hi - lo))).

(** The sum the innermost loop of [svd_invs] accumulates into [AT[i][j]],
    from [0.] and in the order of [k]. *)
Definition pinv_entry (U : matrix) (w : vec) (V : matrix) (mnmin i j : Z) : float :=
  fold_left (λ acc k, (acc + (mget V i k / vget w k) * mget U j k)%float)
            (zrange 0 mnmin) 0%float.

(** The partial sums of the innermost loop of [svd_invs]: the products of row
    [i] of [X] and row [j] of [U] over the columns below [k]. *)
Definition dot_upto (X U : matrix) (i j k : Z) : float :=
  fold_left (λ acc k, (acc + mget X i k * mget U j k)%float) (zrange 0 k) 0%float.

(** The array [iv] as [sortvector] fills it before sorting: entry [i] points
    to [v[i]] and carries the index [i]. *)
Definition iv_init (n : Z) : list indexedvalue := map (λ i, IV i i) (zrange 0 n).

(** What the C standard promises of [qsort]: the array after the call holds
    the elements of the array before it, in ascending order according to the
    comparison function (every earlier element compares less than or equal to
    every later one).  The order of elements that compare equal is left open. *)
Definition qsort_post (cmp : indexedvalue → indexedvalue → Z)
    (before after : list indexedvalue) : Prop :=
  before ≡ₚ after ∧ StronglySorted (λ x y, cmp x y ≤ 0) after.

(** The permutation [pos] that [sortvector] computes for [v]. *)
Definition sort_pos
    (qsort : (indexedvalue → indexedvalue → Z) → list indexedvalue → list indexedvalue)
    (n : Z) (v : vec) : list Z :=
  map iv_i (qsort (cmp_iv v) (iv_init n)).

(** [pos[i]] as a value. *)
Definition zget (pos : list Z) (i : Z) : Z := default 0 (pos !! Z.to_nat i).

(** The thresholding of [svd_sort]: a value whose ratio to [wmax] is below
    [SVD_EPS] becomes [0.0]. *)
Definition threshold (wmax x : float) : float :=
  if (x / wmax <? SVD_EPS)%float then 0%float else x.








(** A comparison function as the C standard wants it for [qsort]: its results
    are consistent with one another, that is they define a total order (up to
    the elements that compare equal). *)
Definition cmp_consistent {T} (cmp : T → T → Z) : Prop :=
  (∀ x y, Z.sgn (cmp y x) = - Z.sgn (cmp x y))
  ∧ (∀ x y z, cmp x y ≤ 0 → cmp y z ≤ 0 → cmp x z ≤ 0).

(** Two sorting functions that meet the contract of [qsort] for every
    consistent comparison function: insertion sort, which puts an element
    behind the elements it compares equal to (stable), and its variant that
    puts it in front of them. *)
Fixpoint insert_after {T} (cmp : T → T → Z) (x : T) (l : list T) : list T :=
  match l with
  | [] => [x]
  | y :: l' => if cmp x y <? 0 then x :: y :: l' else y :: insert_after cmp x l'
  end.

Definition qsort_stable {T} (cmp : T → T → Z) (l : list T) : list T :=
  fold_left (λ acc x, insert_after cmp x acc) l [].

Fixpoint insert_before {T} (cmp : T → T → Z) (x : T) (l : list T) : list T :=
  match l with
  | [] => [x]
  | y :: l' => if cmp x y <=? 0 then x :: y :: l' else y :: insert_before cmp x l'
  end.

Definition qsort_unstable {T} (cmp : T → T → Z) (l : list T) : list T :=
  fold_left (λ acc x, insert_before cmp x acc) l [].

#[global] Instance indexedvalue_eq_dec : EqDecision indexedvalue.
Proof. solve_decision. Defined.

(** A triad of three modes over two rows, for the examples: the singular
    values are out of order and the last one is negligible. *)
Definition ex_A : matrix := [[1; 2; 3]; [4; 5; 6]]%float.
Definition ex_w : vec := [0.5; 3; 0x1p-60]%float.
Definition ex_V : matrix := [[1; 0; 0]; [0; 1; 0]; [0; 0; 1]]%float.
Definition ex_AT : matrix := [[0; 0]; [0; 0]; [0; 0]]%float.


(** A triad with two equal singular values. *)
Definition tie_A : matrix := [[1; 2]]%float.
Definition tie_V : matrix := [[1; 0]; [0; 1]]%float.


(** [passes j st st']: [j] passes of the [while (1)] loop for the target index
    [k] lead from [st] to [st'], and none of them found the block collapsed
    ([l == k]): each went through the QR transformation. *)
Inductive passes (hypot : float → float → float) (n m k : Z) (tst1 : float)
  : nat → svd_state → svd_state → Prop :=
| passes_O (st : svd_state) : passes hypot n m k tst1 O st st
| passes_S (j : nat) (st st1 st2 : svd_state) :
    sweep hypot n m k tst1 st = Ok (Continue st1) →
    passes hypot n m k tst1 j st1 st2 →
    passes hypot n m k tst1 (S j) st st2.

(** [svd] gets as far as the target index [k] of the diagonalization, with the
    threshold [tst1] and the buffers [st]: the three phases before it and the
    target indices above [k] are through. *)
Definition svd_reaches (hypot : float → float → float)
    (A : matrix) (n m : Z) (w : vec) (V : matrix)
    (k : Z) (tst1 : float) (st : svd_state) : Prop :=
  0 < m ∧ 0 < n ∧
  ∃ st0 g st1 st2,
    householder n m (SvdState A w V (replicate (Z.to_nat n) 0%float)) = Ok (st0, g, tst1)
    ∧ accumulate_right n st0 g n = Ok st1
    ∧ accumulate_left n m st1 = Ok st2
    ∧ for_down (n - 1) (k + 1) (diagonalize_k hypot n m tst1) st2 = Ok st.

(** A plain [hypot], for the examples. *)
Definition hypot_plain (x y : float) : float := sqrt (x * x + y * y)%float.

(** Two finite entries whose sum of magnitudes overflows. *)
#[warnings="-inexact-float"] Definition big_A : matrix := [[1e308]; [1e308]]%float.



(** A diagonal matrix with a negative entry, and buffers for its
    decomposition. *)
Definition diag_A : matrix := [[3; 0]; [0; -2]]%float.
Definition zero_w : vec := [0; 0]%float.
Definition zero_V : matrix := [[0; 0]; [0; 0]]%float.

(** Four columns over two rows; the sum of the magnitudes of the first column
    overflows. *)
#[warnings="-inexact-float"] Definition overflow_A : matrix :=
  [[1e308; 0; 0; 0]; [1e308; 0; 0; 0]]%float.

(** ** Further data for the examples *)

(** Singular values two of which are negligible beside the first. *)
Definition deficient_w : vec := [3; 0x1p-60; 0x1p-61]%float.

(** ** The buffers of svd *)

(** The buffers [svd] works on have the sizes its caller promises: [A] has
    [m] rows of [n] columns, [w] holds [n] entries at least, [V] has [n] rows
    of [n] columns, and [rv1] holds [n] entries. *)
Definition svd_buffers (n m : Z) (st : svd_state) : Prop :=
  shape (s_A st) m n
  ∧ (Z.to_nat n ≤ length (s_w st))%nat
  ∧ shape (s_V st) n n
  ∧ length (s_rv1 st) = Z.to_nat n.

(** The buffers after an assignment inside the bounds. *)
Definition A_set (st : svd_state) (r c : Z) (x : float) : svd_state :=
  SvdState (mset (s_A st) r c x) (s_w st) (s_V st) (s_rv1 st).
Definition V_set (st : svd_state) (r c : Z) (x : float) : svd_state :=
  SvdState (s_A st) (s_w st) (mset (s_V st) r c x) (s_rv1 st).
Definition w_set (st : svd_state) (i : Z) (x : float) : svd_state :=
  SvdState (s_A st) (<[Z.to_nat i := x]> (s_w st)) (s_V st) (s_rv1 st).
Definition rv1_set (st : svd_state) (i : Z) (x : float) : svd_state :=
  SvdState (s_A st) (s_w st) (s_V st) (<[Z.to_nat i := x]> (s_rv1 st)).

(** One row of three columns, and buffers for its decomposition. *)
Definition row_A : matrix := [[1; 2; 2]]%float.
Definition zero_w3 : vec := [0; 0; 0]%float.
Definition zero_V3 : matrix := [[0; 0; 0]; [0; 0; 0]; [0; 0; 0]]%float.

(** One row of three finite entries; the sum of the magnitudes of the last
    two overflows. *)
#[warnings="-inexact-float"] Definition inf_row_A : matrix := [[0; 1e308; 1e308]]%float.

(** ** matrix_print and main *)

(** [A[j][i]] as [matrix_print] reads it from a matrix that [alloc2d] laid
    out: [A[j]] is read from the table of the row pointers, one for each row,
    and points at the entry [j * n1] of the one block that holds the rows one
    after the other, [n1] being the length of a row; [A[j][i]] is the entry
    [j * n1 + i] of the block.  An index [i] beyond the row stays inside the
    block up to the end of the last row. *)
Definition rd_block (M : matrix) (j i : Z) : res float :=
  row ← rd M j;
  rd (concat M) (j * Z.of_nat (length row) + i).

(** [fabs(x) < SVD_EPS ? 0.0 : x], the value that [matrix_print] prints for
    an entry [x]. *)
Definition printed (x : float) : float :=
  if (fabs x <? SVD_EPS)%float then 0%float else x.

(** [matrix_print(n, m, A, offset)]: [m] lines of [n] values.  What is kept
    of the output are the values that go to [printf], line by line. *)
Definition matrix_print (n m : Z) (A : matrix) : res (list (list float)) :=
  for_up 0 m (λ j out,
    line ← for_up 0 n (λ i line, x ← rd_block A j i; Ok (line ++ [printed x])) [];
    Ok (out ++ [line])) [].

(** How [main] ends. *)
Inductive exit : Type :=
| ExitUsage                                  (* usage(): exit(0) *)
| ExitSize                                   (* quit("n = %d; expected n > 0") or the same for m *)
| ExitError (e : error)                      (* an error of a function that main calls *)
| ExitDone (out : list (list (list float))). (* return 0: the eight matrices printed *)

Section Main.

Variable hypot : float → float → float.
Variable qsort :
  (indexedvalue → indexedvalue → Z) → list indexedvalue → list indexedvalue.

(** [for (i = 0; i < n; ++i) W[i][i] = w[i];] *)
Definition fill_diagonal (n : Z) (W : matrix) (w : vec) : res matrix :=
  for_up 0 n (λ i W, x ← rd w i; wr2 W i i x) W.

(** [main] after the tests of its arguments: [a] holds the values of
    [atof(argv[3])], [atof(argv[4])], ... *)
Definition main_run (n m : Z) (a : list float) : res (list (list (list float))) :=
  let mnmax := if (m <? n)%Z then n else m in
  A ← alloc2d n m;
  AT ← alloc2d m n;
  '(A, _) ← for_up 0 m (λ j acc,
              for_up 0 n (λ i '(A, k),
                x ← rd a (k - 3);
                A ← wr2 A j i x;
                Ok (A, k + 1)) acc) (A, 3);
  o1 ← matrix_print n m A;
  V ← alloc2d n n;
  let w := replicate (Z.to_nat mnmax) 0%float in
  W ← alloc2d n mnmax;
  st ← svd hypot A n m w V;
  let A := s_A st in
  let w := s_w st in
  let V := s_V st in
  W ← fill_diagonal n W w;
  o2 ← matrix_print n m A;
  o3 ← matrix_print n n W;
  o4 ← matrix_print n n V;
  t ← svd_sort qsort A n m w V;
  let A := t_A t in
  let w := t_w t in
  let V := t_V t in
  W ← fill_diagonal n W w;
  o5 ← matrix_print m m A;
  o6 ← matrix_print m n W;
  o7 ← matrix_print n n V;
  s ← svd_invs AT A n m w V;
  o8 ← matrix_print n m (i_AT s);
  Ok [o1; o2; o3; o4; o5; o6; o7; o8].

(** [main], from its arguments once converted: [n] is [atoi(argv[1])], [m] is
    [atoi(argv[2])] and [a] holds the values of the arguments after them, so
    that [argc] is [3 + length a]. *)
Definition main (n m : Z) (a : list float) : exit :=
  let argc := 3 + Z.of_nat (length a) in
  if argc <? 4 then ExitUsage
  else if n <=? 0 then ExitSize
  else if m <=? 0 then ExitSize
  else if negb (argc =? m * n + 3) then ExitUsage
  else match main_run n m a with
       | Ok out => ExitDone out
       | Err e => ExitError e
       end.

End Main.

(** The lines that [matrix_print] prints when it takes the entry [e j i] for
    [A[j][i]]. *)
Definition lines_of (e : Z → Z → float) (n m : Z) : list (list float) :=
  map (λ j, map (λ i, printed (e j i)) (zrange 0 n)) (zrange 0 m).

(** The arguments of the second example of [usage()],
    [./svd 3 4 1 0 0 1 -1 0 2 1 1 2 0 1]. *)
Definition usage_args : list float := [1; 0; 0; 1; -1; 0; 2; 1; 1; 2; 0; 1]%float.

(** ** The errors of a computation *)

(** [r] fails with an error in [E] only. *)
Definition fails_only {T} (E : error → Prop) (r : res T) : Prop :=
  ∀ e, r = Err e → E e.

(** ** The decomposition of a zero matrix *)

(** Every entry of the [rows] by [cols] matrix [M] is [0.0]. *)
Definition zero_entries (M : matrix) (rows cols : Z) : Prop :=
  ∀ r c, 0 ≤ r < rows → 0 ≤ c < cols → mget M r c = 0%float.

(** [M] holds [1.0] on its diagonal and [0.0] elsewhere. *)
Definition unit_diagonal (M : matrix) (rows cols : Z) : Prop :=
  ∀ r c, 0 ≤ r < rows → 0 ≤ c < cols →
    mget M r c = if decide (r = c) then 1%float else 0%float.

(** ** The contract of qsort *)

(** [qsort] as the C standard specifies it: with a consistent comparison
    function the array comes back sorted, holding what it held. *)
Definition qsort_contract
    (qsort : (indexedvalue → indexedvalue → Z) → list indexedvalue → list indexedvalue)
  : Prop :=
  ∀ cmp l, cmp_consistent cmp → qsort_post cmp l (qsort cmp l).

(** * Properties *)

(** ** The result monad *)

Lemma bind_Ok {T U} (r : res T) (f : T → res U) (y : U) :
  (r ≫= f) = Ok y ↔ ∃ x, r = Ok x ∧ f x = Ok y.
Proof.
  destruct r as [x|e]; simpl; split.
  - intros H. exists x. split; [reflexivity | exact H].
  - intros (x' & Hx & Hf). inversion Hx. subst. exact Hf.
  - discriminate.
  - intros (x' & Hx & _). discriminate.
Qed.

Lemma bind_Ok_l {T U} (r : res T) (f : T → res U) (x : T) :
  r = Ok x → (r ≫= f) = f x.
Proof. intros ->. reflexivity. Qed.

(** Splits the hypotheses [x ← r; k = Ok y] into their steps. *)
Ltac inv_res :=
  repeat match goal with
  | H : (_ ≫= _) = Ok _ |- _ =>
      apply bind_Ok in H; destruct H as (? & ? & H)
  | H : Ok _ = Ok _ |- _ => inversion H; subst; clear H
  | H : Err _ = Ok _ |- _ => discriminate H
  end.

(** ** Arrays *)

Lemma rd_Ok {T} (a : list T) (i : Z) (x : T) :
  rd a i = Ok x ↔ 0 ≤ i ∧ a !! Z.to_nat i = Some x.
Proof.
  unfold rd. destruct (Z.ltb_spec i 0).
  - split; [discriminate | lia].
  - destruct (a !! Z.to_nat i) as [y|]; split.
    + intros [= ->]. auto.
    + intros [_ [= ->]]. reflexivity.
    + discriminate.
    + intros [_ [=]].
Qed.

Lemma rd_in_range {T} (a : list T) (i : Z) :
  0 ≤ i < Z.of_nat (length a) → ∃ x, rd a i = Ok x ∧ a !! Z.to_nat i = Some x.
Proof.
  intros Hi. destruct (lookup_lt_is_Some_2 a (Z.to_nat i)) as [x Hx]; [lia|].
  exists x. split; [apply rd_Ok; split; [lia | exact Hx] | exact Hx].
Qed.

Lemma rd_range {T} (a : list T) (i : Z) (x : T) :
  rd a i = Ok x → 0 ≤ i < Z.of_nat (length a).
Proof.
  intros [H0 H]%rd_Ok. apply lookup_lt_Some in H. lia.
Qed.

Lemma wr_Ok {T} (a : list T) (i : Z) (x : T) (a' : list T) :
  wr a i x = Ok a' ↔ 0 ≤ i < Z.of_nat (length a) ∧ a' = <[Z.to_nat i := x]> a.
Proof.
  unfold wr. destruct (Z.ltb_spec i 0).
  - split; [discriminate | lia].
  - destruct (Nat.ltb_spec (Z.to_nat i) (length a)); split.
    + intros [= <-]. split; [lia | reflexivity].
    + intros [_ ->]. reflexivity.
    + discriminate.
    + lia.
Qed.

Lemma wr_in_range {T} (a : list T) (i : Z) (x : T) :
  0 ≤ i < Z.of_nat (length a) → wr a i x = Ok (<[Z.to_nat i := x]> a).
Proof. intros Hi. apply wr_Ok. auto. Qed.

Lemma rd_vget (v : vec) (i : Z) :
  0 ≤ i < Z.of_nat (length v) → rd v i = Ok (vget v i).
Proof.
  intros Hi. destruct (rd_in_range v i Hi) as (x & Hx & Hl).
  unfold vget. rewrite Hl. exact Hx.
Qed.

Lemma vget_insert (v : vec) (i j : Z) (x : float) :
  0 ≤ i < Z.of_nat (length v) → 0 ≤ j →
  vget (<[Z.to_nat i := x]> v) j = if decide (j = i) then x else vget v j.
Proof.
  intros Hi Hj. unfold vget. destruct (decide (j = i)) as [->|Hne].
  - rewrite list_lookup_insert_eq; [reflexivity | lia].
  - rewrite list_lookup_insert_ne; [reflexivity | lia].
Qed.

(** ** Matrices *)

Lemma shapeb_shape {T} (M : list (list T)) (rows cols : Z) :
  shapeb M rows cols = true ↔ shape M rows cols.
Proof.
  unfold shapeb, shape. rewrite andb_true_iff, Nat.eqb_eq, forallb_forall.
  rewrite Forall_forall. split; intros [H1 H2]; split; auto; intros row Hr.
  - apply Nat.eqb_eq, H2. apply list_elem_of_In. exact Hr.
  - apply Nat.eqb_eq, H2. apply list_elem_of_In. exact Hr.
Qed.

Lemma shape_row {T} (M : list (list T)) (rows cols r : Z) :
  shape M rows cols → 0 ≤ r < rows →
  ∃ row, M !! Z.to_nat r = Some row ∧ length row = Z.to_nat cols.
Proof.
  intros [Hl Hf] Hr.
  destruct (lookup_lt_is_Some_2 M (Z.to_nat r)) as [row Hrow]; [lia|].
  exists row. split; [exact Hrow|].
  rewrite Forall_forall in Hf. apply Hf. eapply list_elem_of_lookup_2. exact Hrow.
Qed.

Lemma rd2_mget (M : matrix) (rows cols r c : Z) :
  shape M rows cols → 0 ≤ r < rows → 0 ≤ c < cols →
  rd2 M r c = Ok (mget M r c).
Proof.
  intros HM Hr Hc. destruct (shape_row M rows cols r HM Hr) as (row & Hrow & Hlen).
  unfold rd2. rewrite (bind_Ok_l _ _ row); [|apply rd_Ok; split; [lia|exact Hrow]].
  unfold mget. rewrite Hrow. simpl. apply rd_vget. lia.
Qed.

Lemma wr2_mset (M : matrix) (rows cols r c : Z) (x : float) :
  shape M rows cols → 0 ≤ r < rows → 0 ≤ c < cols →
  wr2 M r c x = Ok (mset M r c x).
Proof.
  intros HM Hr Hc. destruct (shape_row M rows cols r HM Hr) as (row & Hrow & Hlen).
  unfold wr2, mset. rewrite (bind_Ok_l _ _ row); [|apply rd_Ok; split; [lia|exact Hrow]].
  rewrite (bind_Ok_l _ _ (<[Z.to_nat c := x]> row)); [|apply wr_in_range; lia].
  rewrite Hrow. simpl. apply wr_in_range. destruct HM as [Hl _]. lia.
Qed.

Lemma shape_mset (M : matrix) (rows cols r c : Z) (x : float) :
  shape M rows cols → shape (mset M r c x) rows cols.
Proof.
  intros [Hl Hf]. unfold mset. split.
  - rewrite length_insert. exact Hl.
  - destruct (M !! Z.to_nat r) as [row|] eqn:Hrow.
    + apply Forall_insert; [exact Hf|]. simpl. rewrite length_insert.
      rewrite Forall_forall in Hf. apply Hf. eapply list_elem_of_lookup_2. exact Hrow.
    + rewrite list_insert_ge; [exact Hf|]. apply lookup_ge_None. exact Hrow.
Qed.

Lemma mget_mset (M : matrix) (rows cols r c r' c' : Z) (x : float) :
  shape M rows cols → 0 ≤ r < rows → 0 ≤ c < cols → 0 ≤ r' → 0 ≤ c' →
  mget (mset M r c x) r' c' =
  if decide (r' = r ∧ c' = c) then x else mget M r' c'.
Proof.
  intros HM Hr Hc Hr' Hc'.
  destruct (shape_row M rows cols r HM Hr) as (row & Hrow & Hlen).
  destruct HM as [Hl _]. unfold mget, mset. rewrite Hrow. simpl.
  destruct (decide (r' = r)) as [->|Hne].
  - rewrite list_lookup_insert_eq by lia. simpl.
    rewrite vget_insert by lia. rewrite Hrow. simpl.
    destruct (decide (c' = c)) as [->|Hc2].
    + rewrite decide_True by auto. reflexivity.
    + rewrite decide_False by tauto. reflexivity.
  - rewrite list_lookup_insert_ne by lia.
    rewrite decide_False by tauto. reflexivity.
Qed.



(** ** Loops *)

Lemma for_up_first {S} (lo hi : Z) (body : Z → S → res S) (s : S) :
  lo < hi → for_up lo hi body s = (body lo s ≫= for_up (lo + 1) hi body).
Proof.
  intros H. unfold for_up.
  replace (Z.to_nat (hi - lo)) with (Datatypes.S (Z.to_nat (hi - (lo + 1)))) by lia.
  reflexivity.
Qed.

(** Total correctness of an ascending loop: an invariant that every round
    re-establishes holds at the end, and the loop does end in a state. *)
Lemma for_n_inv {S} (Inv : Z → S → Prop) (body : Z → S → res S) (cnt : nat) :
  ∀ (i : Z) (s : S),
  Inv i s →
  (∀ j t, i ≤ j < i + Z.of_nat cnt → Inv j t → ∃ t', body j t = Ok t' ∧ Inv (j + 1) t') →
  ∃ s', for_n cnt i body s = Ok s' ∧ Inv (i + Z.of_nat cnt) s'.
Proof.
  induction cnt as [|cnt IH]; intros i s Hi Hstep.
  - exists s. split; [reflexivity|]. replace (i + Z.of_nat 0) with i by lia. exact Hi.
  - destruct (Hstep i s) as (t & Ht & Hit); [lia | exact Hi |].
    destruct (IH (i + 1) t Hit) as (s' & Hs' & Hinv).
    + intros j u Hj Hu. apply Hstep; [lia | exact Hu].
    + exists s'. simpl. rewrite Ht. simpl. split; [exact Hs'|].
      replace (i + Z.of_nat (Datatypes.S cnt)) with (i + 1 + Z.of_nat cnt) by lia.
      exact Hinv.
Qed.

Lemma for_up_inv {S} (Inv : Z → S → Prop) (lo hi : Z) (body : Z → S → res S) (s : S) :
  lo ≤ hi → Inv lo s →
  (∀ j t, lo ≤ j < hi → Inv j t → ∃ t', body j t = Ok t' ∧ Inv (j + 1) t') →
  ∃ s', for_up lo hi body s = Ok s' ∧ Inv hi s'.
Proof.
  intros Hle Hlo Hstep.
  destruct (for_n_inv Inv body (Z.to_nat (hi - lo)) lo s Hlo) as (s' & Hs' & Hinv).
  - intros j t Hj. apply Hstep. lia.
  - exists s'. split; [exact Hs'|].
    replace (lo + Z.of_nat (Z.to_nat (hi - lo))) with hi in Hinv by lia. exact Hinv.
Qed.

(** Partial correctness: what every successful round preserves holds of the
    state a successful loop ends in. *)
Lemma for_n_Ok_inv {S} (Inv : S → Prop) (body : Z → S → res S) (cnt : nat) :
  ∀ (i : Z) (s s' : S),
  for_n cnt i body s = Ok s' → Inv s →
  (∀ j t t', i ≤ j < i + Z.of_nat cnt → body j t = Ok t' → Inv t → Inv t') →
  Inv s'.
Proof.
  induction cnt as [|cnt IH]; intros i s s' Hrun Hs Hstep; simpl in Hrun.
  - inv_res. exact Hs.
  - inv_res. eapply IH; [exact Hrun | | ].
    + eapply Hstep; [ | eassumption | exact Hs]. lia.
    + intros j t t' Hj. apply Hstep. lia.
Qed.

Lemma for_up_Ok_inv {S} (Inv : S → Prop) (lo hi : Z) (body : Z → S → res S) (s s' : S) :
  for_up lo hi body s = Ok s' → Inv s →
  (∀ j t t', lo ≤ j < hi → body j t = Ok t' → Inv t → Inv t') →
  Inv s'.
Proof.
  intros Hrun Hs Hstep. eapply for_n_Ok_inv; [exact Hrun | exact Hs |].
  intros j t t' Hj. apply Hstep. lia.
Qed.

Lemma ford_n_Ok_inv {S} (Inv : S → Prop) (body : Z → S → res S) (cnt : nat) :
  ∀ (i : Z) (s s' : S),
  ford_n cnt i body s = Ok s' → Inv s →
  (∀ j t t', i - Z.of_nat cnt < j ≤ i → body j t = Ok t' → Inv t → Inv t') →
  Inv s'.
Proof.
  induction cnt as [|cnt IH]; intros i s s' Hrun Hs Hstep; simpl in Hrun.
  - inv_res. exact Hs.
  - inv_res. eapply IH; [exact Hrun | | ].
    + eapply Hstep; [ | eassumption | exact Hs]. lia.
    + intros j t t' Hj. apply Hstep. lia.
Qed.

Lemma zrange_snoc (lo k : Z) : lo ≤ k → zrange lo (k + 1) = zrange lo k ++ [k].
Proof.
  intros H. unfold zrange.
  replace (Z.to_nat (k + 1 - lo)) with (Z.to_nat (k - lo) + 1)%nat by lia.
  rewrite seq_app, map_app. simpl. f_equal. f_equal. lia.
Qed.

Lemma length_zrange (lo hi : Z) : length (zrange lo hi) = Z.to_nat (hi - lo).
Proof. unfold zrange. rewrite length_map, length_seq. reflexivity. Qed.

Lemma lookup_zrange (lo hi : Z) (i : nat) :
  (i < Z.to_nat (hi - lo))%nat → zrange lo hi !! i = Some (lo + Z.of_nat i).
Proof.
  intros H. unfold zrange. rewrite list_lookup_fmap, lookup_seq_lt by exact H.
  reflexivity.
Qed.

(** ** svd_invs *)

Lemma alloc2d_Ok (n1 n2 : Z) :
  1 ≤ n1 → 1 ≤ n2 →
  ∃ M, alloc2d n1 n2 = Ok M ∧ shape M n2 n1.
Proof.
  intros H1 H2. unfold alloc2d.
  destruct (Z.leb_spec n1 0); [lia|]. destruct (Z.leb_spec n2 0); [lia|]. simpl.
  eexists. split; [reflexivity|]. split.
  - apply length_replicate.
  - apply Forall_replicate. apply length_replicate.
Qed.

Lemma memcpy2d_Ok (dst src : matrix) (rows cols : Z) :
  shape dst rows cols → shape src rows cols → memcpy2d dst src rows cols = Ok src.
Proof.
  intros Hd Hs. unfold memcpy2d.
  apply shapeb_shape in Hd, Hs. rewrite Hd, Hs. reflexivity.
Qed.

Lemma dot_upto_succ (X U : matrix) (i j k : Z) :
  0 ≤ k →
  dot_upto X U i j (k + 1) = (dot_upto X U i j k + mget X i k * mget U j k)%float.
Proof.
  intros Hk. unfold dot_upto. rewrite zrange_snoc by lia.
  rewrite fold_left_app. reflexivity.
Qed.

Lemma fold_left_zrange_ext (f g : float → Z → float) (lo hi : Z) (a : float) :
  (∀ acc k, lo ≤ k < hi → f acc k = g acc k) →
  fold_left f (zrange lo hi) a = fold_left g (zrange lo hi) a.
Proof.
  intros Hfg. unfold zrange.
  assert (Hin : ∀ k, In k (map (λ k, lo + Z.of_nat k) (seq 0 (Z.to_nat (hi - lo)))) →
                    lo ≤ k < hi).
  { intros k Hk. apply in_map_iff in Hk as (x & <- & Hx). apply in_seq in Hx. lia. }
  revert a Hin. generalize (map (λ k, lo + Z.of_nat k) (seq 0 (Z.to_nat (hi - lo)))).
  induction l as [|k l IH]; intros a Hin; simpl; [reflexivity|].
  rewrite Hfg by (apply Hin; left; reflexivity).
  apply IH. intros k' Hk'. apply Hin. right. exact Hk'.
Qed.

Section Invs.

Variables (AT U : matrix) (n m : Z) (w : vec) (V : matrix).
Hypothesis Hn : 1 ≤ n.
Hypothesis Hm : 1 ≤ m.
Hypothesis HAT : shape AT n m.
Hypothesis HU : shape U m n.
Hypothesis Hw : length w = Z.to_nat n.
Hypothesis HV : shape V n n.

Let mn : Z := if n <? m then n else m.

Lemma invs_mn : mn = Z.min n m ∧ 1 ≤ mn ≤ n ∧ mn ≤ m.
Proof. unfold mn. destruct (Z.ltb_spec n m); lia. Qed.

(** The value column [c] of row [r] of [vtemp] gets in the first loop. *)
Let scaled (r c : Z) : float := (mget V r c / vget w c)%float.

(** The first loop nest: the columns below [mnmin] of the copy of [V] are
    divided by their singular value, and nothing else is written. *)
Lemma invs_scale_loops :
  ∃ vt, for_up 0 mn (λ i, for_up 0 n (invs_scale i)) (InvsState AT U w V V)
        = Ok (InvsState AT U w V vt)
      ∧ shape vt n n
      ∧ ∀ r c, 0 ≤ r < n → 0 ≤ c < n →
          mget vt r c = if decide (c < mn) then scaled r c else mget V r c.
Proof.
  destruct invs_mn as (_ & Hmn & _).
  pose (Inner := λ (i j : Z) (st : invs_state),
    ∃ vt, st = InvsState AT U w V vt ∧ shape vt n n ∧
      ∀ r c, 0 ≤ r < n → 0 ≤ c < n →
        mget vt r c = if decide (c < i ∨ (c = i ∧ r < j)) then scaled r c
                      else mget V r c).
  destruct (for_up_inv (λ i st, Inner i 0 st) 0 mn
              (λ i, for_up 0 n (invs_scale i)) (InvsState AT U w V V))
    as (st & Hrun & vt & -> & Hsh & Hval).
  - lia.
  - exists V. split; [reflexivity|]. split; [exact HV|].
    intros r c Hr Hc. rewrite decide_False by lia. reflexivity.
  - intros i st Hi Hinv.
    destruct (for_up_inv (Inner i) 0 n (invs_scale i) st) as (st' & Hrun' & Hinv').
    + lia.
    + exact Hinv.
    + intros j t Hj (vt & -> & Hsh & Hval).
      unfold invs_scale. simpl.
      rewrite (bind_Ok_l _ _ _ (rd2_mget V n n j i HV ltac:(lia) ltac:(lia))).
      rewrite (bind_Ok_l _ _ _ (rd_vget w i ltac:(lia))).
      rewrite (bind_Ok_l _ _ _ (wr2_mset vt n n j i _ Hsh ltac:(lia) ltac:(lia))).
      eexists. split; [reflexivity|]. eexists. split; [reflexivity|].
      split; [apply shape_mset; exact Hsh|].
      intros r c Hr Hc. rewrite (mget_mset vt n n) by (auto; lia).
      rewrite Hval by lia.
      repeat case_decide; try reflexivity; try lia.
      destruct H as [-> ->]. reflexivity.
    + exists st'. split; [exact Hrun'|].
      destruct Hinv' as (vt & -> & Hsh & Hval).
      exists vt. split; [reflexivity|]. split; [exact Hsh|].
      intros r c Hr Hc. rewrite Hval by lia.
      repeat case_decide; try reflexivity; lia.
  - exists vt. split; [exact Hrun|]. split; [exact Hsh|].
    intros r c Hr Hc. rewrite Hval by lia.
    repeat case_decide; try reflexivity; lia.
Qed.

(** The second loop nest: every entry of [AT] gets its sum, and nothing else is
    written. *)
Lemma invs_entry_loops (vt : matrix) :
  shape vt n n →
  ∃ AT', for_up 0 n (λ i, for_up 0 m (invs_entry mn i)) (InvsState AT U w V vt)
         = Ok (InvsState AT' U w V vt)
       ∧ shape AT' n m
       ∧ ∀ r c, 0 ≤ r < n → 0 ≤ c < m → mget AT' r c = dot_upto vt U r c mn.
Proof.
  intros Hvt. destruct invs_mn as (_ & Hmn & Hmn').
  pose (Done := λ (i j : Z) (st : invs_state),
    ∃ X, st = InvsState X U w V vt ∧ shape X n m ∧
      ∀ r c, 0 ≤ r < n → 0 ≤ c < m → r < i ∨ (r = i ∧ c < j) →
        mget X r c = dot_upto vt U r c mn).
  destruct (for_up_inv (λ i st, Done i 0 st) 0 n
              (λ i, for_up 0 m (invs_entry mn i)) (InvsState AT U w V vt))
    as (st & Hrun & X & -> & Hsh & Hval).
  - lia.
  - exists AT. split; [reflexivity|]. split; [exact HAT|]. intros; lia.
  - intros i st Hi Hinv.
    destruct (for_up_inv (Done i) 0 m (invs_entry mn i) st) as (st' & Hrun' & Hinv').
    + lia.
    + exact Hinv.
    + intros j t Hj (X & -> & Hsh & Hval).
      unfold invs_entry. simpl.
      rewrite (bind_Ok_l _ _ _ (wr2_mset X n m i j _ Hsh ltac:(lia) ltac:(lia))).
      pose (Part := λ (k : Z) (st : invs_state),
        ∃ Y, st = InvsState Y U w V vt ∧ shape Y n m ∧
          mget Y i j = dot_upto vt U i j k ∧
          ∀ r c, 0 ≤ r < n → 0 ≤ c < m → ¬ (r = i ∧ c = j) →
            mget Y r c = mget X r c).
      destruct (for_up_inv Part 0 mn (invs_acc i j)
                  (set_AT (InvsState X U w V vt) (mset X i j 0%float)))
        as (st' & Hrun' & Y & -> & HshY & Hij & Hrest).
      * lia.
      * eexists. split; [reflexivity|]. split; [apply shape_mset; exact Hsh|].
        split.
        -- rewrite (mget_mset X n m) by (auto; lia).
           rewrite decide_True by auto. reflexivity.
        -- intros r c Hr Hc Hne. rewrite (mget_mset X n m) by (auto; lia).
           rewrite decide_False by exact Hne. reflexivity.
      * intros k t Hk (Y & -> & HshY & Hij & Hrest).
        unfold invs_acc. simpl.
        rewrite (bind_Ok_l _ _ _ (rd2_mget Y n m i j HshY ltac:(lia) ltac:(lia))).
        rewrite (bind_Ok_l _ _ _ (rd2_mget vt n n i k Hvt ltac:(lia) ltac:(lia))).
        rewrite (bind_Ok_l _ _ _ (rd2_mget U m n j k HU ltac:(lia) ltac:(lia))).
        rewrite (bind_Ok_l _ _ _ (wr2_mset Y n m i j _ HshY ltac:(lia) ltac:(lia))).
        eexists. split; [reflexivity|]. eexists. split; [reflexivity|].
        split; [apply shape_mset; exact HshY|]. split.
        -- rewrite (mget_mset Y n m) by (auto; lia).
           rewrite decide_True by auto. rewrite dot_upto_succ by lia.
           rewrite Hij. reflexivity.
        -- intros r c Hr Hc Hne. rewrite (mget_mset Y n m) by (auto; lia).
           rewrite decide_False by exact Hne. apply Hrest; assumption.
      * exists (InvsState Y U w V vt). split; [exact Hrun'|].
        exists Y. split; [reflexivity|]. split; [exact HshY|].
        intros r c Hr Hc Hdone.
        destruct (decide (r = i ∧ c = j)) as [[-> ->]|Hne]; [exact Hij|].
        rewrite Hrest by assumption. apply Hval; [assumption..|lia].
    + exists st'. split; [exact Hrun'|].
      destruct Hinv' as (X & -> & Hsh & Hval).
      exists X. split; [reflexivity|]. split; [exact Hsh|].
      intros r c Hr Hc Hdone. apply Hval; [assumption..|lia].
  - exists X. split; [exact Hrun|]. split; [exact Hsh|].
    intros r c Hr Hc. apply Hval; [assumption..|lia].
Qed.

(** What [svd_invs] returns: the buffers it was given with only [AT]
    rewritten, and its scratch copy of [V]. *)
Lemma svd_invs_spec :
  ∃ AT' vt, svd_invs AT U n m w V = Ok (InvsState AT' U w V vt)
    ∧ shape AT' n m
    ∧ (∀ r c, 0 ≤ r < n → 0 ≤ c < n →
         mget vt r c = if decide (c < Z.min n m) then (mget V r c / vget w c)%float
                       else mget V r c)
    ∧ ∀ i j, 0 ≤ i < n → 0 ≤ j < m →
         mget AT' i j = pinv_entry U w V (Z.min n m) i j.
Proof.
  destruct invs_mn as (Hmin & Hmn & Hmn').
  destruct (alloc2d_Ok n n Hn Hn) as (Z0 & Halloc & HZ0).
  destruct invs_scale_loops as (vt & Hscale & Hvt & Hvtval).
  destruct (invs_entry_loops vt Hvt) as (AT' & Hentry & HAT' & HATval).
  exists AT', vt. split; [|split; [exact HAT'|split]].
  - unfold svd_invs. rewrite Halloc. simpl.
    rewrite (memcpy2d_Ok Z0 V n n HZ0 HV). simpl.
    fold mn. rewrite Hscale. simpl. exact Hentry.
  - intros r c Hr Hc. rewrite <- Hmin. apply Hvtval; assumption.
  - intros i j Hi Hj. rewrite HATval by assumption.
    rewrite <- Hmin. unfold dot_upto, pinv_entry.
    apply fold_left_zrange_ext. intros acc k Hk.
    rewrite Hvtval by lia. rewrite decide_True by lia. reflexivity.
Qed.

End Invs.

(** ** sortvector *)

(** A loop that writes [g i] into entry [i] of an array of [n] entries fills
    the array with the values of [g]. *)
Lemma fill_loop {T} (g : Z → T) (body : Z → list T → res (list T))
    (a0 : list T) (n : Z) :
  0 ≤ n → length a0 = Z.to_nat n →
  (∀ i a, 0 ≤ i < n → length a = Z.to_nat n → body i a = wr a i (g i)) →
  for_up 0 n body a0 = Ok (map g (zrange 0 n)).
Proof.
  intros Hn Hlen Hbody.
  destruct (for_up_inv
    (λ i a, length a = Z.to_nat n ∧
            ∀ k, 0 ≤ k < i → a !! Z.to_nat k = Some (g k))
    0 n body a0) as (a & Hrun & Hl & Hval).
  - exact Hn.
  - split; [exact Hlen | intros; lia].
  - intros i a Hi [Hl Hval]. exists (<[Z.to_nat i := g i]> a).
    split; [rewrite Hbody by assumption; apply wr_in_range; lia|].
    split; [rewrite length_insert; exact Hl|].
    intros k Hk. destruct (decide (k = i)) as [->|Hne].
    + apply list_lookup_insert_eq. lia.
    + rewrite list_lookup_insert_ne by lia. apply Hval. lia.
  - rewrite Hrun. f_equal. apply list_eq. intros k.
    destruct (decide (k < Z.to_nat n)%nat) as [Hk|Hk].
    + rewrite list_lookup_fmap, lookup_zrange by lia. simpl.
      specialize (Hval (Z.of_nat k) ltac:(lia)).
      rewrite Nat2Z.id in Hval. rewrite Hval. f_equal.
    + rewrite !lookup_ge_None_2; [reflexivity | | lia].
      rewrite length_map, length_zrange. lia.
Qed.

Lemma length_iv_init (n : Z) : length (iv_init n) = Z.to_nat n.
Proof. unfold iv_init. rewrite length_map, length_zrange. f_equal. lia. Qed.

Lemma map_iv_i_init (n : Z) : map iv_i (iv_init n) = zrange 0 n.
Proof.
  unfold iv_init. rewrite map_map. simpl. apply map_id.
Qed.

Lemma zget_lookup (pos : list Z) (i p : Z) :
  pos !! Z.to_nat i = Some p → zget pos i = p.
Proof. intros H. unfold zget. rewrite H. reflexivity. Qed.

Lemma elem_of_zrange (lo hi k : Z) : k ∈ zrange lo hi ↔ lo ≤ k < hi.
Proof.
  unfold zrange. rewrite list_elem_of_fmap. split.
  - intros (x & -> & Hx). apply elem_of_seq in Hx. lia.
  - intros Hk. exists (Z.to_nat (k - lo)). split; [lia|]. apply elem_of_seq. lia.
Qed.

Section SortVector.

Variable qsort :
  (indexedvalue → indexedvalue → Z) → list indexedvalue → list indexedvalue.
Variables (n : Z) (v : vec).
Hypothesis Hn : 1 ≤ n.
Hypothesis Hq : qsort_post (cmp_iv v) (iv_init n) (qsort (cmp_iv v) (iv_init n)).

Lemma sort_pos_perm : sort_pos qsort n v ≡ₚ zrange 0 n.
Proof.
  unfold sort_pos. rewrite <- map_iv_i_init.
  apply Permutation_map. symmetry. apply Hq.
Qed.

Lemma length_sort_pos : length (sort_pos qsort n v) = Z.to_nat n.
Proof.
  rewrite (Permutation_length sort_pos_perm), length_zrange. f_equal. lia.
Qed.

(** Every entry of [pos] is the index of a column. *)
Lemma sort_pos_range (i : Z) :
  0 ≤ i < n →
  sort_pos qsort n v !! Z.to_nat i = Some (zget (sort_pos qsort n v) i)
  ∧ 0 ≤ zget (sort_pos qsort n v) i < n.
Proof.
  intros Hi.
  destruct (lookup_lt_is_Some_2 (sort_pos qsort n v) (Z.to_nat i)) as [p Hp].
  { rewrite length_sort_pos. lia. }
  rewrite (zget_lookup _ _ _ Hp). split; [exact Hp|].
  apply (elem_of_zrange 0 n). rewrite <- sort_pos_perm.
  eapply list_elem_of_lookup_2. exact Hp.
Qed.

(** [sortvector] returns, with [pos] holding the indices of the sorted
    array. *)
Lemma sortvector_Ok (pos0 : list Z) :
  length pos0 = Z.to_nat n →
  sortvector qsort n v pos0 = Ok (sort_pos qsort n v).
Proof.
  intros Hp0. unfold sortvector. destruct (Z.leb_spec n 0); [lia|].
  rewrite (fill_loop (λ i, IV i i) _ _ n); [| lia | apply length_replicate |].
  2:{ intros; reflexivity. }
  simpl. fold (iv_init n).
  set (after := qsort (cmp_iv v) (iv_init n)).
  assert (Hlen : length after = Z.to_nat n).
  { unfold after. rewrite <- (Permutation_length (proj1 Hq)). apply length_iv_init. }
  rewrite (fill_loop (λ i, iv_i (default (IV 0 0) (after !! Z.to_nat i))) _ _ n);
    [| lia | exact Hp0 |].
  - f_equal. unfold sort_pos. fold after. apply list_eq. intros k.
    rewrite !list_lookup_fmap.
    destruct (decide (k < Z.to_nat n)%nat) as [Hk|Hk].
    + rewrite lookup_zrange by lia. simpl.
      replace (Z.to_nat (0 + Z.of_nat k)) with k by lia.
      destruct (lookup_lt_is_Some_2 after k) as [e He]; [lia|].
      rewrite He. reflexivity.
    + rewrite !lookup_ge_None_2; [reflexivity | lia |].
      rewrite length_zrange. lia.
  - intros i a Hi Ha.
    destruct (rd_in_range after i) as (e & He & Hl); [lia|].
    rewrite He. simpl. rewrite Hl. reflexivity.
Qed.

End SortVector.

(** ** svd_sort *)

Lemma memcpy1d_Ok {T} (dst src : list T) (n : Z) :
  length dst = Z.to_nat n → length src = Z.to_nat n → memcpy1d dst src n = Ok src.
Proof.
  intros Hd Hs. unfold memcpy1d.
  rewrite Hd, Hs, Nat.leb_refl. simpl. f_equal.
  rewrite <- Hs at 1. rewrite firstn_all. rewrite <- Hd, drop_all.
  apply app_nil_r.
Qed.

(** The loop that copies column [p] of [src] into column [i] of [dst]. *)
Lemma copy_column (src dst : matrix) (rows cols p i : Z) :
  shape src rows cols → shape dst rows cols →
  0 ≤ rows → 0 ≤ p < cols → 0 ≤ i < cols →
  ∃ dst', for_up 0 rows (λ j M, a ← rd2 src j p; wr2 M j i a) dst = Ok dst'
    ∧ shape dst' rows cols
    ∧ ∀ r c, 0 ≤ r < rows → 0 ≤ c < cols →
        mget dst' r c = if decide (c = i) then mget src r p else mget dst r c.
Proof.
  intros Hsrc Hdst Hrows Hp Hi.
  destruct (for_up_inv
    (λ j M, shape M rows cols ∧
       ∀ r c, 0 ≤ r < rows → 0 ≤ c < cols →
         mget M r c = if decide (c = i ∧ r < j) then mget src r p else mget dst r c)
    0 rows (λ j M, a ← rd2 src j p; wr2 M j i a) dst) as (M & Hrun & Hsh & Hval).
  - exact Hrows.
  - split; [exact Hdst|]. intros r c Hr Hc. rewrite decide_False by lia. reflexivity.
  - intros j M Hj [Hsh Hval].
    rewrite (bind_Ok_l _ _ _ (rd2_mget src rows cols j p Hsrc ltac:(lia) ltac:(lia))).
    rewrite (wr2_mset M rows cols j i _ Hsh) by lia.
    eexists. split; [reflexivity|]. split; [apply shape_mset; exact Hsh|].
    intros r c Hr Hc. rewrite (mget_mset M rows cols) by (auto; lia).
    rewrite Hval by lia.
    repeat case_decide; try reflexivity; try lia.
    destruct H as [-> ->]. reflexivity.
  - exists M. split; [exact Hrun|]. split; [exact Hsh|].
    intros r c Hr Hc. rewrite Hval by lia.
    repeat case_decide; try reflexivity; lia.
Qed.

Section SortSpec.

Variable qsort :
  (indexedvalue → indexedvalue → Z) → list indexedvalue → list indexedvalue.
Variables (A : matrix) (n m : Z) (w : vec) (V : matrix).
Hypothesis Hn : 1 ≤ n.
Hypothesis Hm : 1 ≤ m.
Hypothesis HA : shape A m n.
Hypothesis Hw : length w = Z.to_nat n.
Hypothesis HV : shape V n n.
Hypothesis Hq : qsort_post (cmp_iv w) (iv_init n) (qsort (cmp_iv w) (iv_init n)).

Let pos : list Z := sort_pos qsort n w.
Let wmax : float := vget w (zget pos 0).

(** One round of the loop over the columns: column [i] of the three buffers
    is written, from column [pos[i]] of the copies. *)
Lemma sort_column_Ok (i : Z) (A1 : matrix) (w1 : vec) (V1 : matrix) :
  0 ≤ i < n → shape A1 m n → length w1 = Z.to_nat n → shape V1 n n →
  ∃ A2 w2 V2,
    sort_column n m pos w A V wmax i (Triad A1 w1 V1) = Ok (Triad A2 w2 V2)
    ∧ shape A2 m n ∧ length w2 = Z.to_nat n ∧ shape V2 n n
    ∧ (∀ c, 0 ≤ c < n →
         vget w2 c = if decide (c = i) then threshold wmax (vget w (zget pos i))
                     else vget w1 c)
    ∧ (∀ r c, 0 ≤ r < m → 0 ≤ c < n →
         mget A2 r c = if decide (c = i) then mget A r (zget pos i)
                       else mget A1 r c)
    ∧ (∀ r c, 0 ≤ r < n → 0 ≤ c < n →
         mget V2 r c = if decide (c = i) then mget V r (zget pos i)
                       else mget V1 r c).
Proof.
  intros Hi HA1 Hw1 HV1.
  destruct (sort_pos_range qsort n w Hn Hq i Hi) as [Hp Hpr]. fold pos in Hp, Hpr.
  set (p := zget pos i) in *.
  destruct (copy_column A A1 m n p i HA HA1 ltac:(lia) Hpr Hi) as (A2 & HA2 & HshA & HvA).
  destruct (copy_column V V1 n n p i HV HV1 ltac:(lia) Hpr Hi) as (V2 & HV2 & HshV & HvV).
  set (x := vget w p).
  set (w1' := <[Z.to_nat i := x]> w1).
  assert (Hlen1 : length w1' = Z.to_nat n) by (unfold w1'; rewrite length_insert; exact Hw1).
  assert (Hget1 : vget w1' i = x).
  { unfold w1'. rewrite vget_insert by lia. rewrite decide_True by reflexivity. reflexivity. }
  exists A2, (if (x / wmax <? SVD_EPS)%float then <[Z.to_nat i := 0%float]> w1' else w1'), V2.
  split; [|split; [exact HshA|split; [|split; [exact HshV|split; [|split]]]]].
  - unfold sort_column.
    rewrite (bind_Ok_l _ _ p) by (apply rd_Ok; split; [lia | exact Hp]).
    rewrite (bind_Ok_l _ _ x) by (apply rd_vget; lia).
    simpl t_w. rewrite (bind_Ok_l _ _ w1') by (apply wr_in_range; lia).
    rewrite (bind_Ok_l _ _ x) by (rewrite <- Hget1; apply rd_vget; lia).
    simpl t_A. simpl t_V.
    destruct (x / wmax <? SVD_EPS)%float.
    + rewrite (bind_Ok_l _ _ (<[Z.to_nat i := 0%float]> w1')) by (apply wr_in_range; lia).
      rewrite HA2. simpl. rewrite HV2. reflexivity.
    + simpl. rewrite HA2. simpl. rewrite HV2. reflexivity.
  - destruct (x / wmax <? SVD_EPS)%float; [rewrite length_insert|]; exact Hlen1.
  - intros c Hc. unfold threshold. fold x.
    destruct (x / wmax <? SVD_EPS)%float.
    + rewrite vget_insert by lia. unfold w1'.
      destruct (decide (c = i)); [reflexivity|].
      rewrite vget_insert by lia. rewrite decide_False by assumption. reflexivity.
    + unfold w1'. rewrite vget_insert by lia. reflexivity.
  - exact HvA.
  - exact HvV.
Qed.

(** What [svd_sort] returns: the three buffers with their columns taken from
    the columns [pos[0]], [pos[1]], ... of the buffers it was given, and the
    singular values thresholded against the largest of them. *)
Lemma svd_sort_spec :
  ∃ A' w' V',
    svd_sort qsort A n m w V = Ok (Triad A' w' V')
    ∧ shape A' m n ∧ length w' = Z.to_nat n ∧ shape V' n n
    ∧ ∀ i, 0 ≤ i < n →
        vget w' i = threshold wmax (vget w (zget pos i))
        ∧ (∀ j, 0 ≤ j < m → mget A' j i = mget A j (zget pos i))
        ∧ (∀ j, 0 ≤ j < n → mget V' j i = mget V j (zget pos i)).
Proof.
  destruct (alloc2d_Ok n m Hn Hm) as (a0 & Ha0 & Hsa0).
  destruct (alloc2d_Ok n n Hn Hn) as (v0 & Hv0 & Hsv0).
  destruct (sort_pos_range qsort n w Hn Hq 0 ltac:(lia)) as [Hp0 Hp0r].
  fold pos in Hp0, Hp0r.
  destruct (for_up_inv
    (λ i t, ∃ A1 w1 V1, t = Triad A1 w1 V1
       ∧ shape A1 m n ∧ length w1 = Z.to_nat n ∧ shape V1 n n
       ∧ ∀ c, 0 ≤ c < i →
           vget w1 c = threshold wmax (vget w (zget pos c))
           ∧ (∀ j, 0 ≤ j < m → mget A1 j c = mget A j (zget pos c))
           ∧ (∀ j, 0 ≤ j < n → mget V1 j c = mget V j (zget pos c)))
    0 n (sort_column n m pos w A V wmax) (Triad A w V))
    as (t & Hrun & A' & w' & V' & -> & HshA & Hlw & HshV & Hval).
  - lia.
  - exists A, w, V. split; [reflexivity|]. split; [exact HA|]. split; [exact Hw|].
    split; [exact HV|]. intros; lia.
  - intros i t Hi (A1 & w1 & V1 & -> & HA1 & Hw1 & HV1 & Hdone).
    destruct (sort_column_Ok i A1 w1 V1 Hi HA1 Hw1 HV1)
      as (A2 & w2 & V2 & Hstep & HA2 & Hw2 & HV2 & Hvw & HvA & HvV).
    exists (Triad A2 w2 V2). split; [exact Hstep|].
    exists A2, w2, V2. split; [reflexivity|]. split; [exact HA2|]. split; [exact Hw2|].
    split; [exact HV2|]. intros c Hc. split; [|split].
    + rewrite Hvw by lia. destruct (decide (c = i)) as [->|Hne]; [reflexivity|].
      apply Hdone. lia.
    + intros j Hj. rewrite HvA by lia. destruct (decide (c = i)) as [->|Hne]; [reflexivity|].
      apply Hdone; lia.
    + intros j Hj. rewrite HvV by lia. destruct (decide (c = i)) as [->|Hne]; [reflexivity|].
      apply Hdone; lia.
  - exists A', w', V'. split; [|split; [exact HshA|split; [exact Hlw|split; [exact HshV|]]]].
    2:{ intros i Hi. apply Hval. lia. }
    unfold svd_sort. rewrite Ha0. simpl. rewrite Hv0. simpl.
    rewrite (memcpy1d_Ok _ w n) by (try apply length_replicate; assumption). simpl.
    rewrite (memcpy2d_Ok a0 A m n Hsa0 HA). simpl.
    rewrite (memcpy2d_Ok v0 V n n Hsv0 HV). simpl.
    rewrite (sortvector_Ok qsort n w Hn Hq) by apply length_replicate. simpl.
    fold pos.
    rewrite (bind_Ok_l _ _ (zget pos 0)) by (apply rd_Ok; split; [lia | exact Hp0]).
    rewrite (bind_Ok_l _ _ wmax) by (apply rd_vget; lia).
    exact Hrun.
Qed.

End SortSpec.

(** ** The order of the doubles *)

Lemma SFcompare_antisym (x y : spec_float) :
  SFcompare y x = option_map CompOpp (SFcompare x y).
Proof.
  destruct x as [sx|sx| |sx mx ex], y as [sy|sy| |sy my ey]; simpl;
    try reflexivity;
    try (destruct sx; reflexivity); try (destruct sy; reflexivity);
    try (destruct sx, sy; reflexivity).
  assert (Hm : Pos.compare_cont Eq my mx = CompOpp (Pos.compare_cont Eq mx my)).
  { rewrite (Pos.compare_cont_antisym mx my Eq). reflexivity. }
  destruct sx, sy; simpl; try reflexivity; f_equal;
    rewrite (Z.compare_antisym ex ey);
    destruct (ex ?= ey)%Z; simpl; try reflexivity;
    change (@PosDef.Pos.compare_cont) with (@Pos.compare_cont);
    rewrite Hm; reflexivity.
Qed.

Lemma is_nan_spec (x : float) : is_nan x = false ↔ Prim2SF x ≠ S754_nan.
Proof.
  unfold is_nan. rewrite FloatAxioms.eqb_spec. unfold SFeqb.
  destruct (Prim2SF x) as [s|s| |s mx ex].
  - split; [discriminate | reflexivity].
  - destruct s; (split; [discriminate | reflexivity]).
  - split; [discriminate | intros H; contradiction H; reflexivity].
  - assert (Hc : SFcompare (S754_finite s mx ex) (S754_finite s mx ex) = Some Eq).
    { simpl. destruct s; rewrite Z.compare_refl, Pos.compare_cont_refl; reflexivity. }
    rewrite Hc. split; [discriminate | reflexivity].
Qed.

Lemma SFcompare_num (x y : spec_float) :
  x ≠ S754_nan → y ≠ S754_nan → ∃ c, SFcompare x y = Some c.
Proof.
  intros Hx Hy. destruct x as [sx|sx| |sx mx ex]; [| |contradiction Hx; reflexivity|];
    (destruct y as [sy|sy| |sy my ey]; [| |contradiction Hy; reflexivity|]);
    simpl; eexists; reflexivity.
Qed.

(** [x < y] excludes [y < x]. *)
Lemma ltb_asym (x y : float) : (x <? y)%float = true → (y <? x)%float = false.
Proof.
  rewrite !ltb_spec. unfold SFltb. rewrite (SFcompare_antisym (Prim2SF x) (Prim2SF y)).
  destruct (SFcompare (Prim2SF x) (Prim2SF y)) as [[]|]; simpl;
    try discriminate; reflexivity.
Qed.

(** Two numbers are comparable: when [x < y] fails, [y <= x] holds. *)
Lemma not_ltb_leb (x y : float) :
  is_nan x = false → is_nan y = false →
  (x <? y)%float = false → (y <=? x)%float = true.
Proof.
  rewrite !is_nan_spec, ltb_spec, leb_spec. intros Hx Hy.
  unfold SFltb, SFleb. rewrite (SFcompare_antisym (Prim2SF x) (Prim2SF y)).
  destruct (SFcompare_num _ _ Hx Hy) as [c ->].
  destruct c; simpl; try discriminate; reflexivity.
Qed.

Lemma leb_not_nan (x y : float) :
  (x <=? y)%float = true → is_nan x = false ∧ is_nan y = false.
Proof.
  rewrite !is_nan_spec, leb_spec. unfold SFleb. intros H.
  split; intros E; rewrite E in H.
  - simpl in H. discriminate.
  - destruct (Prim2SF x); simpl in H; discriminate.
Qed.

Lemma leb_not_ltb (x y : float) : (x <=? y)%float = true → (y <? x)%float = false.
Proof.
  rewrite ltb_spec, leb_spec. unfold SFltb, SFleb.
  rewrite (SFcompare_antisym (Prim2SF x) (Prim2SF y)).
  destruct (SFcompare (Prim2SF x) (Prim2SF y)) as [[]|]; simpl;
    try discriminate; reflexivity.
Qed.


(** ** Sorted arrays *)

Lemma StronglySorted_lookup {T} (R : T → T → Prop) (l : list T) :
  StronglySorted R l →
  ∀ (i j : nat) (x y : T), (i < j)%nat → l !! i = Some x → l !! j = Some y → R x y.
Proof.
  induction 1 as [|a l Hl IH Ha]; intros i j x y Hij Hi Hj.
  - discriminate.
  - destruct j as [|j]; [lia|]. simpl in Hj. destruct i as [|i].
    + simpl in Hi. inversion Hi; subst. rewrite Forall_forall in Ha.
      apply Ha. eapply list_elem_of_lookup_2. exact Hj.
    + simpl in Hi. apply (IH i j); [lia | assumption..].
Qed.

Lemma cmp_iv_le (v : vec) (e1 e2 : indexedvalue) :
  cmp_iv v e1 e2 ≤ 0 →
  (deref v (iv_v e1) <? deref v (iv_v e2))%float = false.
Proof.
  unfold cmp_iv.
  destruct (deref v (iv_v e2) <? deref v (iv_v e1))%float eqn:H21.
  - intros _. apply ltb_asym. exact H21.
  - destruct (deref v (iv_v e1) <? deref v (iv_v e2))%float; [lia | reflexivity].
Qed.

Lemma iv_init_elem (n : Z) (e : indexedvalue) :
  e ∈ iv_init n → iv_v e = iv_i e ∧ 0 ≤ iv_i e < n.
Proof.
  unfold iv_init. rewrite list_elem_of_fmap. intros (k & -> & Hk).
  apply elem_of_zrange in Hk. simpl. split; [reflexivity | lia].
Qed.



Section SortOrder.

Variable qsort :
  (indexedvalue → indexedvalue → Z) → list indexedvalue → list indexedvalue.
Variables (n : Z) (w : vec).
Hypothesis Hn : 1 ≤ n.
Hypothesis Hw : length w = Z.to_nat n.
Hypothesis Hq : qsort_post (cmp_iv w) (iv_init n) (qsort (cmp_iv w) (iv_init n)).

Let pos : list Z := sort_pos qsort n w.

(** No value of the sorted order is smaller than a later one. *)
Lemma sorted_not_ltb (a b : Z) :
  0 ≤ a → a < b → b < n →
  (vget w (zget pos a) <? vget w (zget pos b))%float = false.
Proof.
  intros Ha Hab Hb. destruct Hq as [Hperm Hsorted].
  set (after := qsort (cmp_iv w) (iv_init n)) in *.
  assert (Hlen : length after = Z.to_nat n).
  { rewrite <- (Permutation_length Hperm). apply length_iv_init. }
  destruct (lookup_lt_is_Some_2 after (Z.to_nat a)) as [ea Hea]; [lia|].
  destruct (lookup_lt_is_Some_2 after (Z.to_nat b)) as [eb Heb]; [lia|].
  assert (Hpa : zget pos a = iv_i ea).
  { apply zget_lookup. unfold pos, sort_pos. fold after.
    rewrite list_lookup_fmap, Hea. reflexivity. }
  assert (Hpb : zget pos b = iv_i eb).
  { apply zget_lookup. unfold pos, sort_pos. fold after.
    rewrite list_lookup_fmap, Heb. reflexivity. }
  assert (Hia : iv_v ea = iv_i ea).
  { apply (iv_init_elem n). rewrite Hperm. eapply list_elem_of_lookup_2. exact Hea. }
  assert (Hib : iv_v eb = iv_i eb).
  { apply (iv_init_elem n). rewrite Hperm. eapply list_elem_of_lookup_2. exact Heb. }
  rewrite Hpa, Hpb, <- Hia, <- Hib. apply cmp_iv_le.
  apply (StronglySorted_lookup _ _ Hsorted (Z.to_nat a) (Z.to_nat b));
    [lia | assumption..].
Qed.

(** The largest value comes first: no value exceeds [w[pos[0]]]. *)
Lemma sorted_max (b : Z) :
  0 ≤ b < n → (vget w (zget pos 0) <? vget w (zget pos b))%float = false.
Proof.
  intros Hb. destruct (decide (b = 0)) as [->|Hne].
  - destruct (vget w (zget pos 0) <? vget w (zget pos 0))%float eqn:E; [|reflexivity].
    rewrite (ltb_asym _ _ E) in E. discriminate.
  - apply sorted_not_ltb; lia.
Qed.


End SortOrder.

(** ** The claims on svd_sort *)


(** C3. With the same buffers, [svd_sort] returns a [w] of length [n] in
    which every entry whose ratio to the largest singular value, the one that
    comes first, is below [SVD_EPS] is exactly [0.0]; the other entries keep
    their value. *)
Theorem svd_sort_zeroes_negligible
    (qsort : (indexedvalue → indexedvalue → Z) → list indexedvalue → list indexedvalue)
    (A : matrix) (n m : Z) (w : vec) (V : matrix) :
  1 ≤ n → 1 ≤ m → shape A m n → length w = Z.to_nat n → shape V n n →
  qsort_post (cmp_iv w) (iv_init n) (qsort (cmp_iv w) (iv_init n)) →
  let p := sort_pos qsort n w in
  let wmax := vget w (zget p 0) in
  (∀ i, 0 ≤ i < n → (wmax <? vget w (zget p i))%float = false)
  ∧ ∃ t, svd_sort qsort A n m w V = Ok t
    ∧ length (t_w t) = Z.to_nat n
    ∧ ∀ i, 0 ≤ i < n →
        if (vget w (zget p i) / wmax <? SVD_EPS)%float
        then rd (t_w t) i = Ok 0%float
        else rd (t_w t) i = Ok (vget w (zget p i)).
Proof.
  intros Hn Hm HA Hw HV Hq p wmax.
  split; [intros i Hi; apply sorted_max; assumption|].
  destruct (svd_sort_spec qsort A n m w V Hn Hm HA Hw HV Hq)
    as (A' & w' & V' & Hrun & HsA & Hlw & HsV & Hval).
  exists (Triad A' w' V'). split; [exact Hrun|]. split; [exact Hlw|].
  intros i Hi. destruct (Hval i Hi) as (Hwi & _). simpl t_w.
  rewrite (rd_vget w' i) by lia. rewrite Hwi. subst wmax p. unfold threshold.
  destruct (_ <? SVD_EPS)%float; reflexivity.
Qed.


Lemma ex_qsort_post :
  qsort_post (cmp_iv ex_w) (iv_init 3) (qsort_stable (cmp_iv ex_w) (iv_init 3)).
Proof. unfold qsort_post. apply (bool_decide_unpack _). vm_compute. exact I. Qed.





Lemma svd_sort_zeroes_negligible_witness :
  ∃ t, svd_sort qsort_stable ex_A 3 2 ex_w ex_V = Ok t ∧ rd (t_w t) 2 = Ok 0%float.
Proof.
  destruct (svd_sort_zeroes_negligible qsort_stable ex_A 3 2 ex_w ex_V)
    as (_ & t & Hrun & _ & Hval).
  - lia.
  - lia.
  - apply shapeb_shape. reflexivity.
  - reflexivity.
  - apply shapeb_shape. reflexivity.
  - exact ex_qsort_post.
  - exists t. split; [exact Hrun|]. apply (Hval 2). lia.
Defined.



(** ** The claims on svd_invs *)

(** C2. For n >= 1, m >= 1, U (m x n), w (n), V (n x n) and an output buffer
    AT (n x m), [svd_invs] returns and leaves in every [AT[i][j]] the sum over
    the modes [k] below [min(n, m)] of [(V[i][k] / w[k]) * U[j][k]], added up
    from [0.] in the order of [k]. *)
Theorem svd_invs_pseudo_inverse
    (AT U : matrix) (n m : Z) (w : vec) (V : matrix) :
  1 ≤ n → 1 ≤ m →
  shape AT n m → shape U m n → length w = Z.to_nat n → shape V n n →
  ∃ st, svd_invs AT U n m w V = Ok st
    ∧ ∀ i j, 0 ≤ i < n → 0 ≤ j < m →
        rd2 (i_AT st) i j = Ok (pinv_entry U w V (Z.min n m) i j).
Proof.
  intros Hn Hm HAT HU Hw HV.
  destruct (svd_invs_spec AT U n m w V Hn Hm HAT HU Hw HV)
    as (AT' & vt & Hrun & Hsh & _ & Hval).
  exists (InvsState AT' U w V vt). split; [exact Hrun|].
  intros i j Hi Hj. simpl. rewrite (rd2_mget AT' n m i j Hsh Hi Hj).
  rewrite Hval by assumption. reflexivity.
Qed.

Lemma svd_invs_pseudo_inverse_witness :
  ∃ st, svd_invs ex_AT ex_A 3 2 ex_w ex_V = Ok st
    ∧ rd2 (i_AT st) 1 0 = Ok (pinv_entry ex_A ex_w ex_V (Z.min 3 2) 1 0).
Proof.
  destruct (svd_invs_pseudo_inverse ex_AT ex_A 3 2 ex_w ex_V) as (st & Hrun & Hval).
  - lia.
  - lia.
  - apply shapeb_shape. reflexivity.
  - apply shapeb_shape. reflexivity.
  - reflexivity.
  - apply shapeb_shape. reflexivity.
  - exists st. split; [exact Hrun|]. apply Hval; lia.
Defined.

(** C6. With the same buffers, [svd_invs] returns with [A], [w] and [V] as
    they were: it writes [AT] and its scratch copy of [V], whose columns below
    [min(n, m)] it divides by their singular value. *)
Theorem svd_invs_frame
    (AT U : matrix) (n m : Z) (w : vec) (V : matrix) :
  1 ≤ n → 1 ≤ m →
  shape AT n m → shape U m n → length w = Z.to_nat n → shape V n n →
  ∃ st, svd_invs AT U n m w V = Ok st
    ∧ i_A st = U ∧ i_w st = w ∧ i_V st = V
    ∧ ∀ r c, 0 ≤ r < n → 0 ≤ c < n →
        mget (i_vtemp st) r c =
        if decide (c < Z.min n m) then (mget V r c / vget w c)%float
        else mget V r c.
Proof.
  intros Hn Hm HAT HU Hw HV.
  destruct (svd_invs_spec AT U n m w V Hn Hm HAT HU Hw HV)
    as (AT' & vt & Hrun & _ & Hvt & _).
  exists (InvsState AT' U w V vt). split; [exact Hrun|].
  repeat split. exact Hvt.
Qed.

Lemma svd_invs_frame_witness :
  ∃ st, svd_invs ex_AT ex_A 3 2 ex_w ex_V = Ok st
    ∧ i_A st = ex_A ∧ i_w st = ex_w ∧ i_V st = ex_V.
Proof.
  destruct (svd_invs_frame ex_AT ex_A 3 2 ex_w ex_V)
    as (st & Hrun & HA & Hw & HV & _).
  - lia.
  - lia.
  - apply shapeb_shape. reflexivity.
  - apply shapeb_shape. reflexivity.
  - reflexivity.
  - apply shapeb_shape. reflexivity.
  - exists st. repeat split; assumption.
Defined.

(** ** A second svd_sort *)

Lemma vec_ext (v v' : vec) (n : Z) :
  length v = Z.to_nat n → length v' = Z.to_nat n →
  (∀ i, 0 ≤ i < n → vget v i = vget v' i) → v = v'.
Proof.
  intros Hl Hl' Hval. apply list_eq. intros k.
  destruct (decide (k < Z.to_nat n)%nat) as [Hk|Hk].
  - destruct (lookup_lt_is_Some_2 v k) as [x Hx]; [lia|].
    destruct (lookup_lt_is_Some_2 v' k) as [x' Hx']; [lia|].
    specialize (Hval (Z.of_nat k) ltac:(lia)). unfold vget in Hval.
    rewrite Nat2Z.id, Hx, Hx' in Hval. simpl in Hval. rewrite Hx, Hx', Hval.
    reflexivity.
  - rewrite !lookup_ge_None_2 by lia. reflexivity.
Qed.

Lemma matrix_ext (M M' : matrix) (rows cols : Z) :
  shape M rows cols → shape M' rows cols →
  (∀ r c, 0 ≤ r < rows → 0 ≤ c < cols → mget M r c = mget M' r c) → M = M'.
Proof.
  intros HM HM' Hval. apply list_eq. intros k.
  destruct (decide (k < Z.to_nat rows)%nat) as [Hk|Hk].
  - destruct (shape_row M rows cols (Z.of_nat k) HM ltac:(lia)) as (row & Hrow & Hlen).
    destruct (shape_row M' rows cols (Z.of_nat k) HM' ltac:(lia)) as (row' & Hrow' & Hlen').
    rewrite Nat2Z.id in Hrow, Hrow'. rewrite Hrow, Hrow'. f_equal.
    apply (vec_ext row row' cols Hlen Hlen'). intros c Hc.
    specialize (Hval (Z.of_nat k) c ltac:(lia) Hc). unfold mget in Hval.
    rewrite Nat2Z.id, Hrow, Hrow' in Hval. exact Hval.
  - destruct HM as [Hl _], HM' as [Hl' _].
    rewrite !lookup_ge_None_2 by lia. reflexivity.
Qed.



Lemma cmp_iv_not_ltb (v : vec) (e1 e2 : indexedvalue) :
  (deref v (iv_v e1) <? deref v (iv_v e2))%float = false → cmp_iv v e1 e2 ≤ 0.
Proof.
  intros H. unfold cmp_iv. rewrite H.
  destruct (deref v (iv_v e2) <? deref v (iv_v e1))%float; lia.
Qed.







(** ** The two sorting functions *)

Section InsertionSorts.

Context {T : Type} (cmp : T → T → Z).
Hypothesis Hcmp : cmp_consistent cmp.

Let R (x y : T) : Prop := cmp x y ≤ 0.

Lemma cmp_total (x y : T) : cmp x y ≤ 0 ∨ cmp y x ≤ 0.
Proof. destruct Hcmp as [Hs _]. specialize (Hs x y). lia. Qed.

Lemma cmp_ge_le (x y : T) : 0 ≤ cmp x y → cmp y x ≤ 0.
Proof. destruct Hcmp as [Hs _]. specialize (Hs x y). lia. Qed.

Lemma insert_before_perm (x : T) (l : list T) : insert_before cmp x l ≡ₚ x :: l.
Proof.
  induction l as [|y l IH]; simpl; [reflexivity|].
  destruct (cmp x y <=? 0); [reflexivity|].
  rewrite IH. apply perm_swap.
Qed.

Lemma insert_after_perm (x : T) (l : list T) : insert_after cmp x l ≡ₚ x :: l.
Proof.
  induction l as [|y l IH]; simpl; [reflexivity|].
  destruct (cmp x y <? 0); [reflexivity|].
  rewrite IH. apply perm_swap.
Qed.

Lemma insert_before_sorted (x : T) (l : list T) :
  StronglySorted R l → StronglySorted R (insert_before cmp x l).
Proof.
  induction 1 as [|y l Hl IH Hy]; simpl.
  - repeat constructor.
  - destruct (Z.leb_spec (cmp x y) 0) as [Hxy|Hxy].
    + constructor; [constructor; assumption|].
      constructor; [exact Hxy|].
      apply (Forall_impl _ _ _ Hy). intros z Hz.
      destruct Hcmp as [_ Htr]. exact (Htr x y z Hxy Hz).
    + constructor; [exact IH|].
      rewrite insert_before_perm. constructor; [|exact Hy].
      destruct (cmp_total x y) as [H|H]; [unfold R in *; lia | exact H].
Qed.

Lemma insert_after_sorted (x : T) (l : list T) :
  StronglySorted R l → StronglySorted R (insert_after cmp x l).
Proof.
  induction 1 as [|y l Hl IH Hy]; simpl.
  - repeat constructor.
  - destruct (Z.ltb_spec (cmp x y) 0) as [Hxy|Hxy].
    + constructor; [constructor; assumption|].
      assert (Hxy' : cmp x y ≤ 0) by lia.
      constructor; [exact Hxy'|].
      apply (Forall_impl _ _ _ Hy). intros z Hz.
      destruct Hcmp as [_ Htr]. exact (Htr x y z Hxy' Hz).
    + constructor; [exact IH|].
      rewrite insert_after_perm. constructor; [|exact Hy].
      apply cmp_ge_le. exact Hxy.
Qed.

Lemma fold_insert_before (l acc : list T) :
  StronglySorted R acc →
  StronglySorted R (fold_left (λ a x, insert_before cmp x a) l acc)
  ∧ fold_left (λ a x, insert_before cmp x a) l acc ≡ₚ l ++ acc.
Proof.
  revert acc. induction l as [|x l IH]; intros acc Hacc; simpl.
  - split; [exact Hacc | reflexivity].
  - destruct (IH (insert_before cmp x acc) (insert_before_sorted x acc Hacc))
      as [Hs Hp].
    split; [exact Hs|]. rewrite Hp, insert_before_perm.
    symmetry. apply Permutation_middle.
Qed.

Lemma fold_insert_after (l acc : list T) :
  StronglySorted R acc →
  StronglySorted R (fold_left (λ a x, insert_after cmp x a) l acc)
  ∧ fold_left (λ a x, insert_after cmp x a) l acc ≡ₚ l ++ acc.
Proof.
  revert acc. induction l as [|x l IH]; intros acc Hacc; simpl.
  - split; [exact Hacc | reflexivity].
  - destruct (IH (insert_after cmp x acc) (insert_after_sorted x acc Hacc))
      as [Hs Hp].
    split; [exact Hs|]. rewrite Hp, insert_after_perm.
    symmetry. apply Permutation_middle.
Qed.

End InsertionSorts.

(** Both sorting functions meet the contract of [qsort] for a consistent
    comparison function. *)
Lemma qsort_unstable_post (cmp : indexedvalue → indexedvalue → Z)
    (l : list indexedvalue) :
  cmp_consistent cmp → qsort_post cmp l (qsort_unstable cmp l).
Proof.
  intros Hcmp. unfold qsort_unstable.
  destruct (fold_insert_before cmp Hcmp l [] (SSorted_nil _)) as [Hs Hp].
  split; [|exact Hs]. rewrite Hp, app_nil_r. reflexivity.
Qed.

Lemma qsort_stable_meets_post (cmp : indexedvalue → indexedvalue → Z)
    (l : list indexedvalue) :
  cmp_consistent cmp → qsort_post cmp l (qsort_stable cmp l).
Proof.
  intros Hcmp. unfold qsort_stable.
  destruct (fold_insert_after cmp Hcmp l [] (SSorted_nil _)) as [Hs Hp].
  split; [|exact Hs]. rewrite Hp, app_nil_r. reflexivity.
Qed.




(** ** svd: the converged value *)

(** The loop of [make_nonneg] negates column [k] of [V] and writes nothing
    else. *)
Lemma negate_column (n k : Z) (st : svd_state) :
  0 ≤ n → 0 ≤ k < n → shape (s_V st) n n →
  ∃ V', for_up 0 n (λ j st, v ← V_rd st j k; V_wr st j k (- v)%float) st
        = Ok (SvdState (s_A st) (s_w st) V' (s_rv1 st))
      ∧ shape V' n n
      ∧ ∀ r c, 0 ≤ r < n → 0 ≤ c < n →
          mget V' r c = if decide (c = k) then (- mget (s_V st) r c)%float
                        else mget (s_V st) r c.
Proof.
  intros Hn Hk HV.
  destruct (for_up_inv
    (λ j t, ∃ V', t = SvdState (s_A st) (s_w st) V' (s_rv1 st) ∧ shape V' n n ∧
       ∀ r c, 0 ≤ r < n → 0 ≤ c < n →
         mget V' r c = if decide (c = k ∧ r < j) then (- mget (s_V st) r c)%float
                       else mget (s_V st) r c)
    0 n (λ j st, v ← V_rd st j k; V_wr st j k (- v)%float) st)
    as (t & Hrun & V' & -> & Hsh & Hval).
  - exact Hn.
  - exists (s_V st). split; [destruct st; reflexivity|]. split; [exact HV|].
    intros r c Hr Hc. rewrite decide_False by lia. reflexivity.
  - intros j t Hj (V' & -> & Hsh & Hval). unfold V_rd, V_wr. simpl.
    rewrite (bind_Ok_l _ _ _ (rd2_mget V' n n j k Hsh ltac:(lia) ltac:(lia))).
    rewrite (bind_Ok_l _ _ _ (wr2_mset V' n n j k _ Hsh ltac:(lia) ltac:(lia))).
    eexists. split; [reflexivity|]. eexists. split; [reflexivity|].
    split; [apply shape_mset; exact Hsh|].
    intros r c Hr Hc. rewrite (mget_mset V' n n) by (auto; lia).
    rewrite !Hval by lia.
    repeat case_decide; try reflexivity; try lia.
    destruct H as [-> ->]. reflexivity.
  - exists V'. split; [exact Hrun|]. split; [exact Hsh|].
    intros r c Hr Hc. rewrite Hval by lia.
    repeat case_decide; try reflexivity; lia.
Qed.

(** C7. When the test for splitting of a pass ends with [l == k], the pass
    ends the loop for [k] ([break], so that the next target index follows),
    and it makes the value [z = w[k]] that it finds non-negative: if [z < 0],
    [w[k]] becomes [-z] and every entry of column [k] of [V] is negated, [A]
    and [rv1] staying as they are; otherwise ([z >= 0] among them) nothing is
    changed. *)
Theorem sweep_makes_nonneg
    (hypot : float → float → float) (n m k l1 : Z) (docancellation : bool)
    (tst1 z : float) (st st1 : svd_state) :
  0 ≤ k < n → shape (s_V st1) n n →
  split_search k tst1 st = Ok (k, l1, docancellation) →
  (if docancellation then cancellation hypot m k k l1 tst1 st else Ok st) = Ok st1 →
  w_rd st1 k = Ok z →
  ∃ st2, sweep hypot n m k tst1 st = Ok (Break st2)
    ∧ if (z <? 0)%float
      then s_A st2 = s_A st1 ∧ s_rv1 st2 = s_rv1 st1
           ∧ s_w st2 = <[Z.to_nat k := (- z)%float]> (s_w st1)
           ∧ shape (s_V st2) n n
           ∧ ∀ r c, 0 ≤ r < n → 0 ≤ c < n →
               mget (s_V st2) r c =
               if decide (c = k) then (- mget (s_V st1) r c)%float
               else mget (s_V st1) r c
      else st2 = st1.
Proof.
  intros Hk HV Hsplit Hcancel Hz.
  unfold sweep. rewrite Hsplit. simpl. rewrite Hcancel. simpl. rewrite Hz. simpl.
  rewrite Z.eqb_refl. simpl. unfold make_nonneg.
  destruct (z <? 0)%float.
  - pose proof (rd_range _ _ _ Hz) as Hkw.
    unfold w_wr. rewrite (wr_in_range (s_w st1) k) by exact Hkw. simpl.
    destruct (negate_column n k
                (SvdState (s_A st1) (<[Z.to_nat k := (- z)%float]> (s_w st1))
                          (s_V st1) (s_rv1 st1)))
      as (V' & Hrun & Hsh & Hval); [lia | exact Hk | exact HV |].
    simpl in Hrun, Hval. rewrite Hrun. simpl.
    eexists. split; [reflexivity|]. simpl.
    split; [reflexivity|]. split; [reflexivity|]. split; [reflexivity|].
    split; [exact Hsh | exact Hval].
  - simpl. exists st1. split; reflexivity.
Qed.

Lemma sweep_makes_nonneg_witness :
  ∃ st2, sweep hypot_plain 2 2 1 3%float
           (SvdState tie_V [3; -2]%float tie_V [0; 0]%float) = Ok (Break st2)
    ∧ s_w st2 = [3; 2]%float.
Proof.
  destruct (sweep_makes_nonneg hypot_plain 2 2 1 (-1) false 3%float (-2)%float
              (SvdState tie_V [3; -2]%float tie_V [0; 0]%float)
              (SvdState tie_V [3; -2]%float tie_V [0; 0]%float))
    as (st2 & Hrun & Hval).
  - lia.
  - apply shapeb_shape. reflexivity.
  - reflexivity.
  - reflexivity.
  - reflexivity.
  - exists st2. split; [exact Hrun|].
    change ((-2 <? 0)%float) with true in Hval. simpl in Hval.
    destruct Hval as (_ & _ & Hw & _). exact Hw.
Defined.

(** ** svd: what the diagonalization writes to w *)



Lemma A_wr_w (st st' : svd_state) (r c : Z) (x : float) :
  A_wr st r c x = Ok st' → s_w st' = s_w st ∧ s_V st' = s_V st ∧ s_rv1 st' = s_rv1 st.
Proof. unfold A_wr. intros H. inv_res. auto. Qed.

Lemma V_wr_w (st st' : svd_state) (r c : Z) (x : float) :
  V_wr st r c x = Ok st' → s_w st' = s_w st ∧ s_A st' = s_A st ∧ s_rv1 st' = s_rv1 st.
Proof. unfold V_wr. intros H. inv_res. auto. Qed.






Section DiagW.

Variable hypot : float → float → float.
Variables (n m k : Z) (tst1 : float).







End DiagW.

(** ** svd: the first entry of rv1 *)

(** What no round of a loop changes is the same after the loop. *)
Lemma for_up_same {S X} (f : S → X) (lo hi : Z) (body : Z → S → res S) (s s' : S) :
  for_up lo hi body s = Ok s' →
  (∀ j t t', lo ≤ j < hi → body j t = Ok t' → f t' = f t) →
  f s' = f s.
Proof.
  intros H Hstep.
  apply (for_up_Ok_inv (λ t, f t = f s) _ _ _ _ _ H); [reflexivity|].
  intros j t t' Hj Hb Ht. rewrite (Hstep j t t' Hj Hb). exact Ht.
Qed.

Lemma ford_n_same {S X} (f : S → X) (body : Z → S → res S) (cnt : nat) (i : Z) (s s' : S) :
  ford_n cnt i body s = Ok s' →
  (∀ j t t', body j t = Ok t' → f t' = f t) →
  f s' = f s.
Proof.
  intros H Hstep.
  apply (ford_n_Ok_inv (λ t, f t = f s) _ _ _ _ _ H); [reflexivity|].
  intros j t t' Hj Hb Ht. rewrite (Hstep j t t' Hb). exact Ht.
Qed.

Lemma w_wr_rv1 (st st' : svd_state) (i : Z) (x : float) :
  w_wr st i x = Ok st' → s_rv1 st' = s_rv1 st.
Proof. unfold w_wr. intros H. inv_res. reflexivity. Qed.

Lemma rv1_wr_other (st st' : svd_state) (i : Z) (x : float) :
  rv1_wr st i x = Ok st' → i ≠ 0 → s_rv1 st' !! O = s_rv1 st !! O.
Proof.
  unfold rv1_wr. intros H Hi. inv_res. apply wr_Ok in H0 as [Hr ->]. simpl.
  apply list_lookup_insert_ne. lia.
Qed.

Lemma rv1_wr_first (st st' : svd_state) (x : float) :
  rv1_wr st 0 x = Ok st' → s_rv1 st' !! O = Some x.
Proof.
  unfold rv1_wr. intros H. inv_res. apply wr_Ok in H0 as [Hr ->]. simpl.
  apply list_lookup_insert_eq. lia.
Qed.

(** Takes the steps of a computation that writes to [A], [V] and [w] only
    apart, and concludes that [rv1] is the same. *)
Ltac same_rv1 :=
  repeat match goal with
  | H : (let '(_, _) := ?p in _) = Ok _ |- _ => destruct p
  | H : (_ ≫= _) = Ok _ |- _ => apply bind_Ok in H as (? & ? & H)
  | H : Ok _ = Ok _ |- _ => inversion H; subst; clear H
  | H : A_wr _ _ _ _ = Ok _ |- _ => apply A_wr_w in H as (_ & _ & H)
  | H : V_wr _ _ _ _ = Ok _ |- _ => apply V_wr_w in H as (_ & _ & H)
  | H : w_wr _ _ _ = Ok _ |- _ => apply w_wr_rv1 in H
  end;
  simpl in *; congruence.

Lemma rotate_A_rv1 (m p q : Z) (c s : float) (st st' : svd_state) :
  rotate_A m p q c s st = Ok st' → s_rv1 st' = s_rv1 st.
Proof.
  unfold rotate_A. intros H. apply (for_up_same s_rv1 _ _ _ _ _ H).
  intros j t t' _ Hb. same_rv1.
Qed.

Lemma rotate_V_rv1 (n p q : Z) (c s : float) (st st' : svd_state) :
  rotate_V n p q c s st = Ok st' → s_rv1 st' = s_rv1 st.
Proof.
  unfold rotate_V. intros H. apply (for_up_same s_rv1 _ _ _ _ _ H).
  intros j t t' _ Hb. same_rv1.
Qed.

Lemma householder_col_rv1 (n m i : Z) (st st' : svd_state) (g scale : float) :
  householder_col n m i st = Ok (st', g, scale) → s_rv1 st' = s_rv1 st.
Proof.
  unfold householder_col. intros H.
  destruct (i <? m); [|inversion H; reflexivity].
  apply bind_Ok in H as (sc & _ & H).
  destruct (negb _); [|inversion H; reflexivity].
  apply bind_Ok in H as ([sta s] & Ha & H).
  apply bind_Ok in H as (f & _ & H).
  apply bind_Ok in H as (stb & Hb & H).
  apply bind_Ok in H as (stc & Hc & H).
  apply bind_Ok in H as (std & Hd & H). inversion H; subst; clear H.
  assert (Ea : s_rv1 sta = s_rv1 st).
  { apply (for_up_same (λ t, s_rv1 t.1) _ _ _ _ _ Ha).
    intros j [t s1] [t' s2] _ Hstep. same_rv1. }
  assert (Eb : s_rv1 stb = s_rv1 sta) by same_rv1.
  assert (Ec : s_rv1 stc = s_rv1 stb).
  { destruct (i <? n - 1); [|inversion Hc; reflexivity].
    apply (for_up_same s_rv1 _ _ _ _ _ Hc).
    intros j t t' _ Hstep. apply bind_Ok in Hstep as (s1 & _ & Hstep).
    apply (for_up_same s_rv1 _ _ _ _ _ Hstep). intros k u u' _ Hk. same_rv1. }
  assert (Ed : s_rv1 st' = s_rv1 stc).
  { apply (for_up_same s_rv1 _ _ _ _ _ Hd). intros k u u' _ Hk. same_rv1. }
  congruence.
Qed.

Lemma householder_row_rv1 (n m i : Z) (st st' : svd_state) (g scale : float) :
  0 ≤ i → householder_row n m i st = Ok (st', g, scale) →
  s_rv1 st' !! O = s_rv1 st !! O.
Proof.
  unfold householder_row. intros Hi H.
  destruct ((i <? m) && (i <? n - 1)); [|inversion H; reflexivity].
  apply bind_Ok in H as (sc & _ & H).
  destruct (negb _); [|inversion H; reflexivity].
  apply bind_Ok in H as ([sta s] & Ha & H).
  apply bind_Ok in H as (f & _ & H).
  apply bind_Ok in H as (stb & Hb & H).
  apply bind_Ok in H as (stc & Hc & H).
  apply bind_Ok in H as (std & Hd & H).
  apply bind_Ok in H as (ste & He & H). inversion H; subst; clear H.
  assert (Ea : s_rv1 sta = s_rv1 st).
  { apply (for_up_same (λ t, s_rv1 t.1) _ _ _ _ _ Ha).
    intros j [t s1] [t' s2] _ Hstep. same_rv1. }
  assert (Eb : s_rv1 stb = s_rv1 sta) by same_rv1.
  assert (Ec : s_rv1 stc !! O = s_rv1 stb !! O).
  { apply (for_up_same (λ t, s_rv1 t !! O) _ _ _ _ _ Hc).
    intros k u u' Hk Hstep. apply bind_Ok in Hstep as (a & _ & Hstep).
    apply (rv1_wr_other _ _ _ _ Hstep). lia. }
  assert (Ed : s_rv1 std = s_rv1 stc).
  { apply (for_up_same s_rv1 _ _ _ _ _ Hd).
    intros j t t' _ Hstep. apply bind_Ok in Hstep as (s1 & _ & Hstep).
    apply (for_up_same s_rv1 _ _ _ _ _ Hstep). intros k u u' _ Hk. same_rv1. }
  assert (Ee : s_rv1 st' = s_rv1 std).
  { apply (for_up_same s_rv1 _ _ _ _ _ He). intros k u u' _ Hk. same_rv1. }
  congruence.
Qed.

(** After the reduction [rv1[0]] is [0.0]. *)
Lemma householder_rv1 (n m : Z) (st st' : svd_state) (g tst1 : float) :
  0 < n → householder n m st = Ok (st', g, tst1) → s_rv1 st' !! O = Some 0%float.
Proof.
  unfold householder. intros Hn H.
  apply bind_Ok in H as ([[[sta ga] sca] ta] & Hloop & H). inversion H; subst; clear H.
  rewrite for_up_first in Hloop by lia.
  apply bind_Ok in Hloop as ([[[stb gb] scb] tb] & Hfirst & Hloop).
  assert (Hb : s_rv1 stb !! O = Some 0%float).
  { unfold householder_step in Hfirst.
    apply bind_Ok in Hfirst as (s1 & H1 & Hfirst).
    apply bind_Ok in Hfirst as ([[s2 g2] sc2] & H2 & Hfirst).
    apply bind_Ok in Hfirst as (s3 & H3 & Hfirst).
    apply bind_Ok in Hfirst as ([[s4 g4] sc4] & H4 & Hfirst).
    apply bind_Ok in Hfirst as (wi & _ & Hfirst).
    apply bind_Ok in Hfirst as (ri & _ & Hfirst). inversion Hfirst; subst; clear Hfirst.
    apply rv1_wr_first in H1. apply householder_col_rv1 in H2.
    apply w_wr_rv1 in H3. apply householder_row_rv1 in H4; [|lia].
    rewrite H4, H3, H2. exact H1. }
  rewrite <- Hb.
  apply (for_up_same (λ acc, s_rv1 acc.1.1.1 !! O) _ _ _ _ _ Hloop).
  intros i [[[s0 g0] sc0] t0] [[[s5 g5] sc5] t5] Hi Hstep. simpl.
  unfold householder_step in Hstep.
  apply bind_Ok in Hstep as (s1 & H1 & Hstep).
  apply bind_Ok in Hstep as ([[s2 g2] sc2] & H2 & Hstep).
  apply bind_Ok in Hstep as (s3 & H3 & Hstep).
  apply bind_Ok in Hstep as ([[s4 g4] sc4] & H4 & Hstep).
  apply bind_Ok in Hstep as (wi & _ & Hstep).
  apply bind_Ok in Hstep as (ri & _ & Hstep). inversion Hstep; subst; clear Hstep.
  apply rv1_wr_other in H1; [|lia]. apply householder_col_rv1 in H2.
  apply w_wr_rv1 in H3. apply householder_row_rv1 in H4; [|lia].
  rewrite H4, H3, H2. exact H1.
Qed.

Lemma accumulate_right_rv1 (n : Z) (st st' : svd_state) (g : float) (l : Z) :
  accumulate_right n st g l = Ok st' → s_rv1 st' = s_rv1 st.
Proof.
  unfold accumulate_right, for_down. intros H.
  apply bind_Ok in H as ([[sta ga] la] & Hloop & H). inversion H; subst; clear H.
  apply (ford_n_same (λ acc, s_rv1 acc.1.1) _ _ _ _ _ Hloop).
  intros i [[t g0] l0] [[t' g1] l2] Hstep. simpl.
  unfold accumulate_right_step in Hstep.
  apply bind_Ok in Hstep as (s1 & H1 & Hstep).
  apply bind_Ok in Hstep as (s2 & H2 & Hstep).
  apply bind_Ok in Hstep as (g2 & _ & Hstep).
  assert (Et : t' = s2) by (inversion Hstep; reflexivity). clear Hstep. subst t'.
  assert (E1 : s_rv1 s1 = s_rv1 t).
  { destruct (i <? n - 1); [|inversion H1; reflexivity].
    apply bind_Ok in H1 as (s0 & H0 & H1).
    assert (E0 : s_rv1 s0 = s_rv1 t).
    { destruct (negb _); [|inversion H0; reflexivity].
      apply bind_Ok in H0 as (sa & Ha & H0).
      assert (Ea : s_rv1 sa = s_rv1 t).
      { apply (for_up_same s_rv1 _ _ _ _ _ Ha). intros j u u' _ Hj. same_rv1. }
      rewrite <- Ea. apply (for_up_same s_rv1 _ _ _ _ _ H0).
      intros j u u' _ Hj. apply bind_Ok in Hj as (s3 & _ & Hj).
      apply (for_up_same s_rv1 _ _ _ _ _ Hj). intros k v v' _ Hk. same_rv1. }
    rewrite <- E0. apply (for_up_same s_rv1 _ _ _ _ _ H1).
    intros j u u' _ Hj. same_rv1. }
  assert (E2 : s_rv1 s2 = s_rv1 s1) by same_rv1.
  congruence.
Qed.

Lemma accumulate_left_rv1 (n m : Z) (st st' : svd_state) :
  accumulate_left n m st = Ok st' → s_rv1 st' = s_rv1 st.
Proof.
  unfold accumulate_left, for_down. intros H.
  apply (ford_n_same s_rv1 _ _ _ _ _ H).
  intros i t t' Hstep. unfold accumulate_left_step in Hstep.
  apply bind_Ok in Hstep as (g & _ & Hstep).
  apply bind_Ok in Hstep as (s1 & H1 & Hstep).
  apply bind_Ok in Hstep as (s2 & H2 & Hstep).
  apply bind_Ok in Hstep as (a & _ & Hstep).
  assert (E1 : s_rv1 s1 = s_rv1 t).
  { destruct (negb (i =? n - 1)); [|inversion H1; reflexivity].
    apply (for_up_same s_rv1 _ _ _ _ _ H1). intros j u u' _ Hj. same_rv1. }
  assert (E2 : s_rv1 s2 = s_rv1 s1).
  { destruct (negb (g =? 0)%float).
    - apply bind_Ok in H2 as (sa & Ha & H2).
      assert (Ea : s_rv1 sa = s_rv1 s1).
      { apply (for_up_same s_rv1 _ _ _ _ _ Ha).
        intros j u u' _ Hj. apply bind_Ok in Hj as (s3 & _ & Hj).
        apply bind_Ok in Hj as (d & _ & Hj).
        apply (for_up_same s_rv1 _ _ _ _ _ Hj). intros k v v' _ Hk. same_rv1. }
      rewrite <- Ea. apply (for_up_same s_rv1 _ _ _ _ _ H2).
      intros j u u' _ Hj. same_rv1.
    - apply (for_up_same s_rv1 _ _ _ _ _ H2). intros j u u' _ Hj. same_rv1. }
  assert (E3 : s_rv1 t' = s_rv1 s2) by same_rv1.
  congruence.
Qed.

Section DiagRv1.

Variable hypot : float → float → float.
Variables (n m : Z) (tst1 : float).

Lemma cancellation_n_rv1 (l1 : Z) (cnt : nat) :
  ∀ (i : Z) (c s : float) (st st' : svd_state),
  1 ≤ i → cancellation_n hypot cnt m l1 i tst1 c s st = Ok st' →
  s_rv1 st' !! O = s_rv1 st !! O.
Proof.
  induction cnt as [|cnt IH]; intros i c s st st' Hi H; simpl in H.
  - inversion H. reflexivity.
  - apply bind_Ok in H as (r & _ & H).
    apply bind_Ok in H as (sta & Hsta & H).
    apply rv1_wr_other in Hsta; [|lia].
    destruct (fabs (s * r) + tst1 =? tst1)%float.
    + inversion H; subst. exact Hsta.
    + apply bind_Ok in H as (g & _ & H).
      apply bind_Ok in H as (stb & Hstb & H).
      apply bind_Ok in H as (stc & Hstc & H).
      apply w_wr_rv1 in Hstb. apply rotate_A_rv1 in Hstc.
      apply IH in H; [|lia]. rewrite H, Hstc, Hstb. exact Hsta.
Qed.

Lemma qr_step_rv1 (i1 : Z) (st st' : svd_state) (c s f x c' s' f' x' : float) :
  1 ≤ i1 → qr_step hypot n m i1 (st, c, s, f, x) = Ok (st', c', s', f', x') →
  s_rv1 st' !! O = s_rv1 st !! O.
Proof.
  unfold qr_step. intros Hi H.
  apply bind_Ok in H as (g & _ & H).
  apply bind_Ok in H as (y & _ & H).
  apply bind_Ok in H as (sta & Hsta & H).
  apply bind_Ok in H as (stb & Hstb & H).
  apply bind_Ok in H as (stc & Hstc & H).
  destruct (negb (_ =? 0)%float);
    apply bind_Ok in H as (std & Hstd & H); inversion H; subst; clear H;
    apply rv1_wr_other in Hsta; try lia; apply rotate_V_rv1 in Hstb;
    apply w_wr_rv1 in Hstc; apply rotate_A_rv1 in Hstd;
    rewrite Hstd, Hstc, Hstb; exact Hsta.
Qed.

(** The QR transformation leaves [rv1[0]] at [0.0]: it writes it only when the
    block starts at [l == 0], and then resets it. *)
Lemma qr_sweep_rv1 (k l : Z) (z : float) (st st' : svd_state) :
  0 ≤ l → l < k → s_rv1 st !! O = Some 0%float →
  qr_sweep hypot n m k l z st = Ok st' → s_rv1 st' !! O = Some 0%float.
Proof.
  unfold qr_sweep. intros Hl Hlk H0 H.
  apply bind_Ok in H as (x & _ & H).
  apply bind_Ok in H as (y & _ & H).
  apply bind_Ok in H as (g & _ & H).
  apply bind_Ok in H as (h & _ & H).
  apply bind_Ok in H as ([[[[sta ca] sa] fa] xa] & Hloop & H).
  apply bind_Ok in H as (stb & Hstb & H).
  apply bind_Ok in H as (stc & Hstc & H).
  apply w_wr_rv1 in H. rewrite H.
  rewrite (rv1_wr_other _ _ _ _ Hstc) by lia.
  destruct (decide (l = 0)) as [->|Hne].
  - exact (rv1_wr_first _ _ _ Hstb).
  - rewrite (rv1_wr_other _ _ _ _ Hstb) by exact Hne. rewrite <- H0.
    apply (for_up_same (λ acc, s_rv1 acc.1.1.1.1 !! O) _ _ _ _ _ Hloop).
    intros j [[[[t c1] s1] f1] x1] [[[[t' c2] s2] f2] x2] Hj Hstep. simpl.
    apply qr_step_rv1 in Hstep; [exact Hstep | lia].
Qed.

Lemma make_nonneg_rv1 (k : Z) (z : float) (st st' : svd_state) :
  make_nonneg n k z st = Ok st' → s_rv1 st' = s_rv1 st.
Proof.
  unfold make_nonneg. destruct (z <? 0)%float; intros H.
  - apply bind_Ok in H as (sta & Hsta & H). apply w_wr_rv1 in Hsta.
    rewrite <- Hsta. apply (for_up_same s_rv1 _ _ _ _ _ H).
    intros j t t' _ Hj. same_rv1.
  - inversion H. reflexivity.
Qed.

(** The test for splitting ends at an index from 0 to [k] whenever it ends,
    and asks for the cancellation at an index [l >= 1] only. *)
Lemma split_search_range (k : Z) (st : svd_state) (l l1 : Z) (dc : bool) :
  0 ≤ k → split_search k tst1 st = Ok (l, l1, dc) →
  0 ≤ l ≤ k ∧ (dc = true → 1 ≤ l).
Proof.
  intros Hk. unfold split_search.
  assert (Hgen : ∀ (cnt : nat) (l0 l2 : Z),
            Z.of_nat cnt = l0 + 1 → 0 ≤ l0 →
            split_search_n cnt l0 l2 tst1 st = Ok (l, l1, dc) →
            0 ≤ l ≤ l0 ∧ (dc = true → 1 ≤ l)).
  { induction cnt as [|cnt IH]; intros l0 l2 Hcnt Hl0 H; [lia|]. simpl in H.
    apply bind_Ok in H as (r & _ & H).
    destruct (fabs r + tst1 =? tst1)%float.
    - inversion H; subst. split; [lia | discriminate].
    - apply bind_Ok in H as (x & Hx & H). apply rd_range in Hx.
      destruct (fabs x + tst1 =? tst1)%float.
      + inversion H; subst. split; lia.
      + apply IH in H; [|lia|lia]. destruct H as [H1 H2]. split; [lia | exact H2]. }
  intros H. apply Hgen in H; [exact H | lia | lia].
Qed.

(** A pass leaves [rv1[0]] at [0.0]. *)
Lemma sweep_rv1 (k : Z) (st : svd_state) (p : pass) :
  0 ≤ k → s_rv1 st !! O = Some 0%float →
  sweep hypot n m k tst1 st = Ok p →
  match p with Continue st' | Break st' => s_rv1 st' !! O = Some 0%float end.
Proof.
  intros Hk H0. unfold sweep. intros H.
  apply bind_Ok in H as ([[l l1] dc] & Hsplit & H).
  apply bind_Ok in H as (sta & Hsta & H).
  apply bind_Ok in H as (z & _ & H).
  destruct (split_search_range k st l l1 dc Hk Hsplit) as [Hl Hdc].
  assert (Ha : s_rv1 sta !! O = Some 0%float).
  { destruct dc.
    - unfold cancellation in Hsta.
      apply cancellation_n_rv1 in Hsta; [|apply Hdc; reflexivity].
      rewrite Hsta. exact H0.
    - inversion Hsta; subst. exact H0. }
  destruct (Z.eqb_spec l k) as [->|Hne]; simpl in H.
  - apply bind_Ok in H as (stb & Hstb & H). inversion H; subst.
    rewrite (make_nonneg_rv1 _ _ _ _ Hstb). exact Ha.
  - apply bind_Ok in H as (stb & Hstb & H). inversion H; subst.
    apply (qr_sweep_rv1 k l z sta stb); [lia | lia | exact Ha | exact Hstb].
Qed.

Lemma sweeps_rv1 (k : Z) (fuel : nat) :
  ∀ (its : Z) (st st' : svd_state),
  0 ≤ k → s_rv1 st !! O = Some 0%float →
  sweeps hypot fuel its n m k tst1 st = Ok st' →
  s_rv1 st' !! O = Some 0%float.
Proof.
  induction fuel as [|fuel IH]; intros its st st' Hk H0 H; simpl in H; [discriminate|].
  destruct (its + 1 >? SVD_NMAX); [discriminate|].
  apply bind_Ok in H as (p & Hp & H).
  pose proof (sweep_rv1 k st p Hk H0 Hp) as Hp'.
  destruct p as [sta|sta].
  - exact (IH _ _ _ Hk Hp' H).
  - inversion H; subst. exact Hp'.
Qed.

Lemma passes_rv1 (k : Z) (j : nat) (st st' : svd_state) :
  0 ≤ k → passes hypot n m k tst1 j st st' →
  s_rv1 st !! O = Some 0%float → s_rv1 st' !! O = Some 0%float.
Proof.
  intros Hk. induction 1 as [st|j st st1 st2 Hstep Hrest IH]; intros H0.
  - exact H0.
  - apply IH. exact (sweep_rv1 k st (Continue st1) Hk H0 Hstep).
Qed.

Lemma diagonalize_from_rv1 (cnt : nat) :
  ∀ (hi : Z) (s s' : svd_state),
  0 ≤ hi - Z.of_nat cnt + 1 →
  ford_n cnt hi (diagonalize_k hypot n m tst1) s = Ok s' →
  s_rv1 s !! O = Some 0%float → s_rv1 s' !! O = Some 0%float.
Proof.
  induction cnt as [|cnt IH]; intros hi s s' Hhi H H0; simpl in H.
  - inversion H; subst. exact H0.
  - apply bind_Ok in H as (s1 & H1 & H).
    apply (IH (hi - 1) s1 s' ltac:(lia) H).
    unfold diagonalize_k in H1.
    exact (sweeps_rv1 hi _ _ _ _ ltac:(lia) H0 H1).
Qed.

End DiagRv1.

(** [rv1[0]] is [0.0] whenever the test for splitting runs: when [svd] gets
    as far as a target index, and after every pass of its loop. *)
Lemma svd_rv1_first (hypot : float → float → float)
    (A : matrix) (n m : Z) (w : vec) (V : matrix)
    (k : Z) (tst1 : float) (st st' : svd_state) (j : nat) :
  0 ≤ k < n →
  svd_reaches hypot A n m w V k tst1 st →
  passes hypot n m k tst1 j st st' →
  rd (s_rv1 st') 0 = Ok 0%float.
Proof.
  intros Hk (Hm & Hn & st0 & g & st1 & st2 & Hh & Hr & Hl & Hd) Hp.
  apply rd_Ok. split; [lia|]. change (Z.to_nat 0) with O.
  apply (passes_rv1 hypot n m tst1 k j st st' ltac:(lia) Hp).
  apply householder_rv1 in Hh; [|exact Hn].
  apply accumulate_right_rv1 in Hr. apply accumulate_left_rv1 in Hl.
  rewrite <- Hr, <- Hl in Hh.
  unfold for_down in Hd.
  refine (diagonalize_from_rv1 hypot n m tst1 _ _ _ _ _ Hd Hh). lia.
Qed.

(** ** svd: the loop over the target indices *)

Lemma ford_n_app {S} (body : Z → S → res S) (a b : nat) :
  ∀ (i : Z) (s : S),
  ford_n (a + b) i body s = (ford_n a i body s ≫= ford_n b (i - Z.of_nat a) body).
Proof.
  induction a as [|a IH]; intros i s.
  - replace (i - Z.of_nat 0) with i by lia. reflexivity.
  - replace (i - Z.of_nat (Datatypes.S a)) with (i - 1 - Z.of_nat a) by lia.
    simpl. destruct (body i s) as [s1|e]; simpl; [|reflexivity].
    apply IH.
Qed.

(** The loop down to [lo] is the loop down to [k + 1], the round [k] and the
    loop from [k - 1]. *)
Lemma for_down_split {S} (hi lo k : Z) (body : Z → S → res S) (s : S) :
  lo ≤ k ≤ hi →
  for_down hi lo body s =
  (for_down hi (k + 1) body s ≫= λ s1, body k s1 ≫= for_down (k - 1) lo body).
Proof.
  intros Hk. unfold for_down.
  replace (Z.to_nat (hi - lo + 1))
    with (Z.to_nat (hi - (k + 1) + 1) + Datatypes.S (Z.to_nat (k - 1 - lo + 1)))%nat by lia.
  rewrite ford_n_app.
  replace (hi - Z.of_nat (Z.to_nat (hi - (k + 1) + 1))) with k by lia.
  reflexivity.
Qed.


Section Diag.

Variable hypot : float → float → float.
Variables (n m : Z) (tst1 : float).



Lemma sweeps_passes_err (k : Z) (j : nat) (st st2 : svd_state) :
  passes hypot n m k tst1 j st st2 →
  ∀ (fuel : nat) (its : Z),
  its + Z.of_nat j = SVD_NMAX → (j < fuel)%nat →
  sweeps hypot fuel its n m k tst1 st = Err NonConvergence.
Proof.
  induction 1 as [st|j st st1 st2 Hstep Hrest IH]; intros fuel its Hits Hfuel.
  - destruct fuel as [|fuel]; [lia|]. simpl.
    destruct (Z.gtb_spec (its + 1) SVD_NMAX) as [_|Hle]; [reflexivity|]. lia.
  - destruct fuel as [|fuel]; [lia|]. simpl.
    destruct (Z.gtb_spec (its + 1) SVD_NMAX) as [Hgt|_]; [lia|].
    rewrite Hstep. simpl. apply IH; lia.
Qed.

Lemma sweeps_Ok_passes (k : Z) (fuel : nat) :
  ∀ (its : Z) (st st' : svd_state),
  sweeps hypot fuel its n m k tst1 st = Ok st' →
  ∃ (j : nat) (st1 : svd_state),
    its + Z.of_nat j < SVD_NMAX
    ∧ passes hypot n m k tst1 j st st1
    ∧ sweep hypot n m k tst1 st1 = Ok (Break st').
Proof.
  induction fuel as [|fuel IH]; intros its st st' H; simpl in H; [discriminate|].
  destruct (Z.gtb_spec (its + 1) SVD_NMAX) as [Hgt|Hle]; [discriminate|].
  apply bind_Ok in H as (p & Hp & H). destruct p as [st1|st1].
  - destruct (IH _ _ _ H) as (j & st2 & Hj & Hpasses & Hbreak).
    exists (S j), st2. split; [lia|]. split; [|exact Hbreak].
    exact (passes_S hypot n m k tst1 j st st1 st2 Hp Hpasses).
  - inversion H; subst. exists O, st. split; [lia|].
    split; [apply passes_O | exact Hp].
Qed.

End Diag.

Lemma svd_unfold (hypot : float → float → float)
    (A : matrix) (n m : Z) (w : vec) (V : matrix) (out : svd_state) :
  svd hypot A n m w V = Ok out →
  0 < m ∧ 0 < n ∧
  ∃ st0 g tst1 st1 st2,
    householder n m (SvdState A w V (replicate (Z.to_nat n) 0%float)) = Ok (st0, g, tst1)
    ∧ accumulate_right n st0 g n = Ok st1
    ∧ accumulate_left n m st1 = Ok st2
    ∧ diagonalize hypot n m tst1 st2 = Ok out.
Proof.
  unfold svd. intros H.
  destruct (Z.ltb_spec 0 m); [|discriminate].
  destruct (Z.ltb_spec 0 n); [|discriminate]. simpl in H.
  apply bind_Ok in H as ([[st0 g] tst1] & Hh & H).
  apply bind_Ok in H as (st1 & Hr & H).
  apply bind_Ok in H as (st2 & Hl & H).
  split; [assumption|]. split; [assumption|].
  exists st0, g, tst1, st1, st2. auto.
Qed.

(** ** svd: the test for splitting *)

(** Adding [0.0] to a number gives a double equal to it. *)
Lemma add_zero_eqb (t : float) :
  is_nan t = false → (fabs 0 + t =? t)%float = true.
Proof.
  intros Ht. apply is_nan_spec in Ht.
  change (fabs 0) with 0%float.
  rewrite FloatAxioms.eqb_spec, add_spec.
  change (Prim2SF 0) with (S754_zero false).
  unfold SF64add, SFadd, SFeqb.
  destruct (Prim2SF t) as [s|s| |s mx ex]; simpl.
  - destruct s; reflexivity.
  - destruct s; reflexivity.
  - contradiction Ht; reflexivity.
  - destruct s; rewrite Z.compare_refl, Pos.compare_cont_refl; reflexivity.
Qed.

(** With [rv1[0]] at [0.0] and a threshold [tst1] that is a number, the test
    for splitting ends at an index [l] from 0 to [k] without reading outside
    [w], and it asks for the cancellation only at an index [l >= 1]. *)
Lemma split_search_in_bounds (k : Z) (tst1 : float) (st : svd_state) :
  rd (s_rv1 st) 0 = Ok 0%float → is_nan tst1 = false →
  0 ≤ k < Z.of_nat (length (s_rv1 st)) → k < Z.of_nat (length (s_w st)) →
  ∃ l l1 docancellation,
    split_search k tst1 st = Ok (l, l1, docancellation)
    ∧ 0 ≤ l ≤ k
    ∧ (docancellation = true → 1 ≤ l ∧ l1 = l - 1).
Proof.
  intros H0 Ht Hk Hkw. unfold split_search.
  assert (Hgen : ∀ (cnt : nat) (l l1 : Z),
            Z.of_nat cnt = l + 1 → 0 ≤ l ≤ k →
            ∃ l' l1' dc, split_search_n cnt l l1 tst1 st = Ok (l', l1', dc)
              ∧ 0 ≤ l' ≤ l ∧ (dc = true → 1 ≤ l' ∧ l1' = l' - 1)).
  { induction cnt as [|cnt IH]; intros l l1 Hcnt Hl; [lia|]. simpl.
    destruct (decide (l = 0)) as [->|Hne].
    - unfold rv1_rd. rewrite H0. simpl. rewrite (add_zero_eqb tst1 Ht).
      exists 0, l1, false. split; [reflexivity|]. split; [lia | discriminate].
    - unfold rv1_rd, w_rd.
      destruct (rd_in_range (s_rv1 st) l ltac:(lia)) as (r & Hr & _).
      rewrite Hr. simpl.
      destruct (fabs r + tst1 =? tst1)%float.
      + exists l, l1, false. split; [reflexivity|]. split; [lia | discriminate].
      + destruct (rd_in_range (s_w st) (l - 1) ltac:(lia)) as (x & Hx & _).
        rewrite Hx. simpl.
        destruct (fabs x + tst1 =? tst1)%float.
        * exists l, (l - 1), true. split; [reflexivity|]. split; lia.
        * destruct (IH (l - 1) (l - 1) ltac:(lia) ltac:(lia))
            as (l' & l1' & dc & Hrun & Hl' & Hdc).
          exists l', l1', dc. split; [exact Hrun|]. split; [lia | exact Hdc]. }
  destruct (Hgen (Z.to_nat (k + 1)) k (-1) ltac:(lia) ltac:(lia))
    as (l & l1 & dc & Hrun & Hl & Hdc).
  exists l, l1, dc. auto.
Qed.

(** Together: at every test for splitting that [svd] gets to with a threshold
    [tst1] that is a number, the search stays inside [w]. *)
Lemma svd_split_search_safe (hypot : float → float → float)
    (A : matrix) (n m : Z) (w : vec) (V : matrix)
    (k : Z) (tst1 : float) (st st' : svd_state) (j : nat) :
  0 ≤ k < n →
  svd_reaches hypot A n m w V k tst1 st →
  passes hypot n m k tst1 j st st' →
  is_nan tst1 = false →
  k < Z.of_nat (length (s_rv1 st')) → k < Z.of_nat (length (s_w st')) →
  ∃ l l1 docancellation,
    split_search k tst1 st' = Ok (l, l1, docancellation)
    ∧ 0 ≤ l ≤ k
    ∧ (docancellation = true → 1 ≤ l ∧ l1 = l - 1).
Proof.
  intros Hk Hreach Hp Ht Hlr Hlw.
  apply split_search_in_bounds; [|exact Ht|lia|exact Hlw].
  exact (svd_rv1_first hypot A n m w V k tst1 st st' j Hk Hreach Hp).
Qed.

(** ** The claims on svd *)



(** C9, as stated, fails on a finite matrix: for the one row
    [0, 1e308, 1e308] the scale [|1e308| + |1e308|] of the first row
    transformation overflows, the scaled entries become [0.0], the squared
    norm is [0.0] and [h] = [0.0 - 0.0] divides [0.0]; the NaN goes through
    the accumulations into [w[1]] ([hypot] of a NaN and [0.0] is a NaN).  The
    test [z < 0.0] is false of it, [svd] returns, and [w[1]] is a NaN, of
    which [>= 0] is false. *)
Lemma svd_returns_nan_value :
  ∃ out, svd hypot_plain inf_row_A 3 1 zero_w3 zero_V3 = Ok out
    ∧ s_w out = [0; nan; 0]%float
    ∧ (0 <=? vget (s_w out) 1)%float = false.
Proof.
  eexists. split; [vm_compute; reflexivity|]. split; reflexivity.
Qed.

(** C5. If [svd] gets as far as a target index [k] and the loop for [k]
    makes [SVD_NMAX] = 40 passes none of which finds the block collapsed
    ([l == k]), [svd] ends in the error [NonConvergence]; and when [svd]
    returns, the loop of every target index found its block collapsed in one
    of its first 40 passes. *)
Theorem svd_nonconvergence (hypot : float → float → float)
    (A : matrix) (n m : Z) (w : vec) (V : matrix) :
  (∀ k tst1 st_k st_end,
     0 ≤ k < n →
     svd_reaches hypot A n m w V k tst1 st_k →
     passes hypot n m k tst1 (Z.to_nat SVD_NMAX) st_k st_end →
     svd hypot A n m w V = Err NonConvergence)
  ∧ (∀ out, svd hypot A n m w V = Ok out →
     ∀ k, 0 ≤ k < n →
     ∃ tst1 st_k (j : nat) st_j st_k',
       svd_reaches hypot A n m w V k tst1 st_k
       ∧ (j < Z.to_nat SVD_NMAX)%nat
       ∧ passes hypot n m k tst1 j st_k st_j
       ∧ sweep hypot n m k tst1 st_j = Ok (Break st_k')).
Proof.
  split.
  - intros k tst1 st_k st_end Hk (Hm & Hn & st0 & g & st1 & st2 & Hh & Hr & Hl & Hd) Hp.
    unfold svd.
    destruct (Z.ltb_spec 0 m); [|lia]. destruct (Z.ltb_spec 0 n); [|lia]. simpl.
    rewrite Hh. simpl. rewrite Hr. simpl. rewrite Hl. simpl.
    unfold diagonalize. rewrite (for_down_split (n - 1) 0 k) by lia.
    rewrite (bind_Ok_l _ _ _ Hd). unfold diagonalize_k.
    rewrite (sweeps_passes_err hypot n m tst1 k _ _ _ Hp); [reflexivity | | ].
    + unfold SVD_NMAX. lia.
    + unfold SVD_NMAX. lia.
  - intros out H k Hk.
    apply svd_unfold in H as (Hm & Hn & st0 & g & tst1 & st1 & st2 & Hh & Hr & Hl & Hd).
    unfold diagonalize in Hd. rewrite (for_down_split (n - 1) 0 k) in Hd by lia.
    apply bind_Ok in Hd as (st_k & Hreach & Hd).
    apply bind_Ok in Hd as (st_k' & Hk' & _).
    unfold diagonalize_k in Hk'.
    apply sweeps_Ok_passes in Hk' as (j & st_j & Hj & Hpasses & Hbreak).
    exists tst1, st_k, j, st_j, st_k'. split; [|split; [|split]].
    + split; [exact Hm|]. split; [exact Hn|]. exists st0, g, st1, st2. auto.
    + unfold SVD_NMAX in *. lia.
    + exact Hpasses.
    + exact Hbreak.
Qed.

(** The error is met: the plain [hypot] and a first column whose magnitudes
    add up to infinity. *)
Example svd_nonconvergence_example :
  svd hypot_plain overflow_A 4 2 [0; 0; 0; 0]%float
      (replicate 4 (replicate 4 0%float)) = Err NonConvergence.
Proof. vm_compute. reflexivity. Qed.

(** C10: the read of [w[l - 1]] with [l == 0] is reached.  For the two
    finite entries of [big_A], whose magnitudes add up to infinity, [w[0]] and
    with it [tst1] is a NaN: [svd] gets as far as the target index 0 with
    [rv1[0]] at [0.0], and there the test [fabs(rv1[0]) + tst1 == tst1] fails,
    so that the test for splitting reads [w[-1]], whatever [hypot] is. *)
Theorem svd_reads_out_of_bounds (hypot : float → float → float) :
  svd hypot big_A 1 2 [0%float] [[0%float]] = Err OutOfBounds
  ∧ ∃ tst1 st,
      svd_reaches hypot big_A 1 2 [0%float] [[0%float]] 0 tst1 st
      ∧ rd (s_rv1 st) 0 = Ok 0%float
      ∧ is_nan tst1 = true
      ∧ split_search 0 tst1 st = Err OutOfBounds.
Proof.
  split; [vm_compute; reflexivity|].
  eexists. eexists. split; [|split; [|split]].
  - split; [lia|]. split; [lia|].
    eexists. eexists. eexists. eexists.
    split; [vm_compute; reflexivity|].
    split; [vm_compute; reflexivity|].
    split; [vm_compute; reflexivity|].
    vm_compute. reflexivity.
  - reflexivity.
  - reflexivity.
  - reflexivity.
Qed.

(** * Further properties *)

(** ** cmp_iv: consistency of the comparison *)

Lemma SFleb_trans (x y z : spec_float) :
  SFleb x y = true → SFleb y z = true → SFleb x z = true.
Proof.
  unfold SFleb, SFcompare.
  destruct x as [sx|sx| |sx mx ex], y as [sy|sy| |sy my ey], z as [sz|sz| |sz mz ez];
    try discriminate; try reflexivity;
    try (destruct sx; try discriminate; try reflexivity);
    try (destruct sy; try discriminate; try reflexivity);
    try (destruct sz; try discriminate; try reflexivity);
    change (@PosDef.Pos.compare_cont) with (@Pos.compare_cont);
    change (Pos.compare_cont Eq mx my) with (Pos.compare mx my);
    change (Pos.compare_cont Eq my mz) with (Pos.compare my mz);
    change (Pos.compare_cont Eq mx mz) with (Pos.compare mx mz);
    destruct (Z.compare_spec ex ey), (Z.compare_spec ey ez), (Z.compare_spec ex ez);
    try discriminate; try reflexivity; try lia; subst;
    destruct (Pos.compare_spec mx my), (Pos.compare_spec my mz), (Pos.compare_spec mx mz);
    simpl; try discriminate; try reflexivity; try lia.
Qed.

Lemma leb_trans (x y z : float) :
  (x <=? y)%float = true → (y <=? z)%float = true → (x <=? z)%float = true.
Proof. rewrite !leb_spec. apply SFleb_trans. Qed.

(** An entry that [cmp_iv] reads is an entry of the array or, outside it, the
    number 0. *)
Lemma deref_not_nan (v : vec) (p : Z) :
  (∀ x, x ∈ v → is_nan x = false) → is_nan (deref v p) = false.
Proof.
  intros Hv. unfold deref. destruct (v !! Z.to_nat p) as [x|] eqn:E; simpl.
  - apply Hv. eapply list_elem_of_lookup_2. exact E.
  - reflexivity.
Qed.

Lemma cmp_iv_no_nan (v : vec) :
  (∀ x, x ∈ v → is_nan x = false) → cmp_consistent (cmp_iv v).
Proof.
  intros Hv. split.
  - intros x y. unfold cmp_iv.
    destruct (deref v (iv_v x) <? deref v (iv_v y))%float eqn:Hxy.
    + rewrite (ltb_asym _ _ Hxy). reflexivity.
    + destruct (deref v (iv_v y) <? deref v (iv_v x))%float; reflexivity.
  - intros x y z Hxy Hyz. apply cmp_iv_not_ltb.
    apply cmp_iv_le in Hxy. apply cmp_iv_le in Hyz.
    apply leb_not_ltb. apply (leb_trans _ (deref v (iv_v y))).
    + apply not_ltb_leb; [apply deref_not_nan, Hv ..|exact Hyz].
    + apply not_ltb_leb; [apply deref_not_nan, Hv ..|exact Hxy].
Qed.

(** X1. Over an array without NaN, [cmp_iv] is a comparison function as
    [qsort] requires it: exchanging its arguments negates the sign of its
    result, and the relation "not after" it defines is transitive. *)
Theorem cmp_iv_consistent (v : vec) :
  (∀ x, x ∈ v → is_nan x = false) → cmp_consistent (cmp_iv v).
Proof. exact (cmp_iv_no_nan v). Qed.

Lemma cmp_iv_consistent_witness : cmp_consistent (cmp_iv ex_w).
Proof.
  apply cmp_iv_consistent. intros x Hx. unfold ex_w in Hx.
  repeat (apply elem_of_cons in Hx as [-> | Hx]; [reflexivity|]).
  apply elem_of_nil in Hx. contradiction.
Defined.

(** X2. With a NaN between them, [cmp_iv] is not consistent: it reports the
    NaN equal to each of two numbers that it orders strictly, so no order of
    the three elements agrees with all of its answers. *)
Theorem cmp_iv_nan_inconsistent (v : vec) (a b c : indexedvalue) :
  is_nan (deref v (iv_v b)) = true →
  (deref v (iv_v a) <? deref v (iv_v c))%float = true →
  cmp_iv v a b = 0 ∧ cmp_iv v b c = 0 ∧ cmp_iv v a c = 1
  ∧ ¬ cmp_consistent (cmp_iv v).
Proof.
  intros Hb Hac.
  assert (Hnan : ∀ y, (deref v (iv_v b) <? y)%float = false
                      ∧ (y <? deref v (iv_v b))%float = false).
  { intros y. unfold is_nan in Hb.
    destruct (is_nan (deref v (iv_v b))) eqn:E.
    2:{ unfold is_nan in E. rewrite Hb in E. discriminate. }
    split.
    - destruct (deref v (iv_v b) <? y)%float eqn:L; [|reflexivity].
      assert (Hle : (deref v (iv_v b) <=? y)%float = true).
      { rewrite leb_spec. rewrite ltb_spec in L. unfold SFltb, SFleb in *.
        destruct (SFcompare _ _) as [[]|]; try discriminate; reflexivity. }
      apply leb_not_nan in Hle as [E' _]. rewrite E' in E. discriminate.
    - destruct (y <? deref v (iv_v b))%float eqn:L; [|reflexivity].
      assert (Hle : (y <=? deref v (iv_v b))%float = true).
      { rewrite leb_spec. rewrite ltb_spec in L. unfold SFltb, SFleb in *.
        destruct (SFcompare _ _) as [[]|]; try discriminate; reflexivity. }
      apply leb_not_nan in Hle as [_ E']. rewrite E' in E. discriminate. }
  assert (Hab : cmp_iv v a b = 0).
  { unfold cmp_iv. destruct (Hnan (deref v (iv_v a))) as [-> ->]. reflexivity. }
  assert (Hbc : cmp_iv v b c = 0).
  { unfold cmp_iv. destruct (Hnan (deref v (iv_v c))) as [-> ->]. reflexivity. }
  assert (Hac' : cmp_iv v a c = 1).
  { unfold cmp_iv. rewrite (ltb_asym _ _ Hac), Hac. reflexivity. }
  repeat (split; [assumption|]).
  intros [_ Htr]. specialize (Htr a b c). lia.
Qed.

Lemma cmp_iv_nan_inconsistent_witness :
  cmp_iv [1; nan; 2]%float (IV 0 0) (IV 1 1) = 0
  ∧ cmp_iv [1; nan; 2]%float (IV 1 1) (IV 2 2) = 0
  ∧ cmp_iv [1; nan; 2]%float (IV 0 0) (IV 2 2) = 1
  ∧ ¬ cmp_consistent (cmp_iv [1; nan; 2]%float).
Proof. apply cmp_iv_nan_inconsistent; reflexivity. Defined.

(** ** svd_invs: a singular value that is zero *)

(** A double is not finite when it is an infinity or not a number. *)
Lemma is_finite_false (x : float) :
  is_finite x = false ↔ Prim2SF x = S754_nan ∨ ∃ s, Prim2SF x = S754_infinity s.
Proof.
  unfold is_finite, is_nan, is_infinity.
  rewrite !FloatAxioms.eqb_spec, abs_spec.
  change (Prim2SF infinity) with (S754_infinity false).
  unfold SFeqb. destruct (Prim2SF x) as [s|s| |s mx ex]; simpl.
  - split; [destruct s; discriminate | intros [H|[s' H]]; discriminate].
  - split; [eauto | destruct s; reflexivity].
  - split; [auto | reflexivity].
  - split.
    + destruct s; rewrite Z.compare_refl, Pos.compare_cont_refl; simpl; discriminate.
    + intros [H|[s' H]]; discriminate.
Qed.

Lemma eqb_zero (y : float) :
  (y =? 0)%float = true → ∃ s, Prim2SF y = S754_zero s.
Proof.
  rewrite FloatAxioms.eqb_spec. change (Prim2SF 0) with (S754_zero false).
  unfold SFeqb. destruct (Prim2SF y) as [s|s| |s mx ex]; simpl.
  - eauto.
  - destruct s; discriminate.
  - discriminate.
  - destruct s; discriminate.
Qed.

(** Dividing by zero never gives a finite double: [0/0] and [NaN/0] are not
    numbers, everything else is an infinity. *)
Lemma div_zero_not_finite (x y : float) :
  (y =? 0)%float = true → is_finite (x / y) = false.
Proof.
  intros Hy. apply eqb_zero in Hy as [s Hy]. apply is_finite_false.
  rewrite div_spec, Hy. unfold SF64div, SFdiv.
  destruct (Prim2SF x) as [sx|sx| |sx mx ex]; eauto.
Qed.

Lemma mul_not_finite (x y : float) :
  is_finite x = false → is_finite (x * y) = false.
Proof.
  rewrite !is_finite_false, mul_spec. unfold SF64mul, SFmul.
  intros [-> | [s ->]]; [auto|].
  destruct (Prim2SF y) as [sy|sy| |sy my ey]; eauto.
Qed.

Lemma add_not_finite_l (x y : float) :
  is_finite x = false → is_finite (x + y) = false.
Proof.
  rewrite !is_finite_false, add_spec. unfold SF64add, SFadd.
  intros [-> | [s ->]]; [auto|].
  destruct (Prim2SF y) as [sy|sy| |sy my ey]; eauto.
  destruct s, sy; eauto.
Qed.

Lemma add_not_finite_r (x y : float) :
  is_finite y = false → is_finite (x + y) = false.
Proof.
  rewrite !is_finite_false, add_spec. unfold SF64add, SFadd.
  intros [-> | [s ->]].
  - destruct (Prim2SF x); auto.
  - destruct (Prim2SF x) as [sx|sx| |sx mx ex]; eauto.
    destruct sx, s; eauto.
Qed.

(** One mode with a zero singular value makes the whole sum not finite. *)
Lemma pinv_entry_not_finite (U : matrix) (w : vec) (V : matrix) (mnmin i j k0 : Z) :
  0 ≤ k0 < mnmin → (vget w k0 =? 0)%float = true →
  is_finite (pinv_entry U w V mnmin i j) = false.
Proof.
  intros Hk0 Hz. unfold pinv_entry.
  set (f := λ (acc : float) (k : Z), (acc + mget V i k / vget w k * mget U j k)%float).
  assert (Hgen : ∀ c : nat, is_finite (fold_left f (zrange 0 (k0 + 1 + Z.of_nat c)) 0%float) = false).
  { induction c as [|c IH].
    - rewrite Z.add_0_r, zrange_snoc, fold_left_app by lia. simpl. unfold f at 1.
      apply add_not_finite_r, mul_not_finite, div_zero_not_finite. exact Hz.
    - replace (k0 + 1 + Z.of_nat (S c)) with (k0 + 1 + Z.of_nat c + 1) by lia.
      rewrite zrange_snoc, fold_left_app by lia. simpl. unfold f at 1.
      apply add_not_finite_l. exact IH. }
  specialize (Hgen (Z.to_nat (mnmin - k0 - 1))).
  replace (k0 + 1 + Z.of_nat (Z.to_nat (mnmin - k0 - 1))) with mnmin in Hgen by lia.
  exact Hgen.
Qed.

(** X3. [svd_invs] divides by every singular value below [min(n, m)] without
    testing it: when one of them is zero (of either sign), [svd_invs] still
    returns, and no entry of [AT] is a finite number. *)
Theorem svd_invs_zero_singular_value
    (AT U : matrix) (n m : Z) (w : vec) (V : matrix) (k0 : Z) :
  1 ≤ n → 1 ≤ m →
  shape AT n m → shape U m n → length w = Z.to_nat n → shape V n n →
  0 ≤ k0 < Z.min n m → (vget w k0 =? 0)%float = true →
  ∃ st, svd_invs AT U n m w V = Ok st
    ∧ ∀ i j, 0 ≤ i < n → 0 ≤ j < m →
        ∃ x, rd2 (i_AT st) i j = Ok x ∧ is_finite x = false.
Proof.
  intros Hn Hm HAT HU Hw HV Hk0 Hz.
  destruct (svd_invs_spec AT U n m w V Hn Hm HAT HU Hw HV)
    as (AT' & vt & Hrun & Hsh & _ & Hval).
  exists (InvsState AT' U w V vt). split; [exact Hrun|].
  intros i j Hi Hj. simpl. rewrite (rd2_mget AT' n m i j Hsh Hi Hj).
  eexists. split; [reflexivity|]. rewrite Hval by assumption.
  apply (pinv_entry_not_finite U w V (Z.min n m) i j k0); assumption.
Qed.

Lemma svd_invs_zero_singular_value_witness :
  ∃ st, svd_invs ex_AT ex_A 3 2 [3; 0; 0]%float ex_V = Ok st
    ∧ ∃ x, rd2 (i_AT st) 2 1 = Ok x ∧ is_finite x = false.
Proof.
  destruct (svd_invs_zero_singular_value ex_AT ex_A 3 2 [3; 0; 0]%float ex_V 1)
    as (st & Hrun & Hval).
  - lia.
  - lia.
  - apply shapeb_shape. reflexivity.
  - apply shapeb_shape. reflexivity.
  - reflexivity.
  - apply shapeb_shape. reflexivity.
  - lia.
  - reflexivity.
  - exists st. split; [exact Hrun|]. apply Hval; lia.
Defined.

(** ** svd_sort, then svd_invs *)

(** X4. [main] passes the triad that [svd_sort] returns to [svd_invs].  When
    one of the first [min(n, m)] singular values of the sorted order is
    negligible, [svd_sort] has set it to [0.0] and [svd_invs] divides by it:
    both return, and no entry of the pseudo-inverse [AT] is a finite number. *)
Theorem svd_sort_invs_negligible
    (qsort : (indexedvalue → indexedvalue → Z) → list indexedvalue → list indexedvalue)
    (AT A : matrix) (n m : Z) (w : vec) (V : matrix) (i0 : Z) :
  1 ≤ n → 1 ≤ m →
  shape AT n m → shape A m n → length w = Z.to_nat n → shape V n n →
  qsort_post (cmp_iv w) (iv_init n) (qsort (cmp_iv w) (iv_init n)) →
  let p := sort_pos qsort n w in
  let wmax := vget w (zget p 0) in
  0 ≤ i0 < Z.min n m →
  (vget w (zget p i0) / wmax <? SVD_EPS)%float = true →
  ∃ t st,
    svd_sort qsort A n m w V = Ok t
    ∧ svd_invs AT (t_A t) n m (t_w t) (t_V t) = Ok st
    ∧ ∀ i j, 0 ≤ i < n → 0 ≤ j < m →
        ∃ x, rd2 (i_AT st) i j = Ok x ∧ is_finite x = false.
Proof.
  intros Hn Hm HAT HA Hw HV Hq p wmax Hi0 Hneg.
  destruct (svd_sort_spec qsort A n m w V Hn Hm HA Hw HV Hq)
    as (A' & w' & V' & Hrun & HsA & Hlw & HsV & Hval).
  destruct (svd_invs_spec AT A' n m w' V' Hn Hm HAT HsA Hlw HsV)
    as (AT' & vt & Hrun' & Hsh & _ & Hval').
  exists (Triad A' w' V'), (InvsState AT' A' w' V' vt).
  split; [exact Hrun|]. split; [exact Hrun'|].
  intros i j Hi Hj. simpl. rewrite (rd2_mget AT' n m i j Hsh Hi Hj).
  eexists. split; [reflexivity|]. rewrite Hval' by assumption.
  apply (pinv_entry_not_finite A' w' V' (Z.min n m) i j i0); [exact Hi0|].
  destruct (Hval i0 ltac:(lia)) as (-> & _).
  unfold threshold. fold p. fold wmax. rewrite Hneg. reflexivity.
Qed.

Lemma svd_sort_invs_negligible_witness :
  ∃ t st,
    svd_sort qsort_stable ex_A 3 2 deficient_w ex_V = Ok t
    ∧ svd_invs ex_AT (t_A t) 3 2 (t_w t) (t_V t) = Ok st
    ∧ ∃ x, rd2 (i_AT st) 0 0 = Ok x ∧ is_finite x = false.
Proof.
  destruct (svd_sort_invs_negligible qsort_stable ex_AT ex_A 3 2 deficient_w ex_V 1)
    as (t & st & Hrun & Hrun' & Hval).
  - lia.
  - lia.
  - apply shapeb_shape. reflexivity.
  - apply shapeb_shape. reflexivity.
  - reflexivity.
  - apply shapeb_shape. reflexivity.
  - unfold qsort_post. apply (bool_decide_unpack _). vm_compute. exact I.
  - lia.
  - vm_compute. reflexivity.
  - exists t, st. split; [exact Hrun|]. split; [exact Hrun'|]. apply Hval; lia.
Defined.

(** ** svd: the accesses stay inside the buffers *)

(** A loop whose rounds all succeed and keep an invariant ends in a state that
    has it. *)
Lemma for_up_total {S} (Inv : S → Prop) (lo hi : Z) (body : Z → S → res S) (s : S) :
  Inv s →
  (∀ j t, lo ≤ j < hi → Inv t → ∃ t', body j t = Ok t' ∧ Inv t') →
  ∃ s', for_up lo hi body s = Ok s' ∧ Inv s'.
Proof.
  intros Hs Hstep. unfold for_up.
  destruct (for_n_inv (λ _, Inv) body (Z.to_nat (hi - lo)) lo s Hs) as (s' & Hs' & Hinv).
  - intros j t Hj. apply Hstep. lia.
  - exists s'. auto.
Qed.

Lemma bind_assoc {T U X} (r : res T) (f : T → res U) (g : U → res X) :
  ((r ≫= f) ≫= g) = (r ≫= λ x, f x ≫= g).
Proof. destruct r; reflexivity. Qed.

Lemma ford_n_inv {S} (Inv : Z → S → Prop) (body : Z → S → res S) (cnt : nat) :
  ∀ (i : Z) (s : S),
  Inv i s →
  (∀ j t, i - Z.of_nat cnt < j ≤ i → Inv j t → ∃ t', body j t = Ok t' ∧ Inv (j - 1) t') →
  ∃ s', ford_n cnt i body s = Ok s' ∧ Inv (i - Z.of_nat cnt) s'.
Proof.
  induction cnt as [|cnt IH]; intros i s Hi Hstep.
  - exists s. split; [reflexivity|]. replace (i - Z.of_nat 0) with i by lia. exact Hi.
  - destruct (Hstep i s) as (t & Ht & Hit); [lia | exact Hi |].
    destruct (IH (i - 1) t Hit) as (s' & Hs' & Hinv).
    + intros j u Hj Hu. apply Hstep; [lia | exact Hu].
    + exists s'. simpl. rewrite Ht. simpl. split; [exact Hs'|].
      replace (i - Z.of_nat (Datatypes.S cnt)) with (i - 1 - Z.of_nat cnt) by lia.
      exact Hinv.
Qed.

Lemma for_down_inv {S} (Inv : Z → S → Prop) (hi lo : Z) (body : Z → S → res S) (s : S) :
  lo ≤ hi + 1 → Inv hi s →
  (∀ j t, lo ≤ j ≤ hi → Inv j t → ∃ t', body j t = Ok t' ∧ Inv (j - 1) t') →
  ∃ s', for_down hi lo body s = Ok s' ∧ Inv (lo - 1) s'.
Proof.
  intros Hle Hs Hstep. unfold for_down.
  destruct (ford_n_inv Inv body (Z.to_nat (hi - lo + 1)) hi s Hs) as (s' & Hs' & Hinv).
  - intros j t Hj. apply Hstep. lia.
  - exists s'. split; [exact Hs'|].
    replace (hi - Z.of_nat (Z.to_nat (hi - lo + 1))) with (lo - 1) in Hinv by lia.
    exact Hinv.
Qed.

Section Buffers.

Variables n m : Z.

Lemma A_rd_ok (st : svd_state) (r c : Z) :
  svd_buffers n m st → 0 ≤ r < m → 0 ≤ c < n →
  A_rd st r c = Ok (mget (s_A st) r c).
Proof. intros (HA & _) Hr Hc. exact (rd2_mget _ m n r c HA Hr Hc). Qed.

Lemma V_rd_ok (st : svd_state) (r c : Z) :
  svd_buffers n m st → 0 ≤ r < n → 0 ≤ c < n →
  V_rd st r c = Ok (mget (s_V st) r c).
Proof. intros (_ & _ & HV & _) Hr Hc. exact (rd2_mget _ n n r c HV Hr Hc). Qed.

Lemma w_rd_ok (st : svd_state) (i : Z) :
  svd_buffers n m st → 0 ≤ i < n → w_rd st i = Ok (vget (s_w st) i).
Proof. intros (_ & Hw & _) Hi. apply rd_vget. lia. Qed.

Lemma rv1_rd_ok (st : svd_state) (i : Z) :
  svd_buffers n m st → 0 ≤ i < n → rv1_rd st i = Ok (vget (s_rv1 st) i).
Proof. intros (_ & _ & _ & Hr) Hi. apply rd_vget. lia. Qed.

Lemma A_wr_ok (st : svd_state) (r c : Z) (x : float) :
  svd_buffers n m st → 0 ≤ r < m → 0 ≤ c < n →
  A_wr st r c x = Ok (A_set st r c x).
Proof.
  intros (HA & _) Hr Hc. unfold A_wr.
  rewrite (wr2_mset _ m n r c x HA Hr Hc). reflexivity.
Qed.

Lemma V_wr_ok (st : svd_state) (r c : Z) (x : float) :
  svd_buffers n m st → 0 ≤ r < n → 0 ≤ c < n →
  V_wr st r c x = Ok (V_set st r c x).
Proof.
  intros (_ & _ & HV & _) Hr Hc. unfold V_wr.
  rewrite (wr2_mset _ n n r c x HV Hr Hc). reflexivity.
Qed.

Lemma w_wr_ok (st : svd_state) (i : Z) (x : float) :
  svd_buffers n m st → 0 ≤ i < n → w_wr st i x = Ok (w_set st i x).
Proof.
  intros (_ & Hw & _) Hi. unfold w_wr. rewrite wr_in_range by lia. reflexivity.
Qed.

Lemma rv1_wr_ok (st : svd_state) (i : Z) (x : float) :
  svd_buffers n m st → 0 ≤ i < n → rv1_wr st i x = Ok (rv1_set st i x).
Proof.
  intros (_ & _ & _ & Hr) Hi. unfold rv1_wr. rewrite wr_in_range by lia. reflexivity.
Qed.

Lemma buffers_A_set (st : svd_state) (r c : Z) (x : float) :
  svd_buffers n m st → svd_buffers n m (A_set st r c x).
Proof.
  intros (HA & Hw & HV & Hr). split; [|auto]. apply shape_mset. exact HA.
Qed.

Lemma buffers_V_set (st : svd_state) (r c : Z) (x : float) :
  svd_buffers n m st → svd_buffers n m (V_set st r c x).
Proof.
  intros (HA & Hw & HV & Hr). split; [exact HA|]. split; [exact Hw|].
  split; [|exact Hr]. apply shape_mset. exact HV.
Qed.

Lemma buffers_w_set (st : svd_state) (i : Z) (x : float) :
  svd_buffers n m st → svd_buffers n m (w_set st i x).
Proof.
  intros (HA & Hw & HV & Hr). split; [exact HA|]. split; [|auto].
  simpl. rewrite length_insert. exact Hw.
Qed.

Lemma buffers_rv1_set (st : svd_state) (i : Z) (x : float) :
  svd_buffers n m st → svd_buffers n m (rv1_set st i x).
Proof.
  intros (HA & Hw & HV & Hr). split; [exact HA|]. split; [exact Hw|].
  split; [exact HV|]. simpl. rewrite length_insert. exact Hr.
Qed.

End Buffers.

Create HintDb buffers.
#[local] Hint Resolve buffers_A_set buffers_V_set buffers_w_set buffers_rv1_set : buffers.

(** The invariant of a loop of [svd], from the type of the state it carries:
    the buffers keep their sizes. *)
Ltac buffers_inv n m s :=
  let T := type of s in
  lazymatch eval cbv beta in T with
  | svd_state => constr:(svd_buffers n m)
  | float => constr:(λ _ : float, True)
  | (svd_state * float)%type =>
      constr:(λ p : svd_state * float, svd_buffers n m p.1)
  | (svd_state * float * float * float * float)%type =>
      constr:(λ p : svd_state * float * float * float * float,
                svd_buffers n m p.1.1.1.1)
  end.

Ltac buffers_side := simpl in *; solve [exact I | eauto 8 with buffers].

(** Rewrites the access at the head of the computation with its value, its
    index being inside the bounds. *)
Ltac buffers_access n m E lem :=
  let H := fresh "Hacc" in
  assert (H : E = Ok _) by (apply (lem n m); [buffers_side | lia ..]);
  first [rewrite (bind_Ok_l _ _ _ H) | rewrite H]; clear H.

(** Takes a tuple apart. *)
Ltac buffers_pairs t :=
  repeat lazymatch type of t with (_ * _)%type => destruct t as [t ?] end.

Ltac buffers_head E :=
  lazymatch E with
  | (?e ≫= _) => constr:(e)
  | _ => constr:(E)
  end.

(** The steps on the functions that [svd] is made of, from their lemmas. *)
Ltac buffers_hook n m := fail.

(** Runs a computation of [svd] that stays inside the bounds to its end. *)
Ltac buffers_run n m :=
  cbv beta iota zeta;
  lazymatch goal with
  | |- ∃ t', Ok _ = Ok t' ∧ _ => eexists; split; [reflexivity | buffers_side]
  | |- ∃ t', (let '(_, _) := ?p in _) = Ok t' ∧ _ => destruct p; buffers_run n m
  | |- ∃ t', ((let '(_, _) := ?p in _) ≫= _) = Ok t' ∧ _ => destruct p; buffers_run n m
  | |- ∃ t', ((_ ≫= _) ≫= _) = Ok t' ∧ _ => rewrite bind_assoc; buffers_run n m
  | |- ∃ t', ((if ?b then _ else _) ≫= _) = Ok t' ∧ _ => buffers_if n m b
  | |- ∃ t', (if ?b then _ else _) = Ok t' ∧ _ => buffers_if n m b
  | |- ∃ t', (Ok ?x ≫= _) = Ok t' ∧ _ =>
      rewrite (bind_Ok_l _ _ x eq_refl); buffers_run n m
  | |- ∃ t', (for_up ?lo ?hi ?body ?s ≫= _) = Ok t' ∧ _ =>
      let Inv := buffers_inv n m s in
      let t := fresh "t" in let Hrun := fresh "Hrun" in let Hinv := fresh "Hinv" in
      destruct (for_up_total Inv lo hi body s) as (t & Hrun & Hinv);
      [ buffers_side
      | let j := fresh "j" in let u := fresh "u" in
        let Hj := fresh "Hj" in let Hu := fresh "Hu" in
        intros j u Hj Hu; buffers_pairs u; buffers_run n m
      | rewrite (bind_Ok_l _ _ _ Hrun); clear Hrun;
        buffers_pairs t; buffers_run n m ]
  | |- ∃ t', for_up ?lo ?hi ?body ?s = Ok t' ∧ _ =>
      let Inv := buffers_inv n m s in
      let t := fresh "t" in let Hrun := fresh "Hrun" in let Hinv := fresh "Hinv" in
      destruct (for_up_total Inv lo hi body s) as (t & Hrun & Hinv);
      [ buffers_side
      | let j := fresh "j" in let u := fresh "u" in
        let Hj := fresh "Hj" in let Hu := fresh "Hu" in
        intros j u Hj Hu; buffers_pairs u; buffers_run n m
      | exists t; split; [exact Hrun | buffers_side] ]
  | |- ∃ t', (A_rd ?st ?r ?c ≫= _) = Ok t' ∧ _ =>
      buffers_access n m (A_rd st r c) A_rd_ok; buffers_run n m
  | |- ∃ t', (V_rd ?st ?r ?c ≫= _) = Ok t' ∧ _ =>
      buffers_access n m (V_rd st r c) V_rd_ok; buffers_run n m
  | |- ∃ t', (w_rd ?st ?i ≫= _) = Ok t' ∧ _ =>
      buffers_access n m (w_rd st i) w_rd_ok; buffers_run n m
  | |- ∃ t', (rv1_rd ?st ?i ≫= _) = Ok t' ∧ _ =>
      buffers_access n m (rv1_rd st i) rv1_rd_ok; buffers_run n m
  | |- ∃ t', (A_wr ?st ?r ?c ?x ≫= _) = Ok t' ∧ _ =>
      buffers_access n m (A_wr st r c x) A_wr_ok; buffers_run n m
  | |- ∃ t', (V_wr ?st ?r ?c ?x ≫= _) = Ok t' ∧ _ =>
      buffers_access n m (V_wr st r c x) V_wr_ok; buffers_run n m
  | |- ∃ t', (w_wr ?st ?i ?x ≫= _) = Ok t' ∧ _ =>
      buffers_access n m (w_wr st i x) w_wr_ok; buffers_run n m
  | |- ∃ t', (rv1_wr ?st ?i ?x ≫= _) = Ok t' ∧ _ =>
      buffers_access n m (rv1_wr st i x) rv1_wr_ok; buffers_run n m
  | |- ∃ t', A_wr ?st ?r ?c ?x = Ok t' ∧ _ =>
      buffers_access n m (A_wr st r c x) A_wr_ok; buffers_run n m
  | |- ∃ t', V_wr ?st ?r ?c ?x = Ok t' ∧ _ =>
      buffers_access n m (V_wr st r c x) V_wr_ok; buffers_run n m
  | |- ∃ t', w_wr ?st ?i ?x = Ok t' ∧ _ =>
      buffers_access n m (w_wr st i x) w_wr_ok; buffers_run n m
  | |- ∃ t', rv1_wr ?st ?i ?x = Ok t' ∧ _ =>
      buffers_access n m (rv1_wr st i x) rv1_wr_ok; buffers_run n m
  | |- _ => first [progress (buffers_hook n m); buffers_run n m | idtac]
  end
with buffers_if n m b :=
  lazymatch b with
  | (?x <? ?y)%Z => destruct (Z.ltb_spec x y); buffers_run n m
  | negb (?x =? ?y)%Z => destruct (Z.eqb_spec x y); cbn [negb]; buffers_run n m
  | ((?x <? ?y)%Z && (?x' <? ?y')%Z) =>
      destruct (Z.ltb_spec x y); destruct (Z.ltb_spec x' y'); cbn [andb];
      buffers_run n m
  | _ => destruct b; buffers_run n m
  end.

Section Reduction.

Variables n m : Z.

Lemma householder_col_total (i : Z) (st : svd_state) :
  svd_buffers n m st → 0 ≤ i < n →
  ∃ r, householder_col n m i st = Ok r ∧ svd_buffers n m r.1.1.
Proof.
  intros Hst Hi. unfold householder_col. buffers_run n m.
Qed.

Lemma householder_row_total (i : Z) (st : svd_state) :
  svd_buffers n m st → 0 ≤ i < n →
  ∃ r, householder_row n m i st = Ok r ∧ svd_buffers n m r.1.1.
Proof.
  intros Hst Hi. unfold householder_row. buffers_run n m.
Qed.

Lemma rotate_A_total (p q : Z) (c s : float) (st : svd_state) :
  svd_buffers n m st → 0 ≤ p < n → 0 ≤ q < n →
  ∃ st', rotate_A m p q c s st = Ok st' ∧ svd_buffers n m st'.
Proof.
  intros Hst Hp Hq. unfold rotate_A. buffers_run n m.
Qed.

Lemma rotate_V_total (p q : Z) (c s : float) (st : svd_state) :
  svd_buffers n m st → 0 ≤ p < n → 0 ≤ q < n →
  ∃ st', rotate_V n p q c s st = Ok st' ∧ svd_buffers n m st'.
Proof.
  intros Hst Hp Hq. unfold rotate_V. buffers_run n m.
Qed.

Lemma accumulate_left_step_total (i : Z) (st : svd_state) :
  svd_buffers n m st → 0 ≤ i < n → i < m →
  ∃ st', accumulate_left_step n m i st = Ok st' ∧ svd_buffers n m st'.
Proof.
  intros Hst Hi Him. unfold accumulate_left_step. buffers_run n m.
Qed.

Lemma make_nonneg_total (k : Z) (z : float) (st : svd_state) :
  svd_buffers n m st → 0 ≤ k < n →
  ∃ st', make_nonneg n k z st = Ok st' ∧ svd_buffers n m st'.
Proof.
  intros Hst Hk. unfold make_nonneg. buffers_run n m.
Qed.

End Reduction.

Ltac buffers_call lem :=
  let r := fresh "r" in let Hrun := fresh "Hrun" in let Hr := fresh "Hr" in
  destruct lem as (r & Hrun & Hr);
  [ first [buffers_side | lia] ..
  | first [rewrite (bind_Ok_l _ _ _ Hrun) | rewrite Hrun]; clear Hrun;
    buffers_pairs r ].

Ltac buffers_hook n m ::=
  lazymatch goal with
  | |- ∃ t', ?E = Ok t' ∧ _ =>
      let e := buffers_head E in
      lazymatch e with
      | rotate_A _ ?p ?q ?c ?s ?st => buffers_call (rotate_A_total n m p q c s st)
      | rotate_V _ ?p ?q ?c ?s ?st => buffers_call (rotate_V_total n m p q c s st)
      | householder_col _ _ ?i ?st => buffers_call (householder_col_total n m i st)
      | householder_row _ _ ?i ?st => buffers_call (householder_row_total n m i st)
      | make_nonneg _ ?k ?z ?st => buffers_call (make_nonneg_total n m k z st)
      end
  end.

Section Phases.

Variable hypot : float → float → float.
Variables n m : Z.

Lemma householder_step_total (i : Z) (acc : svd_state * float * float * float) :
  svd_buffers n m acc.1.1.1 → 0 ≤ i < n →
  ∃ r, householder_step n m i acc = Ok r ∧ svd_buffers n m r.1.1.1.
Proof.
  intros Hst Hi. unfold householder_step. buffers_run n m.
Qed.

Lemma qr_step_total (i1 : Z) (acc : svd_state * float * float * float * float) :
  svd_buffers n m acc.1.1.1.1 → 0 ≤ i1 → i1 + 1 < n →
  ∃ r, qr_step hypot n m i1 acc = Ok r ∧ svd_buffers n m r.1.1.1.1.
Proof.
  intros Hst Hi Hi1. unfold qr_step. buffers_run n m.
Qed.

End Phases.

Ltac buffers_hook n m ::=
  lazymatch goal with
  | |- ∃ t', ?E = Ok t' ∧ _ =>
      let e := buffers_head E in
      lazymatch e with
      | rotate_A _ ?p ?q ?c ?s ?st => buffers_call (rotate_A_total n m p q c s st)
      | rotate_V _ ?p ?q ?c ?s ?st => buffers_call (rotate_V_total n m p q c s st)
      | householder_col _ _ ?i ?st => buffers_call (householder_col_total n m i st)
      | householder_row _ _ ?i ?st => buffers_call (householder_row_total n m i st)
      | make_nonneg _ ?k ?z ?st => buffers_call (make_nonneg_total n m k z st)
      | qr_step ?h _ _ ?i ?acc => buffers_call (qr_step_total h n m i acc)
      end
  end.

Section Sweep.

Variable hypot : float → float → float.
Variables n m : Z.

Lemma qr_sweep_total (k l : Z) (z : float) (st : svd_state) :
  svd_buffers n m st → 0 ≤ l → l < k → k < n →
  ∃ st', qr_sweep hypot n m k l z st = Ok st' ∧ svd_buffers n m st'.
Proof.
  intros Hst Hl Hlk Hk. unfold qr_sweep. buffers_run n m.
Qed.

End Sweep.

(** ** svd: the entries of rv1 that the reduction leaves at zero *)

Lemma rv1_wr_lookup_ne (st st' : svd_state) (i : Z) (x : float) (k : nat) :
  rv1_wr st i x = Ok st' → Z.of_nat k ≠ i → s_rv1 st' !! k = s_rv1 st !! k.
Proof.
  unfold rv1_wr. intros H Hi. inv_res. apply wr_Ok in H0 as [Hr ->]. simpl.
  apply list_lookup_insert_ne. lia.
Qed.

Lemma rv1_wr_lookup_eq (st st' : svd_state) (i : Z) (x : float) :
  rv1_wr st i x = Ok st' → s_rv1 st' !! Z.to_nat i = Some x.
Proof.
  unfold rv1_wr. intros H. inv_res. apply wr_Ok in H0 as [Hr ->]. simpl.
  apply list_lookup_insert_eq. lia.
Qed.

(** The row part of step [i] writes [rv1] above the index [i] only. *)
Lemma householder_row_rv1_below (n m i : Z) (st st' : svd_state) (g scale : float)
    (k : nat) :
  Z.of_nat k ≤ i → householder_row n m i st = Ok (st', g, scale) →
  s_rv1 st' !! k = s_rv1 st !! k.
Proof.
  unfold householder_row. intros Hi H.
  destruct ((i <? m) && (i <? n - 1)); [|inversion H; reflexivity].
  apply bind_Ok in H as (sc & _ & H).
  destruct (negb _); [|inversion H; reflexivity].
  apply bind_Ok in H as ([sta s] & Ha & H).
  apply bind_Ok in H as (f & _ & H).
  apply bind_Ok in H as (stb & Hb & H).
  apply bind_Ok in H as (stc & Hc & H).
  apply bind_Ok in H as (std & Hd & H).
  apply bind_Ok in H as (ste & He & H). inversion H; subst; clear H.
  assert (Ea : s_rv1 sta = s_rv1 st).
  { apply (for_up_same (λ t, s_rv1 t.1) _ _ _ _ _ Ha).
    intros j [t s1] [t' s2] _ Hstep. same_rv1. }
  assert (Eb : s_rv1 stb = s_rv1 sta) by same_rv1.
  assert (Ec : s_rv1 stc !! k = s_rv1 stb !! k).
  { apply (for_up_same (λ t, s_rv1 t !! k) _ _ _ _ _ Hc).
    intros j u u' Hj Hstep. apply bind_Ok in Hstep as (a & _ & Hstep).
    apply (rv1_wr_lookup_ne _ _ _ _ _ Hstep). lia. }
  assert (Ed : s_rv1 std = s_rv1 stc).
  { apply (for_up_same s_rv1 _ _ _ _ _ Hd).
    intros j t t' _ Hstep. apply bind_Ok in Hstep as (s1 & _ & Hstep).
    apply (for_up_same s_rv1 _ _ _ _ _ Hstep). intros j' u u' _ Hk. same_rv1. }
  assert (Ee : s_rv1 st' = s_rv1 std).
  { apply (for_up_same s_rv1 _ _ _ _ _ He). intros j u u' _ Hk. same_rv1. }
  congruence.
Qed.

(** From the row [m] on there is no row part: [g] and [scale] stay [0.0]. *)
Lemma householder_row_skip (n m i : Z) (st : svd_state) :
  m ≤ i → householder_row n m i st = Ok (st, 0%float, 0%float).
Proof.
  intros Hi. unfold householder_row.
  destruct (Z.ltb_spec i m); [lia|]. reflexivity.
Qed.

(** What step [i] of the reduction does to [rv1] and to the values it
    carries. *)
Lemma householder_step_rv1 (n m i : Z) (st st' : svd_state)
    (g scale tst1 g' scale' tst1' : float) :
  0 ≤ i →
  householder_step n m i (st, g, scale, tst1) = Ok (st', g', scale', tst1') →
  (∀ k : nat, Z.of_nat k < i → s_rv1 st' !! k = s_rv1 st !! k)
  ∧ s_rv1 st' !! Z.to_nat i = Some (scale * g)%float
  ∧ (m ≤ i → g' = 0%float ∧ scale' = 0%float).
Proof.
  intros Hi Hstep. unfold householder_step in Hstep.
  apply bind_Ok in Hstep as (s1 & H1 & Hstep).
  apply bind_Ok in Hstep as ([[s2 g2] sc2] & H2 & Hstep).
  apply bind_Ok in Hstep as (s3 & H3 & Hstep).
  apply bind_Ok in Hstep as ([[s4 g4] sc4] & H4 & Hstep).
  apply bind_Ok in Hstep as (wi & _ & Hstep).
  apply bind_Ok in Hstep as (ri & _ & Hstep). inversion Hstep; subst; clear Hstep.
  pose proof (householder_col_rv1 _ _ _ _ _ _ _ H2) as E2.
  pose proof (w_wr_rv1 _ _ _ _ H3) as E3.
  split; [|split].
  - intros k Hk.
    rewrite (householder_row_rv1_below n m i _ _ _ _ k ltac:(lia) H4), E3, E2.
    apply (rv1_wr_lookup_ne _ _ _ _ _ H1). lia.
  - rewrite (householder_row_rv1_below n m i _ _ _ _ (Z.to_nat i) ltac:(lia) H4), E3, E2.
    exact (rv1_wr_lookup_eq _ _ _ _ H1).
  - intros Hm. rewrite (householder_row_skip n m i s3 Hm) in H4.
    inversion H4. auto.
Qed.

(** The reduction returns, with the buffers at their sizes and the entries of
    [rv1] above the index [m] at [0.0]. *)
Lemma householder_total (n m : Z) (st : svd_state) :
  0 < n → svd_buffers n m st →
  ∃ st' g tst1,
    householder n m st = Ok (st', g, tst1)
    ∧ svd_buffers n m st'
    ∧ ∀ k : nat, m < Z.of_nat k < n → s_rv1 st' !! k = Some 0%float.
Proof.
  intros Hn Hst. unfold householder.
  destruct (for_up_inv
    (λ i (acc : svd_state * float * float * float),
       svd_buffers n m acc.1.1.1
       ∧ (m < i → acc.1.1.2 = 0%float ∧ acc.1.2 = 0%float)
       ∧ ∀ k : nat, m < Z.of_nat k < i → s_rv1 acc.1.1.1 !! k = Some 0%float)
    0 n (householder_step n m) (st, 0%float, 0%float, 0%float))
    as ([[[st' g'] sc'] t'] & Hrun & Hb & _ & Hz).
  - lia.
  - simpl. split; [exact Hst|]. split; [auto|]. intros k Hk. lia.
  - intros i [[[s g] sc] t] Hi (Hb & Hc & Hz). simpl in Hb, Hc, Hz.
    destruct (householder_step_total n m i (s, g, sc, t) Hb Hi)
      as ([[[s' g1] sc1] t1] & Hrun & Hb').
    exists (s', g1, sc1, t1). split; [exact Hrun|]. simpl in Hb' |- *.
    destruct (householder_step_rv1 n m i _ _ _ _ _ _ _ _ ltac:(lia) Hrun)
      as (Hbelow & Hat & Hskip).
    split; [exact Hb'|]. split; [intros Hm; apply Hskip; lia|].
    intros k Hk. destruct (decide (Z.of_nat k = i)) as [<-|Hne].
    + rewrite Nat2Z.id in Hat. rewrite Hat.
      destruct (Hc ltac:(lia)) as [-> ->]. reflexivity.
    + rewrite Hbelow by lia. apply Hz. lia.
  - rewrite Hrun. simpl. exists st', g', t'. auto.
Qed.

(** ** svd: the accumulation of the transformations *)

Section Accumulate.

Variables n m : Z.

(** Step [i] of the accumulation of the right-hand transformations reads row
    [i] of [A] when [g] is not zero: there has to be such a row. *)
Lemma accumulate_right_step_total (i : Z) (st : svd_state) (g : float) (l : Z) :
  svd_buffers n m st → 0 ≤ i < n → l = i + 1 →
  (i < n - 1 → i < m ∨ g = 0%float) →
  ∃ r, accumulate_right_step n i (st, g, l) = Ok r ∧ svd_buffers n m r.1.1.
Proof.
  intros Hst Hi -> Hg. unfold accumulate_right_step.
  destruct (Z.ltb_spec i (n - 1)) as [Hlt|Hge]; [|buffers_run n m].
  destruct (Hg Hlt) as [Him | ->].
  - buffers_run n m.
  - change (negb (0 =? 0)%float) with false. buffers_run n m.
Qed.

Lemma accumulate_right_step_rv1 (i : Z) (st st' : svd_state) (g g' : float) (l l' : Z) :
  accumulate_right_step n i (st, g, l) = Ok (st', g', l') →
  s_rv1 st' = s_rv1 st ∧ l' = i ∧ rd (s_rv1 st') i = Ok g'.
Proof.
  intros Hstep. unfold accumulate_right_step in Hstep.
  apply bind_Ok in Hstep as (s1 & H1 & Hstep).
  apply bind_Ok in Hstep as (s2 & H2 & Hstep).
  apply bind_Ok in Hstep as (g2 & Hg2 & Hstep).
  assert (Est : s2 = st' ∧ g2 = g' ∧ i = l') by (inversion Hstep; auto).
  clear Hstep. destruct Est as (<- & <- & <-).
  assert (E1 : s_rv1 s1 = s_rv1 st).
  { destruct (i <? n - 1); [|inversion H1; reflexivity].
    apply bind_Ok in H1 as (s0 & H0 & H1).
    assert (E0 : s_rv1 s0 = s_rv1 st).
    { destruct (negb _); [|inversion H0; reflexivity].
      apply bind_Ok in H0 as (sa & Ha & H0).
      assert (Ea : s_rv1 sa = s_rv1 st).
      { apply (for_up_same s_rv1 _ _ _ _ _ Ha). intros j u u' _ Hj. same_rv1. }
      rewrite <- Ea. apply (for_up_same s_rv1 _ _ _ _ _ H0).
      intros j u u' _ Hj. apply bind_Ok in Hj as (s3 & _ & Hj).
      apply (for_up_same s_rv1 _ _ _ _ _ Hj). intros k v v' _ Hk. same_rv1. }
    rewrite <- E0. apply (for_up_same s_rv1 _ _ _ _ _ H1).
    intros j u u' _ Hj. same_rv1. }
  assert (E2 : s_rv1 s2 = s_rv1 s1) by same_rv1.
  split; [congruence|]. split; [reflexivity | exact Hg2].
Qed.

(** With the entries of [rv1] above [m] at [0.0], the accumulation of the
    right-hand transformations stays inside the buffers. *)
Lemma accumulate_right_total (st : svd_state) (g : float) :
  0 < n → svd_buffers n m st →
  (∀ k : nat, m < Z.of_nat k < n → s_rv1 st !! k = Some 0%float) →
  ∃ st', accumulate_right n st g n = Ok st' ∧ svd_buffers n m st'.
Proof.
  intros Hn Hst Hz. unfold accumulate_right.
  destruct (for_down_inv
    (λ j (acc : svd_state * float * Z),
       svd_buffers n m acc.1.1 ∧ acc.2 = j + 1 ∧ s_rv1 acc.1.1 = s_rv1 st
       ∧ (j < n - 1 → s_rv1 st !! Z.to_nat (j + 1) = Some acc.1.2))
    (n - 1) 0 (accumulate_right_step n) (st, g, n))
    as ([[st' g'] l'] & Hrun & Hb & _).
  - lia.
  - simpl. split; [exact Hst|]. split; [lia|]. split; [reflexivity | lia].
  - intros j [[s g0] l0] Hj (Hb & Hl & Hrv & Hg). simpl in Hb, Hl, Hrv, Hg.
    destruct (accumulate_right_step_total j s g0 l0 Hb ltac:(lia) Hl)
      as ([[s' g1] l1] & Hrun & Hb').
    { intros Hlt. destruct (Z.lt_ge_cases j m) as [Hjm|Hjm]; [left; exact Hjm|].
      right. specialize (Hg Hlt).
      rewrite (Hz (Z.to_nat (j + 1))) in Hg by lia. congruence. }
    exists (s', g1, l1). split; [exact Hrun|]. simpl in Hb' |- *.
    destruct (accumulate_right_step_rv1 j _ _ _ _ _ _ Hrun) as (E & -> & Hg1).
    split; [exact Hb'|]. split; [lia|]. split; [congruence|].
    intros _. apply rd_Ok in Hg1 as [_ Hg1].
    replace (j - 1 + 1) with j by lia. rewrite <- Hrv, <- E. exact Hg1.
  - rewrite Hrun. simpl. exists st'. auto.
Qed.

Lemma accumulate_left_total (st : svd_state) :
  0 < n → 0 < m → svd_buffers n m st →
  ∃ st', accumulate_left n m st = Ok st' ∧ svd_buffers n m st'.
Proof.
  intros Hn Hm Hst. unfold accumulate_left.
  destruct (for_down_inv (λ _, svd_buffers n m)
              (if m <? n then m - 1 else n - 1) 0 (accumulate_left_step n m) st)
    as (st' & Hrun & Hb).
  - destruct (m <? n); lia.
  - exact Hst.
  - intros j t Hj Ht. apply accumulate_left_step_total; [exact Ht| |];
      destruct (Z.ltb_spec m n); lia.
  - exists st'. auto.
Qed.

End Accumulate.

(** ** svd: the diagonalization *)

Section Diagonalization.

Variable hypot : float → float → float.
Variables n m : Z.
Variable tst1 : float.

Lemma cancellation_n_total (l1 : Z) (cnt : nat) :
  ∀ (i : Z) (c s : float) (st : svd_state),
  svd_buffers n m st → 0 ≤ l1 < n → 0 ≤ i → i + Z.of_nat cnt ≤ n →
  ∃ st', cancellation_n hypot cnt m l1 i tst1 c s st = Ok st' ∧ svd_buffers n m st'.
Proof.
  induction cnt as [|cnt IH]; intros i c s st Hst Hl1 Hi Hcnt; simpl.
  - exists st. auto.
  - buffers_run n m. apply IH; [exact Hr | lia ..].
Qed.

(** The state a pass ends in. *)
Lemma sweep_total (k : Z) (st : svd_state) :
  svd_buffers n m st → 0 ≤ k < n →
  s_rv1 st !! O = Some 0%float → is_nan tst1 = false →
  ∃ p, sweep hypot n m k tst1 st = Ok p
    ∧ match p with Continue st' | Break st' =>
        svd_buffers n m st' ∧ s_rv1 st' !! O = Some 0%float end.
Proof.
  intros Hst Hk H0 Ht.
  assert (Hlen : length (s_rv1 st) = Z.to_nat n) by apply Hst.
  assert (Hlw : (Z.to_nat n ≤ length (s_w st))%nat) by apply Hst.
  destruct (split_search_in_bounds k tst1 st) as (l & l1 & dc & Hsplit & Hl & Hdc).
  { apply rd_Ok. split; [lia | exact H0]. }
  { exact Ht. }
  { lia. }
  { lia. }
  assert (Hex : ∃ p, sweep hypot n m k tst1 st = Ok p
                  ∧ match p with Continue st' | Break st' => svd_buffers n m st' end).
  { unfold sweep. rewrite (bind_Ok_l _ _ _ Hsplit). cbv beta iota.
    assert (Hc : ∃ sta, (if dc then cancellation hypot m k l l1 tst1 st else Ok st) = Ok sta
                   ∧ svd_buffers n m sta).
    { destruct dc; [|exists st; auto].
      destruct (Hdc eq_refl) as [Hl1 ->]. unfold cancellation.
      apply cancellation_n_total; [exact Hst | lia ..]. }
    destruct Hc as (sta & Hsta & Hba). rewrite (bind_Ok_l _ _ _ Hsta).
    buffers_run n m.
    - destruct (qr_sweep_total hypot n m k l (vget (s_w sta) k) sta Hba)
        as (stb & Hstb & Hbb); [lia ..|].
      rewrite (bind_Ok_l _ _ _ Hstb). eexists. split; [reflexivity | exact Hbb]. }
  destruct Hex as (p & Hp & Hb). exists p. split; [exact Hp|].
  pose proof (sweep_rv1 hypot n m tst1 k st p ltac:(lia) H0 Hp) as Hr.
  destruct p; auto.
Qed.

(** The [while (1)] loop converges or quits. *)
Lemma sweeps_total (k : Z) (fuel : nat) :
  ∀ (its : Z) (st : svd_state),
  svd_buffers n m st → 0 ≤ k < n →
  s_rv1 st !! O = Some 0%float → is_nan tst1 = false →
  (∃ st', sweeps hypot fuel its n m k tst1 st = Ok st'
     ∧ svd_buffers n m st' ∧ s_rv1 st' !! O = Some 0%float)
  ∨ sweeps hypot fuel its n m k tst1 st = Err NonConvergence.
Proof.
  induction fuel as [|fuel IH]; intros its st Hst Hk H0 Ht; simpl; [right; reflexivity|].
  destruct (its + 1 >? SVD_NMAX); [right; reflexivity|].
  destruct (sweep_total k st Hst Hk H0 Ht) as (p & Hp & Hpost).
  rewrite (bind_Ok_l _ _ _ Hp). destruct p as [st'|st'].
  - destruct Hpost as [Hb Hr]. apply IH; assumption.
  - left. exists st'. split; [reflexivity | exact Hpost].
Qed.

Lemma diagonalize_from_total (cnt : nat) :
  ∀ (hi : Z) (st : svd_state),
  svd_buffers n m st → hi < n → 0 ≤ hi - Z.of_nat cnt + 1 →
  s_rv1 st !! O = Some 0%float → is_nan tst1 = false →
  (∃ st', ford_n cnt hi (diagonalize_k hypot n m tst1) st = Ok st'
     ∧ svd_buffers n m st')
  ∨ ford_n cnt hi (diagonalize_k hypot n m tst1) st = Err NonConvergence.
Proof.
  induction cnt as [|cnt IH]; intros hi st Hst Hhi Hlo H0 Ht; simpl.
  - left. exists st. auto.
  - destruct (sweeps_total hi (Z.to_nat (SVD_NMAX + 1)) 0 st Hst ltac:(lia) H0 Ht)
      as [(st' & Hrun & Hb & Hr) | Herr].
    + rewrite (bind_Ok_l _ _ st' (Hrun : diagonalize_k hypot n m tst1 hi st = Ok st')).
      apply IH; [exact Hb | lia | lia | exact Hr | exact Ht].
    + rewrite (Herr : diagonalize_k hypot n m tst1 hi st = Err NonConvergence).
      right. reflexivity.
Qed.

(** A threshold that is not a number is equal to nothing. *)
Lemma add_nan_eqb (x t : float) : is_nan t = true → (x + t =? t)%float = false.
Proof.
  intros Ht. rewrite FloatAxioms.eqb_spec.
  assert (E : Prim2SF t = S754_nan).
  { destruct (Prim2SF t) eqn:E; try reflexivity;
      assert (Hn : is_nan t = false) by (apply is_nan_spec; rewrite E; discriminate);
      rewrite Hn in Ht; discriminate. }
  rewrite E. unfold SFeqb. destruct (Prim2SF (x + t)); reflexivity.
Qed.

(** With such a threshold no test of the search for a split holds: the search
    goes down to [l = 0] and reads [w[-1]]. *)
Lemma split_search_nan (k : Z) (st : svd_state) :
  svd_buffers n m st → 0 ≤ k < n → is_nan tst1 = true →
  split_search k tst1 st = Err OutOfBounds.
Proof.
  intros Hst Hk Ht. unfold split_search.
  assert (Hgen : ∀ (cnt : nat) (l l1 : Z),
            Z.of_nat cnt = l + 1 → 0 ≤ l ≤ k →
            split_search_n cnt l l1 tst1 st = Err OutOfBounds).
  { induction cnt as [|cnt IH]; intros l l1 Hcnt Hl; [lia|]. simpl.
    rewrite (bind_Ok_l _ _ _ (rv1_rd_ok n m st l Hst ltac:(lia))).
    rewrite (add_nan_eqb _ _ Ht).
    destruct (decide (l = 0)) as [->|Hne]; [reflexivity|].
    rewrite (bind_Ok_l _ _ _ (w_rd_ok n m st (l - 1) Hst ltac:(lia))).
    rewrite (add_nan_eqb _ _ Ht). apply IH; lia. }
  apply Hgen; lia.
Qed.

Lemma diagonalize_nan (st : svd_state) :
  0 < n → svd_buffers n m st → is_nan tst1 = true →
  diagonalize hypot n m tst1 st = Err OutOfBounds.
Proof.
  intros Hn Hst Ht. unfold diagonalize, for_down.
  replace (Z.to_nat (n - 1 - 0 + 1)) with (S (Z.to_nat (n - 1))) by lia. simpl.
  assert (E : diagonalize_k hypot n m tst1 (n - 1) st = Err OutOfBounds).
  { unfold diagonalize_k.
    change (Z.to_nat (SVD_NMAX + 1)) with (S (Z.to_nat SVD_NMAX)). simpl.
    unfold sweep. rewrite (split_search_nan (n - 1) st Hst ltac:(lia) Ht). reflexivity. }
  rewrite E. reflexivity.
Qed.

End Diagonalization.

(** ** svd: how it ends *)

Section Ends.

Variable hypot : float → float → float.
Variables (A : matrix) (n m : Z) (w : vec) (V : matrix).
Hypothesis Hn : 0 < n.
Hypothesis Hm : 0 < m.
Hypothesis HA : shape A m n.
Hypothesis Hw : (Z.to_nat n ≤ length w)%nat.
Hypothesis HV : shape V n n.

Lemma buffers_init :
  svd_buffers n m (SvdState A w V (replicate (Z.to_nat n) 0%float)).
Proof.
  split; [exact HA|]. split; [exact Hw|]. split; [exact HV|].
  simpl. apply length_replicate.
Qed.

(** The three phases before the diagonalization return. *)
Lemma svd_phases_total :
  ∃ st0 g tst1 st1 st2,
    householder n m (SvdState A w V (replicate (Z.to_nat n) 0%float)) = Ok (st0, g, tst1)
    ∧ accumulate_right n st0 g n = Ok st1
    ∧ accumulate_left n m st1 = Ok st2
    ∧ svd_buffers n m st2
    ∧ s_rv1 st2 !! O = Some 0%float.
Proof.
  destruct (householder_total n m _ Hn buffers_init) as (st0 & g & tst1 & Hh & Hb0 & Hz).
  destruct (accumulate_right_total n m st0 g Hn Hb0 Hz) as (st1 & Hr & Hb1).
  destruct (accumulate_left_total n m st1 Hn Hm Hb1) as (st2 & Hl & Hb2).
  exists st0, g, tst1, st1, st2. repeat (split; [assumption|]).
  rewrite (accumulate_left_rv1 _ _ _ _ Hl), (accumulate_right_rv1 _ _ _ _ _ Hr).
  exact (householder_rv1 n m _ _ _ _ Hn Hh).
Qed.

(** The three ways [svd] ends in, by the threshold [tst1]. *)
Lemma svd_cases :
  ∃ st0 g tst1,
    householder n m (SvdState A w V (replicate (Z.to_nat n) 0%float)) = Ok (st0, g, tst1)
    ∧ (is_nan tst1 = true → svd hypot A n m w V = Err OutOfBounds)
    ∧ (is_nan tst1 = false →
         (∃ out, svd hypot A n m w V = Ok out ∧ svd_buffers n m out)
         ∨ svd hypot A n m w V = Err NonConvergence).
Proof.
  destruct svd_phases_total as (st0 & g & tst1 & st1 & st2 & Hh & Hr & Hl & Hb & H0).
  exists st0, g, tst1. split; [exact Hh|].
  assert (E : svd hypot A n m w V = diagonalize hypot n m tst1 st2).
  { unfold svd. destruct (Z.ltb_spec 0 m); [|lia]. destruct (Z.ltb_spec 0 n); [|lia].
    simpl. rewrite Hh. simpl. rewrite Hr. simpl. rewrite Hl. reflexivity. }
  rewrite E. split.
  - intros Ht. apply (diagonalize_nan hypot n m tst1 st2 Hn Hb Ht).
  - intros Ht. unfold diagonalize, for_down.
    apply (diagonalize_from_total hypot n m tst1); [exact Hb | lia | lia | exact H0 | exact Ht].
Qed.

End Ends.

(** X5. On buffers of the sizes that [svd] expects ([A] of [m] rows and [n]
    columns, [w] of [n] entries at least, [V] of [n] rows and [n] columns),
    the three phases before the diagonalization always return, whatever the
    entries are: none of their accesses is outside a buffer, and the buffers
    keep their sizes. *)
Theorem svd_reduction_in_bounds (hypot : float → float → float)
    (A : matrix) (n m : Z) (w : vec) (V : matrix) :
  0 < n → 0 < m → shape A m n → (Z.to_nat n ≤ length w)%nat → shape V n n →
  ∃ tst1 st,
    svd_reaches hypot A n m w V (n - 1) tst1 st ∧ svd_buffers n m st.
Proof.
  intros Hn Hm HA Hw HV.
  destruct (svd_phases_total A n m w V Hn Hm HA Hw HV)
    as (st0 & g & tst1 & st1 & st2 & Hh & Hr & Hl & Hb & _).
  exists tst1, st2. split; [|exact Hb].
  split; [exact Hm|]. split; [exact Hn|]. exists st0, g, st1, st2.
  repeat (split; [assumption|]).
  unfold for_down. replace (Z.to_nat (n - 1 - (n - 1 + 1) + 1)) with O by lia.
  reflexivity.
Qed.

Lemma svd_reduction_in_bounds_witness :
  ∃ tst1 st,
    svd_reaches hypot_plain row_A 3 1 zero_w3 zero_V3 (3 - 1) tst1 st
    ∧ svd_buffers 3 1 st.
Proof.
  apply (svd_reduction_in_bounds hypot_plain row_A 3 1 zero_w3 zero_V3).
  - lia.
  - lia.
  - apply shapeb_shape. reflexivity.
  - simpl. lia.
  - apply shapeb_shape. reflexivity.
Defined.

(** X6. When the Householder reduction returns, [rv1[k]] is [0.0] for every
    [k] above [m]: the steps from [m] on have no row part.  The accumulation
    of the right-hand transformations relies on it, which reads row [i] of
    [A] only when [rv1[i + 1]] is not zero. *)
Theorem householder_rv1_above_m (n m : Z) (st st' : svd_state) (g tst1 : float) :
  0 < n → 0 < m → svd_buffers n m st →
  householder n m st = Ok (st', g, tst1) →
  ∀ k, m < k < n → rd (s_rv1 st') k = Ok 0%float.
Proof.
  intros Hn Hm Hst Hh k Hk.
  destruct (householder_total n m st Hn Hst) as (st'' & g' & t' & Hh' & _ & Hz).
  rewrite Hh in Hh'. inversion Hh'; subst.
  apply rd_Ok. split; [lia|]. apply Hz. lia.
Qed.

Lemma householder_rv1_above_m_witness :
  ∃ st' g tst1,
    householder 3 1 (SvdState row_A zero_w3 zero_V3 [1; 1; 1]%float) = Ok (st', g, tst1)
    ∧ rd (s_rv1 st') 2 = Ok 0%float.
Proof.
  eexists _, _, _. split.
  - vm_compute. reflexivity.
  - eapply (householder_rv1_above_m 3 1
              (SvdState row_A zero_w3 zero_V3 [1; 1; 1]%float)).
    + lia.
    + lia.
    + split; [apply shapeb_shape; reflexivity|]. split; [simpl; lia|].
      split; [apply shapeb_shape; reflexivity | reflexivity].
    + vm_compute. reflexivity.
    + lia.
Defined.

(** X7. On buffers of the expected sizes, [svd] reads outside a buffer exactly
    when the threshold [tst1] that the Householder reduction ends with is not
    a number: then the first search for a split runs down to [w[-1]]. *)
Theorem svd_out_of_bounds_iff_nan (hypot : float → float → float)
    (A : matrix) (n m : Z) (w : vec) (V : matrix)
    (st0 : svd_state) (g tst1 : float) :
  0 < n → 0 < m → shape A m n → (Z.to_nat n ≤ length w)%nat → shape V n n →
  householder n m (SvdState A w V (replicate (Z.to_nat n) 0%float)) = Ok (st0, g, tst1) →
  svd hypot A n m w V = Err OutOfBounds ↔ is_nan tst1 = true.
Proof.
  intros Hn Hm HA Hw HV Hh.
  destruct (svd_cases hypot A n m w V Hn Hm HA Hw HV)
    as (st0' & g' & tst1' & Hh' & Hnan & Hnum).
  rewrite Hh in Hh'. inversion Hh'; subst st0' g' tst1'. split.
  - intros Herr. destruct (is_nan tst1); [reflexivity|].
    destruct (Hnum eq_refl) as [(out & Hout & _) | Hquit]; congruence.
  - exact Hnan.
Qed.

Lemma svd_out_of_bounds_iff_nan_witness :
  svd hypot_plain big_A 1 2 [0]%float [[0]]%float = Err OutOfBounds
  ↔ is_nan nan = true.
Proof.
  eapply (svd_out_of_bounds_iff_nan hypot_plain big_A 1 2 [0]%float [[0]]%float).
  - lia.
  - lia.
  - apply shapeb_shape. reflexivity.
  - simpl. lia.
  - apply shapeb_shape. reflexivity.
  - vm_compute. reflexivity.
Defined.

(** X8. When that threshold is a number, [svd] ends in one of two ways: it
    returns, the buffers at their sizes, or it quits for want of convergence.
    It reads and writes inside the buffers throughout. *)
Theorem svd_returns_or_quits (hypot : float → float → float)
    (A : matrix) (n m : Z) (w : vec) (V : matrix)
    (st0 : svd_state) (g tst1 : float) :
  0 < n → 0 < m → shape A m n → (Z.to_nat n ≤ length w)%nat → shape V n n →
  householder n m (SvdState A w V (replicate (Z.to_nat n) 0%float)) = Ok (st0, g, tst1) →
  is_nan tst1 = false →
  (∃ out, svd hypot A n m w V = Ok out ∧ svd_buffers n m out)
  ∨ svd hypot A n m w V = Err NonConvergence.
Proof.
  intros Hn Hm HA Hw HV Hh Ht.
  destruct (svd_cases hypot A n m w V Hn Hm HA Hw HV)
    as (st0' & g' & tst1' & Hh' & _ & Hnum).
  rewrite Hh in Hh'. inversion Hh'; subst st0' g' tst1'.
  exact (Hnum Ht).
Qed.

Lemma svd_returns_or_quits_witness :
  (∃ out, svd hypot_plain diag_A 2 2 zero_w zero_V = Ok out ∧ svd_buffers 2 2 out)
  ∨ svd hypot_plain diag_A 2 2 zero_w zero_V = Err NonConvergence.
Proof.
  eapply (svd_returns_or_quits hypot_plain diag_A 2 2 zero_w zero_V).
  - lia.
  - lia.
  - apply shapeb_shape. reflexivity.
  - simpl. lia.
  - apply shapeb_shape. reflexivity.
  - vm_compute. reflexivity.
  - vm_compute. reflexivity.
Defined.

(** ** svd: the search for a split never leaves through the bottom *)

Section Search.

Variable hypot : float → float → float.
Variables n m : Z.
Variable tst1 : float.
Hypothesis Ht : is_nan tst1 = false.

Lemma diagonalize_from_buffers (cnt : nat) (hi : Z) (st st' : svd_state) :
  svd_buffers n m st → hi < n → 0 ≤ hi - Z.of_nat cnt + 1 →
  s_rv1 st !! O = Some 0%float →
  ford_n cnt hi (diagonalize_k hypot n m tst1) st = Ok st' →
  svd_buffers n m st' ∧ s_rv1 st' !! O = Some 0%float.
Proof.
  intros Hst Hhi Hlo H0 Hrun. split.
  - destruct (diagonalize_from_total hypot n m tst1 cnt hi st Hst Hhi Hlo H0 Ht)
      as [(st'' & Hrun' & Hb) | Herr]; congruence.
  - exact (diagonalize_from_rv1 hypot n m tst1 cnt hi st st' Hlo Hrun H0).
Qed.

Lemma passes_buffers (k : Z) (j : nat) (st st' : svd_state) :
  0 ≤ k < n → passes hypot n m k tst1 j st st' →
  svd_buffers n m st → s_rv1 st !! O = Some 0%float →
  svd_buffers n m st' ∧ s_rv1 st' !! O = Some 0%float.
Proof.
  intros Hk. induction 1 as [st|j st st1 st2 Hstep Hrest IH]; intros Hst H0.
  - auto.
  - destruct (sweep_total hypot n m tst1 k st Hst Hk H0 Ht) as (p & Hp & Hpost).
    rewrite Hstep in Hp. inversion Hp; subst p. destruct Hpost as [Hb Hr].
    apply IH; assumption.
Qed.

End Search.

(** X9. "rv1(1) is always zero, so there is no exit through the bottom of the
    loop": at every search for a split that [svd] gets to, on buffers of the
    expected sizes and with a threshold [tst1] that is a number, [rv1[0]] is
    [0.0]; the search ends at an index [l] from 0 to [k] without reading
    [w[-1]], and it asks for the cancellation only at an index [l >= 1]. *)
Theorem svd_split_search_stops (hypot : float → float → float)
    (A : matrix) (n m : Z) (w : vec) (V : matrix)
    (k : Z) (tst1 : float) (st st' : svd_state) (j : nat) :
  shape A m n → (Z.to_nat n ≤ length w)%nat → shape V n n →
  0 ≤ k < n →
  svd_reaches hypot A n m w V k tst1 st →
  passes hypot n m k tst1 j st st' →
  is_nan tst1 = false →
  rd (s_rv1 st') 0 = Ok 0%float
  ∧ ∃ l l1 docancellation,
      split_search k tst1 st' = Ok (l, l1, docancellation)
      ∧ 0 ≤ l ≤ k
      ∧ (docancellation = true → 1 ≤ l ∧ l1 = l - 1).
Proof.
  intros HA Hw HV Hk Hreach Hp Ht.
  pose proof Hreach as (Hm & Hn & st0 & g & st1 & st2 & Hh & Hr & Hl & Hd).
  destruct (svd_phases_total A n m w V Hn Hm HA Hw HV)
    as (st0' & g' & tst1' & st1' & st2' & Hh' & Hr' & Hl' & Hb & H0).
  rewrite Hh in Hh'. inversion Hh'; subst st0' g' tst1'.
  rewrite Hr in Hr'. inversion Hr'; subst st1'.
  rewrite Hl in Hl'. inversion Hl'; subst st2'.
  unfold for_down in Hd.
  destruct (diagonalize_from_buffers hypot n m tst1 Ht
              (Z.to_nat (n - 1 - (k + 1) + 1)) (n - 1) st2 st Hb
              ltac:(lia) ltac:(lia) H0 Hd) as [Hbk H0k].
  destruct (passes_buffers hypot n m tst1 Ht k j st st' Hk Hp Hbk H0k) as [Hb' H0'].
  assert (Hrd : rd (s_rv1 st') 0 = Ok 0%float).
  { apply rd_Ok. split; [lia | exact H0']. }
  split; [exact Hrd|].
  destruct Hb' as (_ & Hlw & _ & Hlr).
  apply split_search_in_bounds; [exact Hrd | exact Ht | lia | lia].
Qed.

Lemma svd_split_search_stops_witness :
  ∃ tst1 st,
    svd_reaches hypot_plain diag_A 2 2 zero_w zero_V 1 tst1 st
    ∧ rd (s_rv1 st) 0 = Ok 0%float
    ∧ ∃ l l1 docancellation,
        split_search 1 tst1 st = Ok (l, l1, docancellation) ∧ 0 ≤ l ≤ 1.
Proof.
  assert (Hreach : ∃ tst1 st,
            svd_reaches hypot_plain diag_A 2 2 zero_w zero_V 1 tst1 st
            ∧ is_nan tst1 = false).
  { eexists _, _. split; [|shelve].
    split; [lia|]. split; [lia|]. eexists _, _, _, _.
    split; [vm_compute; reflexivity|]. split; [vm_compute; reflexivity|].
    split; [vm_compute; reflexivity|]. vm_compute. reflexivity.
    Unshelve. vm_compute. reflexivity. }
  destruct Hreach as (tst1 & st & Hreach & Ht).
  destruct (svd_split_search_stops hypot_plain diag_A 2 2 zero_w zero_V 1 tst1 st st O)
    as (H0 & l & l1 & dc & Hrun & Hl & _).
  - apply shapeb_shape. reflexivity.
  - simpl. lia.
  - apply shapeb_shape. reflexivity.
  - lia.
  - exact Hreach.
  - apply passes_O.
  - exact Ht.
  - exists tst1, st. split; [exact Hreach|]. split; [exact H0|].
    exists l, l1, dc. auto.
Defined.

(** ** matrix_print *)

(** A loop fails in the first round that fails. *)
Lemma for_n_fail {S} (P : Z → Prop) (e : error) (body : Z → S → res S) (cnt : nat) :
  (∀ j, Decision (P j)) →
  ∀ (i : Z) (s : S),
  (∀ j t, i ≤ j < i + Z.of_nat cnt → P j → ∃ t', body j t = Ok t') →
  (∀ j t, i ≤ j < i + Z.of_nat cnt → ¬ P j → body j t = Err e) →
  (∃ j, i ≤ j < i + Z.of_nat cnt ∧ ¬ P j) →
  for_n cnt i body s = Err e.
Proof.
  intros Hdec. induction cnt as [|cnt IH]; intros i s Hok Herr (j & Hj & Hnot); [lia|].
  simpl. destruct (decide (P i)) as [Hi|Hi].
  - destruct (Hok i s ltac:(lia) Hi) as (t & Ht). rewrite Ht. simpl.
    apply IH.
    + intros j' t' Hj'. apply Hok. lia.
    + intros j' t' Hj'. apply Herr. lia.
    + exists j. split; [|exact Hnot].
      destruct (decide (j = i)) as [->|Hne]; [contradiction | lia].
  - rewrite (Herr i s ltac:(lia) Hi). reflexivity.
Qed.

Lemma for_up_fail {S} (P : Z → Prop) (e : error) (lo hi : Z)
    (body : Z → S → res S) (s : S) :
  (∀ j, Decision (P j)) →
  (∀ j t, lo ≤ j < hi → P j → ∃ t', body j t = Ok t') →
  (∀ j t, lo ≤ j < hi → ¬ P j → body j t = Err e) →
  (∃ j, lo ≤ j < hi ∧ ¬ P j) →
  for_up lo hi body s = Err e.
Proof.
  intros Hdec Hok Herr (j & Hj & Hnot). unfold for_up.
  apply (for_n_fail P e body _ Hdec).
  - intros j' t Hj'. apply Hok. lia.
  - intros j' t Hj'. apply Herr. lia.
  - exists j. split; [lia | exact Hnot].
Qed.

(** A loop that appends one value a round builds the list of the values. *)
Lemma for_up_collect {T} (f : Z → T) (body : Z → list T → res (list T)) (n : Z)
    (l0 : list T) :
  0 ≤ n →
  (∀ i l, 0 ≤ i < n → body i l = Ok (l ++ [f i])) →
  for_up 0 n body l0 = Ok (l0 ++ map f (zrange 0 n)).
Proof.
  intros Hn Hbody.
  destruct (for_up_inv (λ i l, l = l0 ++ map f (zrange 0 i)) 0 n body l0)
    as (l & Hrun & ->).
  - exact Hn.
  - unfold zrange. simpl. rewrite app_nil_r. reflexivity.
  - intros i l Hi ->. eexists. split; [apply Hbody; exact Hi|].
    rewrite zrange_snoc by lia. rewrite map_app, app_assoc. reflexivity.
  - exact Hrun.
Qed.

Lemma length_concat_shape (M : matrix) (cols : Z) :
  ∀ rows, shape M rows cols → 0 ≤ rows →
  Z.of_nat (length (concat M)) = rows * Z.of_nat (Z.to_nat cols).
Proof.
  induction M as [|row M' IH]; intros rows [Hl Hf] Hr.
  - simpl in *. nia.
  - simpl in Hl. inversion Hf as [|? ? Hrow Hrest]; subst.
    simpl. rewrite length_app.
    specialize (IH (rows - 1) ltac:(split; [lia | exact Hrest]) ltac:(lia)). nia.
Qed.

Lemma lookup_concat_shape (M : matrix) (cols : Z) :
  ∀ rows r c, shape M rows cols → 0 ≤ r < rows → 0 ≤ c < cols →
  vget (concat M) (r * cols + c) = mget M r c.
Proof.
  induction M as [|row M' IH]; intros rows r c [Hl Hf] Hr Hc.
  - simpl in Hl. lia.
  - simpl in Hl. inversion Hf as [|? ? Hrow Hrest]; subst.
    unfold vget, mget. simpl concat.
    destruct (decide (r = 0)) as [->|Hne].
    + simpl. rewrite lookup_app_l by lia. reflexivity.
    + rewrite lookup_app_r by nia.
      replace (Z.to_nat (r * cols + c) - length row)%nat
        with (Z.to_nat ((r - 1) * cols + c)) by nia.
      replace (Z.to_nat r) with (S (Z.to_nat (r - 1))) by lia. simpl.
      apply (IH (rows - 1)); [split; [lia | exact Hrest] | lia | exact Hc].
Qed.

Lemma rd_out {T} (a : list T) (i : Z) :
  ¬ (0 ≤ i < Z.of_nat (length a)) → rd a i = Err OutOfBounds.
Proof.
  intros Hi. unfold rd. destruct (Z.ltb_spec i 0); [reflexivity|].
  rewrite (proj2 (lookup_ge_None _ _)); [reflexivity | lia].
Qed.

Lemma rd_Err {T} (a : list T) (i : Z) (e : error) :
  rd a i = Err e → e = OutOfBounds.
Proof.
  unfold rd. destruct (i <? 0); [congruence|].
  destruct (a !! Z.to_nat i); congruence.
Qed.

Section Block.

Variables (M : matrix) (rows cols : Z).
Hypothesis HM : shape M rows cols.
Hypothesis Hrows : 0 ≤ rows.
Hypothesis Hcols : 1 ≤ cols.

Lemma rd_block_in (j i : Z) :
  0 ≤ j < rows → 0 ≤ j * cols + i < rows * cols →
  rd_block M j i = Ok (vget (concat M) (j * cols + i)).
Proof.
  intros Hj Hi. unfold rd_block.
  destruct (shape_row M rows cols j HM Hj) as (row & Hrow & Hlen).
  rewrite (bind_Ok_l _ _ row); [|apply rd_Ok; split; [lia | exact Hrow]].
  rewrite Hlen, Z2Nat.id by lia. apply rd_vget.
  rewrite (length_concat_shape M cols rows HM Hrows). lia.
Qed.

Lemma rd_block_out (j i : Z) :
  ¬ (0 ≤ j < rows ∧ 0 ≤ j * cols + i < rows * cols) →
  rd_block M j i = Err OutOfBounds.
Proof.
  intros Hout. unfold rd_block.
  destruct (rd M j) as [row|e] eqn:Hrow; simpl.
  - pose proof (rd_range _ _ _ Hrow) as Hj. destruct HM as [Hl _].
    destruct (shape_row M rows cols j HM ltac:(lia)) as (row' & Hrow' & Hlen).
    apply rd_Ok in Hrow as [_ Hrow]. rewrite Hrow in Hrow'. inversion Hrow'; subst row'.
    rewrite Hlen, Z2Nat.id by lia. apply rd_out.
    rewrite (length_concat_shape M cols rows HM Hrows). lia.
  - rewrite (rd_Err _ _ _ Hrow). reflexivity.
Qed.

(** A line of [n >= 1] values is read inside the block when its row pointer
    exists and its last value is in the block. *)
Lemma print_line_in (j n : Z) (line : list float) :
  0 ≤ n → 0 ≤ j < rows → j * cols + n ≤ rows * cols →
  for_up 0 n (λ i line, x ← rd_block M j i; Ok (line ++ [printed x])) line
  = Ok (line ++ map (λ i, printed (vget (concat M) (j * cols + i))) (zrange 0 n)).
Proof.
  intros Hn Hj Hend.
  apply (for_up_collect (λ i, printed (vget (concat M) (j * cols + i)))); [exact Hn|].
  intros i l Hi. rewrite rd_block_in by nia. reflexivity.
Qed.

Lemma print_line_out (j n : Z) (line : list float) :
  1 ≤ n → 0 ≤ j → ¬ (j < rows ∧ j * cols + n ≤ rows * cols) →
  for_up 0 n (λ i line, x ← rd_block M j i; Ok (line ++ [printed x])) line
  = Err OutOfBounds.
Proof.
  intros Hn Hj Hout.
  apply (for_up_fail (λ i, j < rows ∧ j * cols + i < rows * cols)).
  - intros i. apply _.
  - intros i l Hi [H1 H2]. rewrite rd_block_in by nia. eexists. reflexivity.
  - intros i l Hi Hnot. rewrite rd_block_out; [reflexivity|]. intros [H1 H2].
    apply Hnot. lia.
  - exists (n - 1). split; [lia|]. intros [H1 H2]. apply Hout. lia.
Qed.

Lemma matrix_print_in (n m : Z) :
  0 ≤ n → 1 ≤ m → m ≤ rows → (m - 1) * cols + n ≤ rows * cols →
  matrix_print n m M = Ok (lines_of (λ j i, vget (concat M) (j * cols + i)) n m).
Proof.
  intros Hn Hm Hmr Hend. unfold matrix_print, lines_of.
  rewrite (for_up_collect
             (λ j, map (λ i, printed (vget (concat M) (j * cols + i))) (zrange 0 n)));
    [reflexivity | lia |].
  intros j out Hj. rewrite print_line_in by nia. reflexivity.
Qed.

Lemma matrix_print_out (n m : Z) :
  1 ≤ n → 1 ≤ m → ¬ (m ≤ rows ∧ (m - 1) * cols + n ≤ rows * cols) →
  matrix_print n m M = Err OutOfBounds.
Proof.
  intros Hn Hm Hout. unfold matrix_print.
  apply (for_up_fail (λ j, j < rows ∧ j * cols + n ≤ rows * cols)).
  - intros j. apply _.
  - intros j out Hj [H1 H2]. rewrite print_line_in by lia. eexists. reflexivity.
  - intros j out Hj Hnot. rewrite print_line_out by (auto; lia). reflexivity.
  - exists (m - 1). split; [lia|]. intros [H1 H2]. apply Hout. lia.
Qed.

End Block.

(** X10. [matrix_print(n, m, A)] reads outside a matrix of [rows] rows of
    [cols] columns exactly when it is asked for more lines than there are
    rows, or when its last line runs past the end of the last row. *)
Theorem matrix_print_out_of_bounds (A : matrix) (rows cols n m : Z) :
  shape A rows cols → 0 ≤ rows → 1 ≤ cols → 1 ≤ n → 1 ≤ m →
  matrix_print n m A = Err OutOfBounds
  ↔ rows < m ∨ rows * cols < (m - 1) * cols + n.
Proof.
  intros HA Hrows Hcols Hn Hm. split.
  - intros Herr.
    destruct (decide (m ≤ rows ∧ (m - 1) * cols + n ≤ rows * cols)) as [[H1 H2]|Hout];
      [|lia].
    rewrite (matrix_print_in A rows cols HA Hrows Hcols n m) in Herr by lia.
    discriminate.
  - intros Hout. apply (matrix_print_out A rows cols HA Hrows Hcols); lia.
Qed.

Lemma matrix_print_out_of_bounds_witness :
  matrix_print 2 2 tie_A = Err OutOfBounds ↔ 1 < 2 ∨ 1 * 2 < (2 - 1) * 2 + 2.
Proof.
  apply (matrix_print_out_of_bounds tie_A 1 2 2 2).
  - apply shapeb_shape. reflexivity.
  - lia.
  - lia.
  - lia.
  - lia.
Defined.

(** X11. Asked for no more lines and columns than the matrix has,
    [matrix_print] returns [m] lines of [n] values: in line [j] at place [i]
    the entry [A[j][i]], or [0.0] when its magnitude is below [SVD_EPS]. *)
Theorem matrix_print_entries (A : matrix) (rows cols n m : Z) :
  shape A rows cols → 1 ≤ n ≤ cols → 1 ≤ m ≤ rows →
  matrix_print n m A = Ok (lines_of (mget A) n m).
Proof.
  intros HA Hn Hm.
  rewrite (matrix_print_in A rows cols HA) by nia.
  f_equal. unfold lines_of. apply map_ext_in. intros j Hj.
  apply map_ext_in. intros i Hi.
  apply list_elem_of_In, elem_of_zrange in Hj. apply list_elem_of_In, elem_of_zrange in Hi.
  rewrite (lookup_concat_shape A cols rows j i HA) by lia. reflexivity.
Qed.

Lemma matrix_print_entries_witness :
  matrix_print 3 2 ex_A = Ok (lines_of (mget ex_A) 3 2).
Proof.
  apply (matrix_print_entries ex_A 2 3 3 2).
  - apply shapeb_shape. reflexivity.
  - lia.
  - lia.
Defined.

(** X12. Asked for more columns than a row has, [matrix_print] runs on into
    the rows that follow: as long as it stays inside the block, line [j]
    holds at place [i] the entry [j * cols + i] of the block, that is
    [A[(j * cols + i) / cols][(j * cols + i) % cols]].  This is what [main]
    prints for the pseudo-inverse of a matrix with fewer rows than columns. *)
Theorem matrix_print_runs_on (A : matrix) (rows cols n m : Z) :
  shape A rows cols → 1 ≤ cols → 1 ≤ n → 1 ≤ m ≤ rows →
  (m - 1) * cols + n ≤ rows * cols →
  matrix_print n m A
  = Ok (lines_of (λ j i, mget A ((j * cols + i) / cols) ((j * cols + i) mod cols)) n m).
Proof.
  intros HA Hcols Hn Hm Hend.
  rewrite (matrix_print_in A rows cols HA) by lia.
  f_equal. unfold lines_of. apply map_ext_in. intros j Hj.
  apply map_ext_in. intros i Hi.
  apply list_elem_of_In, elem_of_zrange in Hj. apply list_elem_of_In, elem_of_zrange in Hi.
  rewrite <- (lookup_concat_shape A cols rows _ _ HA).
  - assert (E : (j * cols + i) / cols * cols + (j * cols + i) mod cols = j * cols + i)
      by (pose proof (Z.div_mod (j * cols + i) cols ltac:(lia)); lia).
    rewrite E. reflexivity.
  - split; [apply Z.div_pos; nia|]. apply Z.div_lt_upper_bound; nia.
  - apply Z.mod_pos_bound. lia.
Qed.

Lemma matrix_print_runs_on_witness :
  matrix_print 3 2 (mset ex_AT 1 0 1%float)
  = Ok (lines_of (λ j i, mget (mset ex_AT 1 0 1%float)
                           ((j * 2 + i) / 2) ((j * 2 + i) mod 2)) 3 2).
Proof.
  apply (matrix_print_runs_on (mset ex_AT 1 0 1%float) 3 2 3 2).
  - apply shapeb_shape. reflexivity.
  - lia.
  - lia.
  - lia.
  - lia.
Defined.

(** ** main: more rows than columns *)

Lemma wr2_Ok (M M' : matrix) (r c : Z) (x : float) :
  wr2 M r c x = Ok M' → M' = mset M r c x.
Proof.
  unfold wr2, mset. intros H.
  apply bind_Ok in H as (row & Hrow & H).
  apply bind_Ok in H as (row' & Hrow' & H).
  apply rd_Ok in Hrow as [_ Hrow]. apply wr_Ok in Hrow' as [_ ->].
  apply wr_Ok in H as [_ ->]. rewrite Hrow. reflexivity.
Qed.

Lemma wr2_Ok_shape (M M' : matrix) (rows cols r c : Z) (x : float) :
  wr2 M r c x = Ok M' → shape M rows cols → shape M' rows cols.
Proof. intros H HM. rewrite (wr2_Ok _ _ _ _ _ H). apply shape_mset. exact HM. Qed.

(** When [svd_sort] returns, [A] has the size it had. *)
Lemma svd_sort_Ok_shape
    (qsort : (indexedvalue → indexedvalue → Z) → list indexedvalue → list indexedvalue)
    (A : matrix) (n m : Z) (w : vec) (V : matrix) (t : triad) :
  svd_sort qsort A n m w V = Ok t → shape (t_A t) m n.
Proof.
  unfold svd_sort. intros H.
  apply bind_Ok in H as (aold & _ & H).
  apply bind_Ok in H as (vold & _ & H).
  apply bind_Ok in H as (wold & _ & H).
  apply bind_Ok in H as (aold' & Hcopy & H).
  apply bind_Ok in H as (vold' & _ & H).
  apply bind_Ok in H as (pos & _ & H).
  apply bind_Ok in H as (p0 & _ & H).
  apply bind_Ok in H as (wmax & _ & H).
  assert (HA : shape A m n).
  { unfold memcpy2d in Hcopy.
    destruct (shapeb aold m n && shapeb A m n) eqn:E; [|discriminate].
    apply andb_true_iff in E as [_ E]. apply shapeb_shape. exact E. }
  apply (for_up_Ok_inv (λ t, shape (t_A t) m n) _ _ _ _ _ H); [exact HA|].
  intros i u u' _ Hstep Hu. unfold sort_column in Hstep.
  apply bind_Ok in Hstep as (p & _ & Hstep).
  apply bind_Ok in Hstep as (x & _ & Hstep).
  apply bind_Ok in Hstep as (w1 & _ & Hstep).
  apply bind_Ok in Hstep as (wi & _ & Hstep).
  apply bind_Ok in Hstep as (w2 & _ & Hstep).
  apply bind_Ok in Hstep as (A' & HA' & Hstep).
  apply bind_Ok in Hstep as (V' & _ & Hstep).
  inversion Hstep; subst u'; clear Hstep. simpl.
  apply (for_up_Ok_inv (λ M, shape M m n) _ _ _ _ _ HA'); [exact Hu|].
  intros j M M' _ Hj HM. apply bind_Ok in Hj as (a & _ & Hj).
  exact (wr2_Ok_shape _ _ _ _ _ _ _ Hj HM).
Qed.

(** When [svd] returns, the buffers have the sizes they had. *)
Lemma svd_Ok_buffers (hypot : float → float → float)
    (A : matrix) (n m : Z) (w : vec) (V : matrix) (out : svd_state) :
  shape A m n → (Z.to_nat n ≤ length w)%nat → shape V n n →
  svd hypot A n m w V = Ok out → svd_buffers n m out.
Proof.
  intros HA Hw HV Hrun.
  pose proof Hrun as Hsz. apply svd_unfold in Hsz as (Hm & Hn & _).
  destruct (svd_cases hypot A n m w V Hn Hm HA Hw HV)
    as (st0 & g & tst1 & _ & Hnan & Hnum).
  destruct (is_nan tst1).
  - rewrite (Hnan eq_refl) in Hrun. discriminate.
  - destruct (Hnum eq_refl) as [(out' & Hout & Hb) | Hquit]; [|congruence].
    rewrite Hrun in Hout. inversion Hout; subst. exact Hb.
Qed.

(** Takes a step of [main] that may fail. *)
Ltac main_step v E :=
  lazymatch goal with
  | |- ∃ e, (?X ≫= _) = Err e =>
      destruct X as [v|?] eqn:E;
      [ rewrite (bind_Ok_l _ _ _ eq_refl); cbv beta zeta
      | eexists; reflexivity ]
  end.

Section MainRows.

Variable hypot : float → float → float.
Variable qsort :
  (indexedvalue → indexedvalue → Z) → list indexedvalue → list indexedvalue.

Lemma main_run_more_rows (n m : Z) (a : list float) :
  1 ≤ n → n < m → ∃ e, main_run hypot qsort n m a = Err e.
Proof.
  intros Hn Hm. unfold main_run.
  destruct (alloc2d_Ok n m Hn ltac:(lia)) as (A0 & EA0 & HA0).
  rewrite (bind_Ok_l _ _ _ EA0). cbv beta zeta.
  main_step AT0 EAT0. main_step p Efill. destruct p as [A1 k].
  assert (HA1 : shape A1 m n).
  { apply (for_up_Ok_inv (λ acc : matrix * Z, shape acc.1 m n) _ _ _ _ _ Efill);
      [exact HA0|].
    intros j acc acc' _ Hrow Hacc.
    apply (for_up_Ok_inv (λ acc : matrix * Z, shape acc.1 m n) _ _ _ _ _ Hrow);
      [exact Hacc|].
    intros i [M k0] [M' k1] _ Hstep HM. simpl in *.
    apply bind_Ok in Hstep as (x1 & _ & Hstep).
    apply bind_Ok in Hstep as (M1 & HM1 & Hstep).
    inversion Hstep; subst. exact (wr2_Ok_shape _ _ _ _ _ _ _ HM1 HM). }
  main_step o1 Eo1.
  destruct (alloc2d_Ok n n Hn Hn) as (V0 & EV0 & HV0).
  rewrite (bind_Ok_l _ _ _ EV0). cbv beta zeta.
  main_step W0 EW0. main_step st Esvd.
  assert (Hst : svd_buffers n m st).
  { refine (svd_Ok_buffers hypot A1 n m _ V0 st HA1 _ HV0 Esvd).
    rewrite length_replicate. destruct (Z.ltb_spec m n); lia. }
  main_step W1 EW1. main_step o2 Eo2. main_step o3 Eo3. main_step o4 Eo4.
  main_step t Esort.
  pose proof (svd_sort_Ok_shape _ _ _ _ _ _ _ Esort) as HA2.
  main_step W2 EW2.
  rewrite (matrix_print_out (t_A t) m n HA2) by lia.
  eexists. reflexivity.
Qed.

End MainRows.


(** ** The errors the functions end in *)

Section Fails.

Variable E : error → Prop.

Lemma fails_only_Ok {T} (x : T) : fails_only E (Ok x).
Proof. intros e H. discriminate. Qed.

Lemma fails_only_Err {T} (e : error) : E e → fails_only E (Err e : res T).
Proof. intros He e' H. inversion H; subst. exact He. Qed.

Lemma fails_only_bind {T U} (r : res T) (f : T → res U) :
  fails_only E r → (∀ x, fails_only E (f x)) → fails_only E (r ≫= f).
Proof.
  intros Hr Hf e H. destruct r as [x|e']; simpl in H.
  - exact (Hf x e H).
  - apply Hr. inversion H. reflexivity.
Qed.

Lemma fails_only_for_n {S} (body : Z → S → res S) (cnt : nat) :
  (∀ j t, fails_only E (body j t)) →
  ∀ i s, fails_only E (for_n cnt i body s).
Proof.
  intros Hb. induction cnt as [|cnt IH]; intros i s; simpl.
  - apply fails_only_Ok.
  - apply fails_only_bind; [apply Hb | intros x; apply IH].
Qed.

Lemma fails_only_for_up {S} (lo hi : Z) (body : Z → S → res S) (s : S) :
  (∀ j t, fails_only E (body j t)) → fails_only E (for_up lo hi body s).
Proof. intros Hb. apply fails_only_for_n. exact Hb. Qed.

Lemma fails_only_ford_n {S} (body : Z → S → res S) (cnt : nat) :
  (∀ j t, fails_only E (body j t)) →
  ∀ i s, fails_only E (ford_n cnt i body s).
Proof.
  intros Hb. induction cnt as [|cnt IH]; intros i s; simpl.
  - apply fails_only_Ok.
  - apply fails_only_bind; [apply Hb | intros x; apply IH].
Qed.

Lemma fails_only_for_down {S} (hi lo : Z) (body : Z → S → res S) (s : S) :
  (∀ j t, fails_only E (body j t)) → fails_only E (for_down hi lo body s).
Proof. intros Hb. apply fails_only_ford_n. exact Hb. Qed.

Hypothesis Hout : E OutOfBounds.

Lemma fails_only_rd {T} (a : list T) (i : Z) : fails_only E (rd a i).
Proof. intros e H. rewrite (rd_Err _ _ _ H). exact Hout. Qed.

Lemma fails_only_wr {T} (a : list T) (i : Z) (x : T) : fails_only E (wr a i x).
Proof.
  intros e H. unfold wr in H. destruct (i <? 0); [inversion H; subst; exact Hout|].
  destruct (_ <? _)%nat; [discriminate | inversion H; subst; exact Hout].
Qed.

Lemma fails_only_rd2 {T} (M : list (list T)) (r c : Z) : fails_only E (rd2 M r c).
Proof.
  unfold rd2. apply fails_only_bind; [apply fails_only_rd | intros; apply fails_only_rd].
Qed.

Lemma fails_only_wr2 {T} (M : list (list T)) (r c : Z) (x : T) :
  fails_only E (wr2 M r c x).
Proof.
  unfold wr2. apply fails_only_bind; [apply fails_only_rd | intros row].
  apply fails_only_bind; [apply fails_only_wr | intros; apply fails_only_wr].
Qed.

Lemma fails_only_memcpy1d {T} (dst src : list T) (n : Z) :
  fails_only E (memcpy1d dst src n).
Proof.
  unfold memcpy1d. destruct (_ && _); [apply fails_only_Ok | apply fails_only_Err, Hout].
Qed.

Lemma fails_only_memcpy2d (dst src : matrix) (rows cols : Z) :
  fails_only E (memcpy2d dst src rows cols).
Proof.
  unfold memcpy2d. destruct (_ && _); [apply fails_only_Ok | apply fails_only_Err, Hout].
Qed.

Lemma fails_only_A_rd st r c : fails_only E (A_rd st r c).
Proof. apply fails_only_rd2. Qed.
Lemma fails_only_V_rd st r c : fails_only E (V_rd st r c).
Proof. apply fails_only_rd2. Qed.
Lemma fails_only_w_rd st i : fails_only E (w_rd st i).
Proof. apply fails_only_rd. Qed.
Lemma fails_only_rv1_rd st i : fails_only E (rv1_rd st i).
Proof. apply fails_only_rd. Qed.
Lemma fails_only_A_wr st r c x : fails_only E (A_wr st r c x).
Proof.
  unfold A_wr. apply fails_only_bind; [apply fails_only_wr2 | intros; apply fails_only_Ok].
Qed.
Lemma fails_only_V_wr st r c x : fails_only E (V_wr st r c x).
Proof.
  unfold V_wr. apply fails_only_bind; [apply fails_only_wr2 | intros; apply fails_only_Ok].
Qed.
Lemma fails_only_w_wr st i x : fails_only E (w_wr st i x).
Proof.
  unfold w_wr. apply fails_only_bind; [apply fails_only_wr | intros; apply fails_only_Ok].
Qed.
Lemma fails_only_rv1_wr st i x : fails_only E (rv1_wr st i x).
Proof.
  unfold rv1_wr. apply fails_only_bind; [apply fails_only_wr | intros; apply fails_only_Ok].
Qed.

End Fails.

Create HintDb fails.
#[local] Hint Resolve fails_only_Ok fails_only_rd fails_only_wr fails_only_rd2
  fails_only_wr2 fails_only_memcpy1d fails_only_memcpy2d
  fails_only_A_rd fails_only_V_rd fails_only_w_rd fails_only_rv1_rd
  fails_only_A_wr fails_only_V_wr fails_only_w_wr fails_only_rv1_wr : fails.

(** Goes through a computation and leaves what the accesses do not settle. *)
Ltac fails_run :=
  cbv beta iota zeta;
  lazymatch goal with
  | |- fails_only _ (_ ≫= _) =>
      apply fails_only_bind; [fails_run | let x := fresh "x" in intros x; fails_run]
  | |- fails_only _ (if ?b then _ else _) => destruct b; fails_run
  | |- fails_only _ (let '(_, _) := ?p in _) => destruct p; fails_run
  | |- fails_only _ (for_up _ _ _ _) =>
      apply fails_only_for_up; intros ? ?; fails_run
  | |- fails_only _ (for_down _ _ _ _) =>
      apply fails_only_for_down; intros ? ?; fails_run
  | |- _ => first [solve [eauto with fails] | idtac]
  end.

Section FailsSvd.

Variable hypot : float → float → float.
Variable E : error → Prop.
Hypothesis Hout : E OutOfBounds.

Lemma fails_only_householder n m st : fails_only E (householder n m st).
Proof.
  unfold householder, householder_step, householder_col, householder_row. fails_run.
Qed.

Lemma fails_only_accumulate_right n st g l : fails_only E (accumulate_right n st g l).
Proof. unfold accumulate_right, accumulate_right_step. fails_run. Qed.

Lemma fails_only_accumulate_left n m st : fails_only E (accumulate_left n m st).
Proof. unfold accumulate_left, accumulate_left_step. fails_run. Qed.

Lemma fails_only_split_search k tst1 st : fails_only E (split_search k tst1 st).
Proof.
  unfold split_search.
  assert (Hgen : ∀ cnt l l1, fails_only E (split_search_n cnt l l1 tst1 st)).
  { induction cnt as [|cnt IH]; intros l l1; simpl; fails_run; try apply IH. }
  apply Hgen.
Qed.

Lemma fails_only_rotate_A m p q c s st : fails_only E (rotate_A m p q c s st).
Proof. unfold rotate_A. fails_run. Qed.

Lemma fails_only_rotate_V n p q c s st : fails_only E (rotate_V n p q c s st).
Proof. unfold rotate_V. fails_run. Qed.

Lemma fails_only_cancellation m k l l1 tst1 st :
  fails_only E (cancellation hypot m k l l1 tst1 st).
Proof.
  unfold cancellation.
  assert (Hgen : ∀ cnt i c s t,
            fails_only E (cancellation_n hypot cnt m l1 i tst1 c s t)).
  { induction cnt as [|cnt IH]; intros i c s t; simpl; fails_run;
      first [apply fails_only_rotate_A | apply IH]. }
  apply Hgen.
Qed.

Lemma fails_only_qr_sweep n m k l z st : fails_only E (qr_sweep hypot n m k l z st).
Proof.
  unfold qr_sweep, qr_step. fails_run;
    first [apply fails_only_rotate_A | apply fails_only_rotate_V].
Qed.

Lemma fails_only_make_nonneg n k z st : fails_only E (make_nonneg n k z st).
Proof. unfold make_nonneg. fails_run. Qed.

Lemma fails_only_sweep n m k tst1 st : fails_only E (sweep hypot n m k tst1 st).
Proof.
  unfold sweep. fails_run;
    first [ apply fails_only_split_search | apply fails_only_cancellation
          | apply fails_only_qr_sweep | apply fails_only_make_nonneg ].
Qed.

Hypothesis Hquit : E NonConvergence.

Lemma fails_only_diagonalize n m tst1 st : fails_only E (diagonalize hypot n m tst1 st).
Proof.
  unfold diagonalize. apply fails_only_for_down. intros k t. unfold diagonalize_k.
  assert (Hgen : ∀ fuel its s, fails_only E (sweeps hypot fuel its n m k tst1 s)).
  { induction fuel as [|fuel IH]; intros its s; simpl.
    - apply fails_only_Err. exact Hquit.
    - destruct (_ >? _); [apply fails_only_Err; exact Hquit|].
      apply fails_only_bind; [apply fails_only_sweep|].
      intros [s'|s']; [apply IH | apply fails_only_Ok]. }
  apply Hgen.
Qed.

End FailsSvd.

Section FailsCallers.

Variable E : error → Prop.
Hypothesis Hout : E OutOfBounds.

Lemma fails_only_alloc2d (n1 n2 : Z) :
  1 ≤ n1 → 1 ≤ n2 → fails_only E (alloc2d n1 n2).
Proof.
  intros H1 H2. destruct (alloc2d_Ok n1 n2 H1 H2) as (M & -> & _).
  apply fails_only_Ok.
Qed.

Lemma fails_only_svd (hypot : float → float → float)
    (A : matrix) (n m : Z) (w : vec) (V : matrix) :
  E NonConvergence → 0 < n → 0 < m → fails_only E (svd hypot A n m w V).
Proof.
  intros Hquit Hn Hm. unfold svd.
  destruct (Z.ltb_spec 0 m); [|lia]. destruct (Z.ltb_spec 0 n); [|lia]. simpl negb.
  fails_run;
    first [ apply fails_only_householder | apply fails_only_accumulate_right
          | apply fails_only_accumulate_left | apply fails_only_diagonalize ];
    assumption.
Qed.

Lemma fails_only_sortvector
    (qsort : (indexedvalue → indexedvalue → Z) → list indexedvalue → list indexedvalue)
    (n : Z) (v : vec) (pos : list Z) :
  fails_only E (sortvector qsort n v pos).
Proof. unfold sortvector. fails_run. Qed.

Lemma fails_only_svd_sort
    (qsort : (indexedvalue → indexedvalue → Z) → list indexedvalue → list indexedvalue)
    (A : matrix) (n m : Z) (w : vec) (V : matrix) :
  1 ≤ n → 1 ≤ m → fails_only E (svd_sort qsort A n m w V).
Proof.
  intros Hn Hm. unfold svd_sort, sort_column.
  fails_run; first [apply fails_only_alloc2d; lia | apply fails_only_sortvector].
Qed.

Lemma fails_only_svd_invs (AT A : matrix) (n m : Z) (w : vec) (V : matrix) :
  1 ≤ n → fails_only E (svd_invs AT A n m w V).
Proof.
  intros Hn. unfold svd_invs, invs_scale, invs_entry, invs_acc.
  fails_run. apply fails_only_alloc2d; lia.
Qed.

Lemma fails_only_matrix_print (n m : Z) (A : matrix) :
  fails_only E (matrix_print n m A).
Proof. unfold matrix_print, rd_block. fails_run. Qed.

End FailsCallers.

Lemma for_up_id {S} (lo hi : Z) (body : Z → S → res S) (s : S) :
  (∀ j t, lo ≤ j < hi → body j t = Ok t) → for_up lo hi body s = Ok s.
Proof.
  intros Hb.
  destruct (for_up_total (λ t, t = s) lo hi body s eq_refl) as (s' & Hrun & ->).
  - intros j t Hj ->. exists s. split; [apply Hb; exact Hj | reflexivity].
  - exact Hrun.
Qed.

(** X17. With [n >= 1] and a number of rows [m] that is not positive,
    [svd_invs] returns without a single division or sum: [AT] is as it was,
    and the scratch copy of [V] is [V]. *)
Theorem svd_invs_no_rows (AT A : matrix) (n m : Z) (w : vec) (V : matrix) :
  1 ≤ n → m ≤ 0 → shape V n n →
  svd_invs AT A n m w V = Ok (InvsState AT A w V V).
Proof.
  intros Hn Hm HV. unfold svd_invs.
  destruct (alloc2d_Ok n n Hn Hn) as (M & EM & HM).
  rewrite (bind_Ok_l _ _ _ EM).
  rewrite (bind_Ok_l _ _ _ (memcpy2d_Ok M V n n HM HV)).
  destruct (Z.ltb_spec n m); [lia|]. cbv zeta.
  rewrite (bind_Ok_l _ _ (InvsState AT A w V V)).
  - apply for_up_id. intros i t _. apply for_up_id. intros j u Hj. lia.
  - apply for_up_id. intros i t Hi. lia.
Qed.

Lemma svd_invs_no_rows_witness :
  svd_invs ex_AT ex_A 3 0 ex_w ex_V = Ok (InvsState ex_AT ex_A ex_w ex_V ex_V).
Proof.
  apply (svd_invs_no_rows ex_AT ex_A 3 0 ex_w ex_V).
  - lia.
  - lia.
  - apply shapeb_shape. reflexivity.
Defined.

(** X18. [svd_invs] writes every entry of [AT] before it reads it: what [AT]
    held before has no part in the result. *)
Theorem svd_invs_overwrites_AT (AT AT' U : matrix) (n m : Z) (w : vec) (V : matrix) :
  1 ≤ n → 1 ≤ m →
  shape AT n m → shape AT' n m → shape U m n → length w = Z.to_nat n → shape V n n →
  ∃ st st', svd_invs AT U n m w V = Ok st
    ∧ svd_invs AT' U n m w V = Ok st'
    ∧ i_AT st = i_AT st' ∧ shape (i_AT st) n m.
Proof.
  intros Hn Hm HAT HAT' HU Hw HV.
  destruct (svd_invs_spec AT U n m w V Hn Hm HAT HU Hw HV)
    as (R & vt & Hrun & Hsh & _ & Hval).
  destruct (svd_invs_spec AT' U n m w V Hn Hm HAT' HU Hw HV)
    as (R' & vt' & Hrun' & Hsh' & _ & Hval').
  eexists _, _. split; [exact Hrun|]. split; [exact Hrun'|]. simpl.
  split; [|exact Hsh].
  apply (matrix_ext R R' n m Hsh Hsh'). intros i j Hi Hj.
  rewrite Hval, Hval' by assumption. reflexivity.
Qed.

Lemma svd_invs_overwrites_AT_witness :
  ∃ st st', svd_invs ex_AT ex_A 3 2 ex_w ex_V = Ok st
    ∧ svd_invs (mset ex_AT 1 0 1%float) ex_A 3 2 ex_w ex_V = Ok st'
    ∧ i_AT st = i_AT st' ∧ shape (i_AT st) 3 2.
Proof.
  apply (svd_invs_overwrites_AT ex_AT (mset ex_AT 1 0 1%float) ex_A 3 2 ex_w ex_V).
  - lia.
  - lia.
  - apply shapeb_shape. reflexivity.
  - apply shapeb_shape. reflexivity.
  - apply shapeb_shape. reflexivity.
  - reflexivity.
  - apply shapeb_shape. reflexivity.
Defined.

(** ** main: how it ends with more rows than columns *)

Lemma fails_only_main_run (hypot : float → float → float)
    (qsort : (indexedvalue → indexedvalue → Z) → list indexedvalue → list indexedvalue)
    (n m : Z) (a : list float) :
  1 ≤ n → 1 ≤ m →
  fails_only (λ e, e = OutOfBounds ∨ e = NonConvergence) (main_run hypot qsort n m a).
Proof.
  intros Hn Hm. unfold main_run, fill_diagonal.
  fails_run;
    first [ apply fails_only_alloc2d; destruct (m <? n); lia
          | apply fails_only_matrix_print
          | apply fails_only_svd; [| |lia|lia]
          | apply fails_only_svd_sort; [|lia|lia]
          | apply fails_only_svd_invs; [|lia] ];
    auto.
Qed.

(** X13. With more rows than columns, [m > n], [main] never gets to its end:
    if nothing fails before, the print of [U] after the sorting,
    [matrix_print(m, m, A)], asks for [m] columns of a matrix that has [n]
    and reads past the end of its last row.  [main] ends in an access outside
    a buffer, or before that in the quit of [svd] for want of convergence. *)
Theorem main_more_rows_than_columns (hypot : float → float → float)
    (qsort : (indexedvalue → indexedvalue → Z) → list indexedvalue → list indexedvalue)
    (n m : Z) (a : list float) :
  1 ≤ n → n < m → Z.of_nat (length a) = m * n →
  ∃ e, main hypot qsort n m a = ExitError e
    ∧ (e = OutOfBounds ∨ e = NonConvergence).
Proof.
  intros Hn Hm Ha. unfold main.
  destruct (Z.ltb_spec (3 + Z.of_nat (length a)) 4); [nia|].
  destruct (Z.leb_spec n 0); [lia|]. destruct (Z.leb_spec m 0); [lia|].
  destruct (Z.eqb_spec (3 + Z.of_nat (length a)) (m * n + 3)); [|lia]. simpl.
  destruct (main_run_more_rows hypot qsort n m a Hn Hm) as (err & Herr).
  rewrite Herr. exists err. split; [reflexivity|].
  exact (fails_only_main_run hypot qsort n m a Hn ltac:(lia) err Herr).
Qed.

Lemma main_more_rows_than_columns_witness :
  ∃ e, main hypot_plain qsort_stable 3 4 usage_args = ExitError e
    ∧ (e = OutOfBounds ∨ e = NonConvergence).
Proof.
  apply (main_more_rows_than_columns hypot_plain qsort_stable 3 4 usage_args).
  - lia.
  - lia.
  - reflexivity.
Defined.

(** ** svd: the threshold of the tests for splitting *)

Lemma for_n_last {S} (body : Z → S → res S) (cnt : nat) :
  ∀ (i : Z) (s : S),
  for_n (cnt + 1) i body s = (for_n cnt i body s ≫= body (i + Z.of_nat cnt)).
Proof.
  induction cnt as [|cnt IH]; intros i s.
  - replace (i + Z.of_nat 0) with i by lia. simpl.
    destruct (body i s); reflexivity.
  - replace (i + Z.of_nat (Datatypes.S cnt)) with (i + 1 + Z.of_nat cnt) by lia.
    change (Datatypes.S cnt + 1)%nat with (Datatypes.S (cnt + 1)). simpl.
    destruct (body i s) as [s1|e]; simpl; [|reflexivity].
    apply IH.
Qed.

Lemma for_up_last {S} (lo hi : Z) (body : Z → S → res S) (s : S) :
  lo < hi → for_up lo hi body s = (for_up lo (hi - 1) body s ≫= body (hi - 1)).
Proof.
  intros H. unfold for_up.
  replace (Z.to_nat (hi - lo)) with (Z.to_nat (hi - 1 - lo) + 1)%nat by lia.
  rewrite for_n_last. replace (lo + Z.of_nat (Z.to_nat (hi - 1 - lo))) with (hi - 1) by lia.
  reflexivity.
Qed.

Lemma ltb_not_nan (x y : float) :
  (x <? y)%float = true → is_nan x = false ∧ is_nan y = false.
Proof.
  intros H. apply leb_not_nan. rewrite leb_spec. rewrite ltb_spec in H.
  unfold SFltb, SFleb in *. destruct (SFcompare _ _) as [[]|]; try discriminate; reflexivity.
Qed.

(** The maximum that the reduction keeps forgets a NaN: [tst1 > tmp] fails
    for a [tst1] that is not a number, and [tmp] takes its place. *)
Lemma max_tst1_nan (tmp tst1 : float) :
  is_nan (if (tmp <? tst1)%float then tst1 else tmp) = is_nan tmp.
Proof.
  destruct (tmp <? tst1)%float eqn:E; [|reflexivity].
  apply ltb_not_nan in E as [-> ->]. reflexivity.
Qed.

(** X19. The threshold [tst1] that the Householder reduction returns is a
    NaN exactly when the last of the sums it is the maximum of,
    [fabs(w[n-1]) + fabs(rv1[n-1])], is one: [tst1 > tmp ? tst1 : tmp] drops
    a NaN that an earlier column left in [tst1]. *)
Theorem householder_tst1_nan (n m : Z) (st st' : svd_state) (g tst1 : float) :
  0 < n → householder n m st = Ok (st', g, tst1) →
  is_nan tst1
  = is_nan (fabs (vget (s_w st') (n - 1)) + fabs (vget (s_rv1 st') (n - 1)))%float.
Proof.
  intros Hn H. unfold householder in H.
  apply bind_Ok in H as ([[[sta ga] sca] ta] & Hloop & H).
  assert (E : sta = st' ∧ ta = tst1) by (inversion H; auto). clear H.
  destruct E as [-> ->].
  rewrite for_up_last in Hloop by lia.
  apply bind_Ok in Hloop as ([[[s0 g0] sc0] t0] & _ & Hstep).
  unfold householder_step in Hstep.
  apply bind_Ok in Hstep as (s1 & _ & Hstep).
  apply bind_Ok in Hstep as ([[s2 g2] sc2] & _ & Hstep).
  apply bind_Ok in Hstep as (s3 & _ & Hstep).
  apply bind_Ok in Hstep as ([[s4 g4] sc4] & _ & Hstep).
  apply bind_Ok in Hstep as (wi & Hwi & Hstep).
  apply bind_Ok in Hstep as (ri & Hri & Hstep).
  assert (E : s4 = st'
              ∧ (if (fabs wi + fabs ri <? t0)%float then t0
                 else (fabs wi + fabs ri)%float) = tst1)
    by (inversion Hstep; auto).
  clear Hstep. destruct E as [-> <-].
  apply rd_Ok in Hwi as [_ Hwi]. apply rd_Ok in Hri as [_ Hri].
  unfold vget. rewrite Hwi, Hri. simpl. apply max_tst1_nan.
Qed.

Lemma householder_tst1_nan_witness :
  ∃ st' g tst1,
    householder 1 2 (SvdState big_A [0]%float [[0]]%float [0]%float) = Ok (st', g, tst1)
    ∧ is_nan tst1 = true
    ∧ is_nan (fabs (vget (s_w st') (1 - 1)) + fabs (vget (s_rv1 st') (1 - 1)))%float = true.
Proof.
  assert (Hrun : ∃ r,
            householder 1 2 (SvdState big_A [0]%float [[0]]%float [0]%float) = Ok r
            ∧ is_nan r.2 = true).
  { eexists. split; vm_compute; reflexivity. }
  destruct Hrun as ([[st' g] tst1] & Hrun & Hnan). simpl in Hnan.
  exists st', g, tst1. split; [exact Hrun|]. split; [exact Hnan|].
  rewrite <- (householder_tst1_nan 1 2 _ _ _ _ ltac:(lia) Hrun). exact Hnan.
Defined.

(** ** svd: the last target index *)

(** X20. The loop of the target index [k = 0] needs no QR pass: when [svd]
    gets as far as this index, on buffers of the expected sizes and with a
    threshold that is a number, the first search for a split stops at
    [l = 0 = k], the pass breaks, and [svd] returns.  Only an index
    [k >= 1] can make [svd] quit for want of convergence. *)
Theorem svd_last_target_converges (hypot : float → float → float)
    (A : matrix) (n m : Z) (w : vec) (V : matrix) (tst1 : float) (st : svd_state) :
  shape A m n → (Z.to_nat n ≤ length w)%nat → shape V n n →
  svd_reaches hypot A n m w V 0 tst1 st →
  is_nan tst1 = false →
  ∃ out, sweep hypot n m 0 tst1 st = Ok (Break out)
    ∧ svd hypot A n m w V = Ok out.
Proof.
  intros HA Hw HV Hreach Ht.
  pose proof Hreach as (Hm & Hn & st0 & g & st1 & st2 & Hh & Hr & Hl & Hd).
  destruct (svd_phases_total A n m w V Hn Hm HA Hw HV)
    as (st0' & g' & tst1' & st1' & st2' & Hh' & Hr' & Hl' & Hb & H0).
  rewrite Hh in Hh'. inversion Hh'; subst st0' g' tst1'.
  rewrite Hr in Hr'. inversion Hr'; subst st1'.
  rewrite Hl in Hl'. inversion Hl'; subst st2'.
  pose proof Hd as Hd'. unfold for_down in Hd'.
  destruct (diagonalize_from_buffers hypot n m tst1 Ht
              (Z.to_nat (n - 1 - (0 + 1) + 1)) (n - 1) st2 st Hb
              ltac:(lia) ltac:(lia) H0 Hd') as [Hbk H0k].
  destruct (split_search_in_bounds 0 tst1 st) as (l & l1 & dc & Hsplit & Hl0 & Hdc).
  { apply rd_Ok. split; [lia | exact H0k]. }
  { exact Ht. }
  { destruct Hbk as (_ & _ & _ & Hlr). lia. }
  { destruct Hbk as (_ & Hlw & _). lia. }
  assert (l = 0) by lia. subst l.
  assert (dc = false) by (destruct dc; [destruct (Hdc eq_refl); lia | reflexivity]).
  subst dc.
  destruct (make_nonneg_total n m 0 (vget (s_w st) 0) st Hbk ltac:(lia))
    as (out & Hout & _).
  assert (Hsweep : sweep hypot n m 0 tst1 st = Ok (Break out)).
  { unfold sweep. rewrite (bind_Ok_l _ _ _ Hsplit). cbv beta iota.
    rewrite (bind_Ok_l _ _ st eq_refl).
    rewrite (bind_Ok_l _ _ _ (w_rd_ok n m st 0 Hbk ltac:(lia))).
    change (negb (0 =? 0)) with false. cbv iota.
    rewrite (bind_Ok_l _ _ _ Hout). reflexivity. }
  exists out. split; [exact Hsweep|].
  unfold svd. destruct (Z.ltb_spec 0 m); [|lia]. destruct (Z.ltb_spec 0 n); [|lia].
  simpl negb. cbv iota.
  rewrite (bind_Ok_l _ _ _ Hh). cbv beta iota.
  rewrite (bind_Ok_l _ _ _ Hr), (bind_Ok_l _ _ _ Hl).
  unfold diagonalize. rewrite (for_down_split (n - 1) 0 0) by lia.
  rewrite (bind_Ok_l _ _ _ Hd).
  assert (Hk : diagonalize_k hypot n m tst1 0 st = Ok out).
  { unfold diagonalize_k.
    change (Z.to_nat (SVD_NMAX + 1)) with (S (Z.to_nat SVD_NMAX)). simpl.
    rewrite Hsweep. reflexivity. }
  rewrite (bind_Ok_l _ _ _ Hk). reflexivity.
Qed.

Lemma svd_last_target_converges_witness :
  ∃ tst1 st out,
    svd_reaches hypot_plain diag_A 2 2 zero_w zero_V 0 tst1 st
    ∧ sweep hypot_plain 2 2 0 tst1 st = Ok (Break out)
    ∧ svd hypot_plain diag_A 2 2 zero_w zero_V = Ok out.
Proof.
  assert (Hreach : ∃ tst1 st,
            svd_reaches hypot_plain diag_A 2 2 zero_w zero_V 0 tst1 st
            ∧ is_nan tst1 = false).
  { eexists _, _. split; [|shelve].
    split; [lia|]. split; [lia|]. eexists _, _, _, _.
    split; [vm_compute; reflexivity|]. split; [vm_compute; reflexivity|].
    split; [vm_compute; reflexivity|]. vm_compute. reflexivity.
    Unshelve. vm_compute. reflexivity. }
  destruct Hreach as (tst1 & st & Hreach & Ht).
  destruct (svd_last_target_converges hypot_plain diag_A 2 2 zero_w zero_V tst1 st)
    as (out & Hsweep & Hrun).
  - apply shapeb_shape. reflexivity.
  - simpl. lia.
  - apply shapeb_shape. reflexivity.
  - exact Hreach.
  - exact Ht.
  - exists tst1, st, out. auto.
Defined.

(** ** svd: the zero matrix *)

Lemma ford_n_id {S} (body : Z → S → res S) (cnt : nat) :
  ∀ (i : Z) (s : S),
  (∀ j, i - Z.of_nat cnt < j ≤ i → body j s = Ok s) → ford_n cnt i body s = Ok s.
Proof.
  induction cnt as [|cnt IH]; intros i s Hb; simpl; [reflexivity|].
  rewrite Hb by lia. simpl. apply IH. intros j Hj. apply Hb. lia.
Qed.

Section ZeroMatrix.

Variable hypot : float → float → float.
Variables n m : Z.
Hypothesis Hn : 0 < n.
Hypothesis Hm : 0 < m.

Lemma householder_col_zero (i : Z) (st : svd_state) :
  svd_buffers n m st → zero_entries (s_A st) m n → 0 ≤ i < n →
  householder_col n m i st = Ok (st, 0%float, 0%float).
Proof.
  intros Hst Hz Hi. unfold householder_col. cbv zeta.
  destruct (Z.ltb_spec i m); [|reflexivity].
  rewrite (bind_Ok_l _ _ 0%float); [reflexivity|].
  destruct (for_up_total (λ s, s = 0%float) i m
              (λ k scale, a ← A_rd st k i; Ok (scale + fabs a)%float) 0%float eq_refl)
    as (s' & Hrun & ->); [|exact Hrun].
  intros k t Hk ->.
  rewrite (bind_Ok_l _ _ _ (A_rd_ok n m st k i Hst ltac:(lia) ltac:(lia))).
  rewrite Hz by lia. eexists. split; reflexivity.
Qed.

Lemma householder_row_zero (i : Z) (st : svd_state) :
  svd_buffers n m st → zero_entries (s_A st) m n → 0 ≤ i < n →
  householder_row n m i st = Ok (st, 0%float, 0%float).
Proof.
  intros Hst Hz Hi. unfold householder_row. cbv zeta.
  destruct (Z.ltb_spec i m); destruct (Z.ltb_spec i (n - 1)); try reflexivity.
  cbn [andb].
  rewrite (bind_Ok_l _ _ 0%float); [reflexivity|].
  destruct (for_up_total (λ s, s = 0%float) (i + 1) n
              (λ k scale, a ← A_rd st i k; Ok (scale + fabs a)%float) 0%float eq_refl)
    as (s' & Hrun & ->); [|exact Hrun].
  intros k t Hk ->.
  rewrite (bind_Ok_l _ _ _ (A_rd_ok n m st i k Hst ltac:(lia) ltac:(lia))).
  rewrite Hz by lia. eexists. split; reflexivity.
Qed.

Lemma householder_step_zero (i : Z) (st : svd_state) :
  svd_buffers n m st → zero_entries (s_A st) m n → 0 ≤ i < n →
  householder_step n m i (st, 0%float, 0%float, 0%float)
  = Ok (w_set (rv1_set st i 0%float) i 0%float, 0%float, 0%float, 0%float).
Proof.
  intros Hst Hz Hi. unfold householder_step.
  change (0 * 0)%float with 0%float.
  rewrite (bind_Ok_l _ _ _ (rv1_wr_ok n m st i _ Hst Hi)).
  pose proof (buffers_rv1_set n m st i 0%float Hst) as Hst1.
  rewrite (bind_Ok_l _ _ _ (householder_col_zero i _ Hst1 Hz Hi)). cbv beta iota.
  change (0 * 0)%float with 0%float.
  rewrite (bind_Ok_l _ _ _ (w_wr_ok n m _ i _ Hst1 Hi)).
  pose proof (buffers_w_set n m _ i 0%float Hst1) as Hst2.
  rewrite (bind_Ok_l _ _ _ (householder_row_zero i _ Hst2 Hz Hi)). cbv beta iota.
  rewrite (bind_Ok_l _ _ _ (w_rd_ok n m _ i Hst2 Hi)).
  rewrite (bind_Ok_l _ _ _ (rv1_rd_ok n m _ i Hst2 Hi)).
  destruct Hst as (_ & Hw & _ & Hr). simpl.
  rewrite !vget_insert by lia. rewrite !decide_True by reflexivity. reflexivity.
Qed.

(** The reduction of a zero matrix: [A] and [V] are as they were, the first
    [n] entries of [w] and [rv1] are [0.0], and so are [g] and [tst1]. *)
Lemma householder_zero (st : svd_state) :
  svd_buffers n m st → zero_entries (s_A st) m n →
  ∃ st', householder n m st = Ok (st', 0%float, 0%float)
    ∧ svd_buffers n m st' ∧ s_A st' = s_A st ∧ s_V st' = s_V st
    ∧ ∀ k, 0 ≤ k < n → vget (s_w st') k = 0%float ∧ vget (s_rv1 st') k = 0%float.
Proof.
  intros Hst Hz. unfold householder.
  destruct (for_up_inv
    (λ i (acc : svd_state * float * float * float),
       ∃ st', acc = (st', 0%float, 0%float, 0%float)
         ∧ svd_buffers n m st' ∧ s_A st' = s_A st ∧ s_V st' = s_V st
         ∧ ∀ k, 0 ≤ k < i → vget (s_w st') k = 0%float ∧ vget (s_rv1 st') k = 0%float)
    0 n (householder_step n m) (st, 0%float, 0%float, 0%float))
    as (acc & Hrun & st' & -> & Hb & HA & HV & Hval).
  - lia.
  - exists st. split; [reflexivity|]. split; [exact Hst|]. split; [reflexivity|].
    split; [reflexivity|]. intros k Hk. lia.
  - intros i acc Hi (st' & -> & Hb & HA & HV & Hval).
    assert (Hz' : zero_entries (s_A st') m n) by (rewrite HA; exact Hz).
    rewrite (householder_step_zero i st' Hb Hz' Hi).
    eexists. split; [reflexivity|]. eexists. split; [reflexivity|].
    split; [apply buffers_w_set, buffers_rv1_set; exact Hb|].
    split; [exact HA|]. split; [exact HV|].
    intros k Hk. destruct Hb as (_ & Hw & _ & Hr). simpl.
    rewrite !vget_insert by lia.
    destruct (decide (k = i)) as [->|Hne]; [auto|]. apply Hval. lia.
  - rewrite Hrun. simpl. exists st'. auto.
Qed.

(** Step [i] of the accumulation of the right-hand transformations with
    [g = 0.0]: row [i] and column [i] of [V] become those of the identity,
    from the diagonal on. *)
Lemma accumulate_right_step_zero (i : Z) (st : svd_state) :
  svd_buffers n m st → 0 ≤ i < n → vget (s_rv1 st) i = 0%float →
  ∃ st', accumulate_right_step n i (st, 0%float, i + 1) = Ok (st', 0%float, i)
    ∧ svd_buffers n m st'
    ∧ s_A st' = s_A st ∧ s_w st' = s_w st ∧ s_rv1 st' = s_rv1 st
    ∧ ∀ r c, 0 ≤ r < n → 0 ≤ c < n →
        mget (s_V st') r c =
        if decide ((r = i ∧ i ≤ c) ∨ (c = i ∧ i ≤ r))
        then (if decide (r = c) then 1%float else 0%float)
        else mget (s_V st) r c.
Proof.
  intros Hst Hi Hrv.
  set (Inv := λ (j : Z) (t : svd_state),
         svd_buffers n m t
         ∧ s_A t = s_A st ∧ s_w t = s_w st ∧ s_rv1 t = s_rv1 st
         ∧ ∀ r c, 0 ≤ r < n → 0 ≤ c < n →
             mget (s_V t) r c =
             if decide ((r = i ∧ i < c < j) ∨ (c = i ∧ i < r < j))
             then 0%float else mget (s_V st) r c).
  assert (Hloop : ∃ t, (if i <? n - 1
                        then st0 ← (if negb (0 =? 0)%float
                                    then Err OutOfBounds else Ok st);
                             for_up (i + 1) n
                               (λ j st, st ← V_wr st i j 0%float; V_wr st j i 0%float) st0
                        else Ok st) = Ok t ∧ Inv n t).
  { destruct (Z.ltb_spec i (n - 1)) as [Hlt|Hge].
    - change (negb (0 =? 0)%float) with false. cbv iota.
      rewrite (bind_Ok_l _ _ st eq_refl).
      apply (for_up_inv Inv); [lia | |].
      + unfold Inv. repeat (split; [auto|]). intros r c Hr Hc.
        rewrite decide_False by lia. reflexivity.
      + intros j t Hj (Hb & HA & Hw & Hr1 & HV).
        rewrite (bind_Ok_l _ _ _ (V_wr_ok n m t i j _ Hb ltac:(lia) ltac:(lia))).
        pose proof (buffers_V_set n m t i j 0%float Hb) as Hb1.
        rewrite (V_wr_ok n m _ j i _ Hb1 ltac:(lia) ltac:(lia)).
        eexists. split; [reflexivity|]. unfold Inv. simpl.
        split; [apply buffers_V_set; exact Hb1|]. repeat (split; [assumption|]).
        intros r c Hr Hc. destruct Hb as (_ & _ & HsV & _).
        rewrite (mget_mset _ n n) by (try apply shape_mset; auto; lia).
        rewrite (mget_mset _ n n) by (auto; lia).
        rewrite HV by assumption.
        repeat case_decide; try reflexivity; lia.
    - exists st. split; [reflexivity|]. unfold Inv. repeat (split; [auto|]).
      intros r c Hr Hc. rewrite decide_False by lia. reflexivity. }
  destruct Hloop as (t & Hrun & Hb & HA & Hw & Hr1 & HV).
  unfold accumulate_right_step.
  rewrite (bind_Ok_l _ _ t Hrun).
  rewrite (bind_Ok_l _ _ _ (V_wr_ok n m t i i _ Hb Hi Hi)).
  pose proof (buffers_V_set n m t i i 1%float Hb) as Hb1.
  rewrite (bind_Ok_l _ _ _ (rv1_rd_ok n m _ i Hb1 Hi)). simpl s_rv1.
  rewrite Hr1, Hrv.
  eexists. split; [reflexivity|]. split; [exact Hb1|]. simpl.
  repeat (split; [assumption|]).
  intros r c Hr Hc. destruct Hb as (_ & _ & HsV & _).
  rewrite (mget_mset _ n n) by (auto; lia). rewrite HV by assumption.
  repeat case_decide; try reflexivity; lia.
Qed.

(** With [rv1] at zero, the accumulation of the right-hand transformations
    leaves the identity in [V]. *)
Lemma accumulate_right_zero (st : svd_state) :
  svd_buffers n m st → (∀ k, 0 ≤ k < n → vget (s_rv1 st) k = 0%float) →
  ∃ st', accumulate_right n st 0%float n = Ok st'
    ∧ svd_buffers n m st'
    ∧ s_A st' = s_A st ∧ s_w st' = s_w st ∧ s_rv1 st' = s_rv1 st
    ∧ unit_diagonal (s_V st') n n.
Proof.
  intros Hst Hrv. unfold accumulate_right.
  destruct (for_down_inv
    (λ j (acc : svd_state * float * Z),
       ∃ t, acc = (t, 0%float, j + 1)
         ∧ svd_buffers n m t
         ∧ s_A t = s_A st ∧ s_w t = s_w st ∧ s_rv1 t = s_rv1 st
         ∧ ∀ r c, j < r < n → j < c < n →
             mget (s_V t) r c = if decide (r = c) then 1%float else 0%float)
    (n - 1) 0 (accumulate_right_step n) (st, 0%float, n))
    as (acc & Hrun & t & -> & Hb & HA & Hw & Hr1 & HV).
  - lia.
  - exists st. split; [f_equal; lia|]. split; [exact Hst|].
    repeat (split; [reflexivity|]). intros r c Hr Hc. lia.
  - intros j acc Hj (t & -> & Hb & HA & Hw & Hr1 & HV).
    destruct (accumulate_right_step_zero j t Hb ltac:(lia))
      as (t' & Hstep & Hb' & HA' & Hw' & Hr' & HV').
    { rewrite Hr1. apply Hrv. lia. }
    exists (t', 0%float, j). split; [exact Hstep|].
    exists t'. split; [f_equal; lia|]. split; [exact Hb'|].
    split; [congruence|]. split; [congruence|]. split; [congruence|].
    intros r c Hr Hc. rewrite HV' by lia.
    case_decide; [reflexivity|]. apply HV; lia.
  - rewrite (bind_Ok_l _ _ _ Hrun). cbv beta iota.
    exists t. split; [reflexivity|]. split; [exact Hb|]. split; [exact HA|].
    split; [exact Hw|]. split; [exact Hr1|].
    intros r c Hr Hc. apply HV; lia.
Qed.

(** A loop that stores [0.0] where [A] holds [0.0] already. *)
Lemma A_zero_loop (rf cf : Z → Z) (f : Z → Z → float) (lo hi : Z) (st : svd_state) :
  svd_buffers n m st →
  (∀ j, lo ≤ j < hi → 0 ≤ rf j < m ∧ 0 ≤ cf j < n ∧ f (rf j) (cf j) = 0%float) →
  (∀ r c, 0 ≤ r < m → 0 ≤ c < n → mget (s_A st) r c = f r c) →
  ∃ st', for_up lo hi (λ j st, A_wr st (rf j) (cf j) 0%float) st = Ok st'
    ∧ svd_buffers n m st'
    ∧ s_w st' = s_w st ∧ s_V st' = s_V st ∧ s_rv1 st' = s_rv1 st
    ∧ ∀ r c, 0 ≤ r < m → 0 ≤ c < n → mget (s_A st') r c = f r c.
Proof.
  intros Hst Hpos Hval.
  apply (for_up_total
           (λ t, svd_buffers n m t
                 ∧ s_w t = s_w st ∧ s_V t = s_V st ∧ s_rv1 t = s_rv1 st
                 ∧ ∀ r c, 0 ≤ r < m → 0 ≤ c < n → mget (s_A t) r c = f r c)).
  - auto.
  - intros j t Hj (Hb & Hw & HV & Hr1 & HA).
    destruct (Hpos j Hj) as (Hrf & Hcf & Hf0).
    rewrite (A_wr_ok n m t _ _ _ Hb Hrf Hcf).
    eexists. split; [reflexivity|]. split; [apply buffers_A_set; exact Hb|]. simpl.
    repeat (split; [assumption|]).
    intros r c Hr Hc. destruct Hb as (HsA & _).
    rewrite (mget_mset _ m n) by (auto; lia).
    case_decide as Hd; [|apply HA; assumption].
    destruct Hd as [-> ->]. symmetry. exact Hf0.
Qed.

(** Step [i] of the accumulation of the left-hand transformations with
    [w[i] = 0.0] on a matrix that holds [1.0] on its diagonal below the row
    [i] and [0.0] elsewhere: [A[i][i]] becomes [1.0]. *)
Lemma accumulate_left_step_zero (i : Z) (st : svd_state) :
  svd_buffers n m st → 0 ≤ i < n → i < m → vget (s_w st) i = 0%float →
  (∀ r c, 0 ≤ r < m → 0 ≤ c < n →
     mget (s_A st) r c = if decide (r = c ∧ i < r) then 1%float else 0%float) →
  ∃ st', accumulate_left_step n m i st = Ok st'
    ∧ svd_buffers n m st'
    ∧ s_w st' = s_w st ∧ s_V st' = s_V st ∧ s_rv1 st' = s_rv1 st
    ∧ ∀ r c, 0 ≤ r < m → 0 ≤ c < n →
        mget (s_A st') r c = if decide (r = c ∧ i - 1 < r) then 1%float else 0%float.
Proof.
  intros Hst Hi Him Hw0 HA.
  set (f := λ r c : Z, if decide (r = c ∧ i < r) then 1%float else 0%float).
  unfold accumulate_left_step. cbv zeta.
  rewrite (bind_Ok_l _ _ _ (w_rd_ok n m st i Hst Hi)). rewrite Hw0.
  change (negb (0 =? 0)%float) with false. cbv iota.
  assert (H1 : ∃ t, (if negb (i =? n - 1)
                     then for_up (i + 1) n (λ j st, A_wr st i j 0%float) st
                     else Ok st) = Ok t
                 ∧ svd_buffers n m t
                 ∧ s_w t = s_w st ∧ s_V t = s_V st ∧ s_rv1 t = s_rv1 st
                 ∧ ∀ r c, 0 ≤ r < m → 0 ≤ c < n → mget (s_A t) r c = f r c).
  { destruct (negb (i =? n - 1)).
    - apply (A_zero_loop (λ _, i) (λ j, j) f); [exact Hst | | exact HA].
      intros j Hj. split; [lia|]. split; [lia|]. unfold f. rewrite decide_False by lia.
      reflexivity.
    - exists st. split; [reflexivity|]. split; [exact Hst|].
      split; [reflexivity|]. split; [reflexivity|]. split; [reflexivity|]. exact HA. }
  destruct H1 as (t1 & Hrun1 & Hb1 & Hw1 & HV1 & Hr1 & HA1).
  rewrite (bind_Ok_l _ _ _ Hrun1).
  destruct (A_zero_loop (λ j, j) (λ _, i) f i m t1 Hb1)
    as (t2 & Hrun2 & Hb2 & Hw2 & HV2 & Hr2 & HA2).
  { intros j Hj. split; [lia|]. split; [lia|]. unfold f. rewrite decide_False by lia.
    reflexivity. }
  { exact HA1. }
  rewrite (bind_Ok_l _ _ _ Hrun2).
  rewrite (bind_Ok_l _ _ _ (A_rd_ok n m t2 i i Hb2 ltac:(lia) Hi)).
  rewrite (A_wr_ok n m t2 i i _ Hb2 ltac:(lia) Hi).
  eexists. split; [reflexivity|]. split; [apply buffers_A_set; exact Hb2|]. simpl.
  split; [congruence|]. split; [congruence|]. split; [congruence|].
  intros r c Hr Hc. destruct Hb2 as (HsA & _).
  rewrite (mget_mset _ m n) by (auto; lia). rewrite !HA2 by (auto; lia). unfold f.
  repeat case_decide; try reflexivity; lia.
Qed.

(** With [w] at zero on a zero matrix, the accumulation of the left-hand
    transformations leaves [1.0] on the diagonal of [A]. *)
Lemma accumulate_left_zero (st : svd_state) :
  svd_buffers n m st → zero_entries (s_A st) m n →
  (∀ k, 0 ≤ k < n → vget (s_w st) k = 0%float) →
  ∃ st', accumulate_left n m st = Ok st'
    ∧ svd_buffers n m st'
    ∧ s_w st' = s_w st ∧ s_V st' = s_V st ∧ s_rv1 st' = s_rv1 st
    ∧ unit_diagonal (s_A st') m n.
Proof.
  intros Hst Hz Hw0. unfold accumulate_left.
  set (hi := if m <? n then m - 1 else n - 1).
  assert (Hhi : 0 ≤ hi < n ∧ hi < m ∧ (hi = m - 1 ∨ hi = n - 1))
    by (unfold hi; destruct (Z.ltb_spec m n); lia).
  destruct (for_down_inv
    (λ j t, svd_buffers n m t
            ∧ s_w t = s_w st ∧ s_V t = s_V st ∧ s_rv1 t = s_rv1 st
            ∧ ∀ r c, 0 ≤ r < m → 0 ≤ c < n →
                mget (s_A t) r c = if decide (r = c ∧ j < r) then 1%float else 0%float)
    hi 0 (accumulate_left_step n m) st)
    as (t & Hrun & Hb & Hw & HV & Hr1 & HA).
  - lia.
  - split; [exact Hst|]. repeat (split; [reflexivity|]).
    intros r c Hr Hc. rewrite decide_False by lia. apply Hz; assumption.
  - intros j t Hj (Hb & Hw & HV & Hr1 & HA).
    destruct (accumulate_left_step_zero j t Hb ltac:(lia) ltac:(lia))
      as (t' & Hstep & Hb' & Hw' & HV' & Hr' & HA').
    { rewrite Hw. apply Hw0. lia. }
    { exact HA. }
    exists t'. split; [exact Hstep|]. split; [exact Hb'|].
    split; [congruence|]. split; [congruence|]. split; [congruence|]. exact HA'.
  - exists t. split; [exact Hrun|]. split; [exact Hb|]. split; [exact Hw|].
    split; [exact HV|]. split; [exact Hr1|].
    intros r c Hr Hc. rewrite HA by assumption.
    repeat case_decide; try reflexivity; lia.
Qed.

(** With [w[k]], [rv1[k]] and [tst1] at zero, the loop of the target index
    [k] breaks in its first pass and changes nothing. *)
Lemma diagonalize_k_zero (k : Z) (st : svd_state) :
  svd_buffers n m st → 0 ≤ k < n →
  vget (s_w st) k = 0%float → vget (s_rv1 st) k = 0%float →
  diagonalize_k hypot n m 0%float k st = Ok st.
Proof.
  intros Hst Hk Hw0 Hr0. unfold diagonalize_k.
  change (Z.to_nat (SVD_NMAX + 1)) with (S (Z.to_nat SVD_NMAX)). simpl sweeps.
  assert (Hsweep : sweep hypot n m k 0%float st = Ok (Break st)).
  { unfold sweep, split_search.
    replace (Z.to_nat (k + 1)) with (S (Z.to_nat k)) by lia. simpl split_search_n.
    rewrite (bind_Ok_l _ _ _ (rv1_rd_ok n m st k Hst Hk)). rewrite Hr0.
    change (fabs 0 + 0 =? 0)%float with true. cbv iota.
    rewrite (bind_Ok_l _ _ (k, -1, false) eq_refl). cbv beta iota.
    rewrite (bind_Ok_l _ _ st eq_refl).
    rewrite (bind_Ok_l _ _ _ (w_rd_ok n m st k Hst Hk)). rewrite Hw0.
    rewrite Z.eqb_refl. simpl negb. cbv iota.
    unfold make_nonneg. change (0 <? 0)%float with false. reflexivity. }
  rewrite Hsweep. reflexivity.
Qed.

End ZeroMatrix.

(** X22. The decomposition of a zero matrix: on buffers of the expected
    sizes, whatever [w] and [V] held, [svd] returns (it neither quits nor
    divides) with the first [n] singular values [w[k]] at [0.0], the identity
    in [V], and in [A] the matrix with [1.0] on its diagonal and [0.0]
    elsewhere. *)
Theorem svd_zero_matrix (hypot : float → float → float)
    (A : matrix) (n m : Z) (w : vec) (V : matrix) :
  0 < n → 0 < m → shape A m n → (Z.to_nat n ≤ length w)%nat → shape V n n →
  zero_entries A m n →
  ∃ out, svd hypot A n m w V = Ok out
    ∧ (∀ k, 0 ≤ k < n → rd (s_w out) k = Ok 0%float)
    ∧ unit_diagonal (s_V out) n n
    ∧ unit_diagonal (s_A out) m n.
Proof.
  intros Hn Hm HA Hw HV Hz.
  pose proof (buffers_init A n m w V HA Hw HV) as Hb.
  destruct (householder_zero n m Hn _ Hb Hz) as (st0 & Hh & Hb0 & HA0 & HV0 & Hval0).
  destruct (accumulate_right_zero n m Hn st0 Hb0 (λ k Hk, proj2 (Hval0 k Hk)))
    as (st1 & Hr & Hb1 & HA1 & Hw1 & Hr1 & HV1).
  destruct (accumulate_left_zero n m Hn Hm st1 Hb1)
    as (st2 & Hl & Hb2 & Hw2 & HV2 & Hr2 & HA2).
  { rewrite HA1, HA0. exact Hz. }
  { intros k Hk. rewrite Hw1. apply Hval0. exact Hk. }
  exists st2. split; [|split; [|split]].
  - unfold svd. destruct (Z.ltb_spec 0 m); [|lia]. destruct (Z.ltb_spec 0 n); [|lia].
    simpl negb. cbv iota.
    rewrite (bind_Ok_l _ _ _ Hh). cbv beta iota.
    rewrite (bind_Ok_l _ _ _ Hr), (bind_Ok_l _ _ _ Hl).
    unfold diagonalize, for_down. apply ford_n_id. intros k Hk.
    apply (diagonalize_k_zero hypot n m k st2 Hb2 ltac:(lia)).
    + rewrite Hw2, Hw1. apply Hval0. lia.
    + rewrite Hr2, Hr1. apply Hval0. lia.
  - intros k Hk. destruct Hb2 as (_ & Hlw & _).
    rewrite rd_vget by lia. rewrite Hw2, Hw1. f_equal. apply Hval0. exact Hk.
  - rewrite HV2. exact HV1.
  - exact HA2.
Qed.

Lemma svd_zero_matrix_witness :
  ∃ out, svd hypot_plain zero_V 2 2 [5; 7]%float diag_A = Ok out
    ∧ rd (s_w out) 1 = Ok 0%float
    ∧ mget (s_V out) 0 1 = 0%float
    ∧ mget (s_A out) 1 1 = 1%float.
Proof.
  destruct (svd_zero_matrix hypot_plain zero_V 2 2 [5; 7]%float diag_A)
    as (out & Hrun & Hw & HV & HU).
  - lia.
  - lia.
  - apply shapeb_shape. reflexivity.
  - simpl. lia.
  - apply shapeb_shape. reflexivity.
  - intros r c Hr Hc.
    assert (r = 0 ∨ r = 1) as [-> | ->] by lia;
      assert (c = 0 ∨ c = 1) as [-> | ->] by lia; reflexivity.
  - exists out. split; [exact Hrun|]. split; [apply Hw; lia|].
    split; [apply (HV 0 1); lia | apply (HU 1 1); lia].
Defined.

(** ** svd_sort with any qsort of the C library *)

(** X23. With singular values that are numbers (no NaN), [svd_sort] needs no
    more of [qsort] than the C standard promises: it returns, the order
    [pos] it applies is a permutation of the indices, and the values in this
    order are in descending order, each at most the one before it. *)
Theorem svd_sort_numbers
    (qsort : (indexedvalue → indexedvalue → Z) → list indexedvalue → list indexedvalue)
    (A : matrix) (n m : Z) (w : vec) (V : matrix) :
  qsort_contract qsort →
  1 ≤ n → 1 ≤ m → shape A m n → length w = Z.to_nat n → shape V n n →
  (∀ x, x ∈ w → is_nan x = false) →
  let p := sort_pos qsort n w in
  p ≡ₚ zrange 0 n
  ∧ (∃ t, svd_sort qsort A n m w V = Ok t)
  ∧ ∀ a b, 0 ≤ a → a < b → b < n →
      (vget w (zget p b) <=? vget w (zget p a))%float = true.
Proof.
  intros Hq Hn Hm HA Hw HV Hnan p.
  pose proof (Hq (cmp_iv w) (iv_init n) (cmp_iv_no_nan w Hnan)) as Hpost.
  split; [apply sort_pos_perm; exact Hpost|]. split.
  - destruct (svd_sort_spec qsort A n m w V Hn Hm HA Hw HV Hpost)
      as (A' & w' & V' & Hrun & _).
    eexists. exact Hrun.
  - intros a b Ha Hab Hb.
    assert (Hnum : ∀ i, is_nan (vget w i) = false).
    { intros i. unfold vget. destruct (w !! Z.to_nat i) as [x|] eqn:E; simpl.
      - apply Hnan. eapply list_elem_of_lookup_2. exact E.
      - reflexivity. }
    apply not_ltb_leb; [apply Hnum | apply Hnum |].
    apply sorted_not_ltb; assumption.
Qed.

Lemma qsort_stable_contract : qsort_contract qsort_stable.
Proof. intros cmp l Hcmp. apply qsort_stable_meets_post. exact Hcmp. Qed.

Lemma svd_sort_numbers_witness :
  sort_pos qsort_stable 3 ex_w ≡ₚ zrange 0 3
  ∧ (∃ t, svd_sort qsort_stable ex_A 3 2 ex_w ex_V = Ok t)
  ∧ (vget ex_w (zget (sort_pos qsort_stable 3 ex_w) 2)
       <=? vget ex_w (zget (sort_pos qsort_stable 3 ex_w) 0))%float = true.
Proof.
  destruct (svd_sort_numbers qsort_stable ex_A 3 2 ex_w ex_V) as (Hp & Hrun & Hord).
  - exact qsort_stable_contract.
  - lia.
  - lia.
  - apply shapeb_shape. reflexivity.
  - reflexivity.
  - apply shapeb_shape. reflexivity.
  - intros x Hx. unfold ex_w in Hx.
    repeat (apply elem_of_cons in Hx as [-> | Hx]; [reflexivity|]).
    apply elem_of_nil in Hx. contradiction.
  - split; [exact Hp|]. split; [exact Hrun|]. apply Hord; lia.
Defined.
